(** * Randomized contraction min-cut (min_cut.py): a shallow embedding

    The Python script keeps its graph as a list of tuples
    [(v1, v2, u_id)], mutates such lists in place while contracting, and
    protects the list read from the file by working on a deep copy.  The
    embedding below keeps that shape: list objects live in a heap indexed
    by references, every function of the script is a command over a
    [world] that threads the heap, the random draws and the printed
    reports, and Python exceptions are an explicit outcome.  The number
    of runs is computed in binary64 as the script computes it; the float
    that [math.log] returns belongs to the platform and is a component
    of the world. *)

From Stdlib Require Import ZArith Lia Reals Lra.
From stdpp Require Import base tactics option list numbers gmap sets.

Set Warnings "-clear-no-such-hyp".

(** ** Data *)

(** An edge is the tuple [(v1, v2, u_id)]. *)
Definition edge : Type := Z * Z * Z.

Definition v1_of (e : edge) : Z := e.1.1.   (* edge[0] *)
Definition v2_of (e : edge) : Z := e.1.2.   (* edge[1] *)
Definition u_id (e : edge) : Z := e.2.      (* edge[2] *)

(** References to list objects. *)
Definition loc : Type := nat.

(** Exceptions the script can raise.  [LoopFuel] is not a Python
    exception: it is what the bounded model of the [while] loop answers
    when its iteration budget is used up (shown below never to happen). *)
Inductive exn : Type := IndexError | ValueError | LoopFuel.

(** [smaller_num_edges_min_cut] starts as [float('inf')] and then holds
    list lengths. *)
Inductive num : Type := Inf | Num (n : Z).

(** What the script prints: one progress line per iteration of the trial
    loop, and the closing summary. *)
Inductive report : Type :=
| Progress (k : Z) (number_of_runs : Z) (smaller : num)
| Summary (number_of_runs : Z) (smaller : num) (cut : list (Z * Z)).

(** A binary64 number other than an infinity or a NaN: the value
    [Fnum * 2 ^ Fexp].  Such a number has a numerator below [2 ^ 53] in
    absolute value.  The exponent range is not represented: a list has
    fewer than [2 ^ 63] entries, so the numbers the script computes from
    the count of its vertices stay far inside it. *)
Record float : Type := Float { Fnum : Z; Fexp : Z }.

Record world : Type := World {
  heap : gmap loc (list edge);   (* the list objects *)
  rng : nat → nat;               (* the raw draws of the random source *)
  drawn : nat;                   (* how many draws were consumed *)
  stdout : list report;          (* printed so far, oldest first *)
  float_log : Z → Z → float      (* what [math.log(x, base)] answers for a
                                    positive [x] on this platform *)
}.

Definition set_heap (h : gmap loc (list edge)) (w : world) : world :=
  World h (rng w) (drawn w) (stdout w) (float_log w).

Inductive outcome (A : Type) : Type :=
| Ok (a : A) (w : world)
| Raise (e : exn) (w : world).
Arguments Ok {A} a w.
Arguments Raise {A} e w.

(** ** The command monad *)

Definition M (A : Type) : Type := world → outcome A.

#[global] Instance M_ret : MRet M := λ A a w, Ok a w.

#[global] Instance M_bind : MBind M := λ A B k m w,
  match m w with
  | Ok a w' => k a w'
  | Raise e w' => Raise e w'
  end.

Definition raise {A} (e : exn) : M A := λ w, Raise e w.

(** [for x in xs: body x] *)
Fixpoint for_each {A} (xs : list A) (body : A → M unit) : M unit :=
  match xs with
  | [] => mret tt
  | x :: xs' => body x ;; for_each xs' body
  end.

(** ** List objects *)

(** The list a reference points to. *)
Definition deref (p : loc) (w : world) : list edge := heap w !!! p.

Definition load (p : loc) : M (list edge) := λ w, Ok (deref p w) w.

(** A new list object. *)
Definition alloc (l : list edge) : M loc :=
  λ w, let p := fresh (dom (heap w)) in Ok p (set_heap (<[p := l]> (heap w)) w).

(** [p[i]] *)
Definition getitem (p : loc) (i : nat) : M edge :=
  λ w, match deref p w !! i with
       | Some e => Ok e w
       | None => Raise IndexError w
       end.

(** [p[i] = e] *)
Definition setitem (p : loc) (i : nat) (e : edge) : M unit :=
  λ w, if decide (i < length (deref p w))
       then Ok tt (set_heap (<[p := <[i := e]> (deref p w)]> (heap w)) w)
       else Raise IndexError w.

(** [copy.deepcopy(p)]: a new list object with the same tuples. *)
Definition deepcopy (p : loc) : M loc := l ← load p; alloc l.

(** [random.choice(l)]: the next raw draw picks the position; an empty
    sequence raises [IndexError]. *)
Definition random_choice (l : list edge) : M edge :=
  λ w, match l !! (rng w (drawn w) `mod` length l) with
       | Some e => Ok e (World (heap w) (rng w) (S (drawn w)) (stdout w) (float_log w))
       | None => Raise IndexError w
       end.

Definition print (r : report) : M unit :=
  λ w, Ok tt (World (heap w) (rng w) (drawn w) (stdout w ++ [r]) (float_log w)).

(** ** [create_edges_list] *)

(** A line of the file: the bare newline the loader skips, or the
    integers [array_line] that [int] made of its tokens. *)
Inductive line : Type := Newline | Tokens (array_line : list Z).

Record loader : Type := Loader {
  unique_id : Z;
  edges : list edge;
  edges_added : gset (Z * Z)
}.

(** The body of [for v2 in array_line[1:]]. *)
Definition add_pair (v1 : Z) (st : loader) (v2 : Z) : loader :=
  let pair := if (v1 <? v2)%Z then (v1, v2) else (v2, v1) in
  if decide (pair ∈ edges_added st) then st
  else Loader (unique_id st + 1)
              (edges st ++ [(pair.1, pair.2, unique_id st)])
              ({[pair]} ∪ edges_added st).

(** The body of [for line in f]; [array_line[0]] raises on a line of
    blanks. *)
Definition read_line (st : loader) (ln : line) : exn + loader :=
  match ln with
  | Newline => inr st
  | Tokens [] => inl IndexError
  | Tokens (v1 :: rest) => inr (foldl (add_pair v1) st rest)
  end.

Fixpoint read_lines (st : loader) (f : list line) : exn + loader :=
  match f with
  | [] => inr st
  | ln :: f' =>
      match read_line st ln with
      | inl e => inl e
      | inr st' => read_lines st' f'
      end
  end.

Definition create_edges_list (f : list line) : M loc :=
  match read_lines (Loader 0 [] ∅) f with
  | inl e => raise e
  | inr st => alloc (edges st)
  end.

(** ** [count_vertices] *)

Definition vertex_set (edges_list : list edge) : gset Z :=
  foldl (λ s e, {[v2_of e]} ∪ ({[v1_of e]} ∪ s)) ∅ edges_list.

Definition count_vertices (edges_list : loc) : M Z :=
  l ← load edges_list;
  mret (Z.of_nat (size (vertex_set l))).

(** ** [merge_random_edge] *)

(** The body of [for i in range(len(edges_list))], for the sampled pair
    [(v1, v2)] already put in order. *)
Definition merge_step (edges_list : loc) (v1 v2 : Z) (i : nat) : M unit :=
  curr_edge ← getitem edges_list i;
  if decide ((v1_of curr_edge, v2_of curr_edge) = (v1, v2)) then
    setitem edges_list i (v1, v2, -1)%Z
  else if decide (v1_of curr_edge = v2) then
    e ← getitem edges_list i;
    let v3 := v2_of e in
    let uid := u_id e in
    if (v1 <? v3)%Z then setitem edges_list i (v1, v3, uid)
    else setitem edges_list i (v3, v1, uid)
  else if decide (v2_of curr_edge = v2) then
    e ← getitem edges_list i;
    let v3 := v1_of e in
    let uid := u_id e in
    if (v1 <? v3)%Z then setitem edges_list i (v1, v3, uid)
    else setitem edges_list i (v3, v1, uid)
  else mret tt.

(** The test of the closing list comprehension. *)
Definition kept (e : edge) : Prop := u_id e ≠ (-1)%Z.

#[global] Instance kept_dec e : Decision (kept e).
Proof. unfold kept. apply _. Defined.

Definition merge_random_edge (edges_list : loc) : M loc :=
  l ← load edges_list;
  chosen ← random_choice l;
  let v1 := v1_of chosen in
  let v2 := v2_of chosen in
  let '(v1, v2) := if (v1 <? v2)%Z then (v1, v2) else (v2, v1) in
  for_each (seq 0 (length l)) (merge_step edges_list v1 v2);;
  l' ← load edges_list;
  alloc (filter kept l').

(** ** [min_cut] *)

(** [while vertices_remaining > 2], with an iteration budget. *)
Fixpoint contract_loop (fuel : nat) (edges_list : loc) (vertices_remaining : Z)
  : M loc :=
  if (2 <? vertices_remaining)%Z then
    match fuel with
    | O => raise LoopFuel
    | S fuel' =>
        edges_list' ← merge_random_edge edges_list;
        contract_loop fuel' edges_list' (vertices_remaining - 1)
    end
  else mret edges_list.

(** The last two lines before [return]: the original edges whose
    identifier is still in the contracted list. *)
Definition final_edges_of (original edges_list : list edge) : list edge :=
  let ids : gset Z := list_to_set (u_id <$> edges_list) in
  filter (λ e, u_id e ∈ ids) original.

Definition min_cut (original_edges_list : loc) (vertices_remaining : Z) : M loc :=
  edges_list ← deepcopy original_edges_list;
  edges_list ← contract_loop (Z.to_nat vertices_remaining) edges_list
                             vertices_remaining;
  l ← load edges_list;
  original ← load original_edges_list;
  alloc (final_edges_of original l).

(** ** The script *)

(** Rounding to the nearest number with 53 significant bits, ties to
    the even numerator: what every binary64 operation does to its exact
    result. *)
Definition round (f : float) : float :=
  let d := (Z.log2 (Z.abs (Fnum f)) + 1 - 53)%Z in   (* the bits that do not fit *)
  if (d <=? 0)%Z then f
  else
    let q := (Fnum f / 2 ^ d)%Z in
    let r := (Fnum f mod 2 ^ d)%Z in
    let half := (2 ^ (d - 1))%Z in
    let up := if (r <? half)%Z then false
              else if (half <? r)%Z then true
              else Z.odd q in
    Float (if up then q + 1 else q)%Z (Fexp f + d).

(** [float(i)], as the product of an [int] and a [float] converts its
    [int]. *)
Definition float_of_int (i : Z) : float := round (Float i 0).

(** [x * y] on floats. *)
Definition float_mul (x y : float) : float :=
  round (Float (Fnum x * Fnum y) (Fexp x + Fexp y)).

(** [int(x)]: the fractional part is dropped. *)
Definition int_of_float (x : float) : Z :=
  if (0 <=? Fexp x)%Z then (Fnum x * 2 ^ Fexp x)%Z
  else (Fnum x ÷ 2 ^ (- Fexp x))%Z.

(** [math.log(x, base)] on an [int]: [ValueError] unless [x] is positive,
    otherwise the float the platform computes. *)
Definition math_log (x base : Z) : M float :=
  λ w, if (x <=? 0)%Z then Raise ValueError w else Ok (float_log w x base) w.

(** [int(n * (n - 1) * math.log(n, 2))]: the product [n * (n - 1)] is
    exact, it is converted for the multiplication by the float, and the
    binary64 product is truncated. *)
Definition number_of_runs_of (number_of_vertices : Z) : M Z :=
  l ← math_log number_of_vertices 2;
  mret (int_of_float
          (float_mul (float_of_int (number_of_vertices * (number_of_vertices - 1))) l)).

(** [a < b] where [b] may be [float('inf')]. *)
Definition num_lt (a : Z) (b : num) : bool :=
  match b with
  | Inf => true
  | Num n => (a <? n)%Z
  end.

(** [range(1, n + 1)] *)
Definition range1 (n : Z) : list Z := Z.of_nat <$> seq 1 (Z.to_nat n).

(** The body of the trial loop; the two globals it updates are threaded
    as a pair.  [random.seed()] reseeds from the system: the draws stay
    arbitrary, which the model expresses by leaving [rng] unconstrained. *)
Definition trial (original_edges_list : loc) (number_of_vertices number_of_runs : Z)
  (best : num * loc) (k : Z) : M (num * loc) :=
  let '(smaller_num_edges_min_cut, edges_of_min_cut) := best in
  edges_of_curr_min_cut ← min_cut original_edges_list number_of_vertices;
  curr ← load edges_of_curr_min_cut;
  let num_edges_of_curr_min_cut := Z.of_nat (length curr) in
  let best' :=
    if num_lt num_edges_of_curr_min_cut smaller_num_edges_min_cut
    then (Num num_edges_of_curr_min_cut, edges_of_curr_min_cut)
    else best in
  print (Progress k number_of_runs best'.1);;
  mret best'.

Fixpoint trials (original_edges_list : loc) (number_of_vertices number_of_runs : Z)
  (best : num * loc) (ks : list Z) : M (num * loc) :=
  match ks with
  | [] => mret best
  | k :: ks' =>
      best' ← trial original_edges_list number_of_vertices number_of_runs best k;
      trials original_edges_list number_of_vertices number_of_runs best' ks'
  end.

(** The module-level statements, in their order; the content of
    [graph.txt] is the parameter [file]. *)
Definition script (file : list line) : M (num * list edge) :=
  original_edges_list ← create_edges_list file;
  edges_of_min_cut ← alloc [];
  number_of_vertices ← count_vertices original_edges_list;
  number_of_runs ← number_of_runs_of number_of_vertices;
  best ← trials original_edges_list number_of_vertices number_of_runs
                (Inf, edges_of_min_cut) (range1 number_of_vertices);
  cut ← load best.2;
  print (Summary number_of_runs best.1 ((λ e, (v1_of e, v2_of e)) <$> cut));;
  mret (best.1, cut).

(** * Notions used in the statements *)

(** ** Outcomes *)

Definition final {A} (o : outcome A) : world :=
  match o with Ok _ w | Raise _ w => w end.

(** The reference a command returned, for looking at concrete runs. *)
Definition returned (o : outcome loc) : loc :=
  match o with Ok p _ => p | Raise _ _ => 0 end.

(** ** What one contraction does to a list *)

(** The endpoints of an edge, as the scan compares them. *)
Definition ends (e : edge) : Z * Z := (v1_of e, v2_of e).

(** What the scan of [merge_random_edge], for the sampled pair
    [(v1, v2)], leaves at a position that held [e]. *)
Definition relabel (v1 v2 : Z) (e : edge) : edge :=
  if decide ((v1_of e, v2_of e) = (v1, v2)) then (v1, v2, -1)%Z
  else if decide (v1_of e = v2) then
    if (v1 <? v2_of e)%Z then (v1, v2_of e, u_id e) else (v2_of e, v1, u_id e)
  else if decide (v2_of e = v2) then
    if (v1 <? v1_of e)%Z then (v1, v1_of e, u_id e) else (v1_of e, v1, u_id e)
  else e.

(** The sampled pair, smaller label first. *)
Definition ordered (chosen : edge) : Z * Z :=
  if (v1_of chosen <? v2_of chosen)%Z then (v1_of chosen, v2_of chosen)
  else (v2_of chosen, v1_of chosen).

(** The list [merge_random_edge] returns when it samples [chosen]. *)
Definition contract (chosen : edge) (l : list edge) : list edge :=
  filter kept (relabel (ordered chosen).1 (ordered chosen).2 <$> l).

(** The edges one contraction keeps, before their relabeling. *)
Definition survivors (chosen : edge) (l : list edge) : list edge :=
  filter (λ e, ends e ≠ ordered chosen ∧ kept e) l.

(** [n] contractions in a row, the first one using draw number [d]. *)
Fixpoint contract_n (rnd : nat → nat) (d n : nat) (l : list edge)
  : option (list edge) :=
  match n with
  | O => Some l
  | S n' =>
      match l !! (rnd d `mod` length l) with
      | Some chosen => contract_n rnd (S d) n' (contract chosen l)
      | None => None
      end
  end.

(** ** What one call of [merge_random_edge] does to the world *)

(** The position [random.choice] picks in a list of this length. *)
Definition pick (w : world) (l : list edge) : nat := rng w (drawn w) `mod` length l.

(** The heap after the in-place scan of the list object at [p]. *)
Definition scanned (p : loc) (chosen : edge) (l : list edge) (w : world)
  : gmap loc (list edge) :=
  <[p := relabel (ordered chosen).1 (ordered chosen).2 <$> l]> (heap w).

Definition after_merge (p : loc) (chosen : edge) (l : list edge) (w : world)
  : world :=
  World (<[fresh (dom (scanned p chosen l w)) := contract chosen l]>
           (scanned p chosen l w))
        (rng w) (S (drawn w)) (stdout w) (float_log w).

Inductive merge_outcome (p : loc) (w : world) : outcome loc → Prop :=
| merge_returns chosen :
    deref p w !! pick w (deref p w) = Some chosen →
    merge_outcome p w
      (Ok (fresh (dom (scanned p chosen (deref p w) w)))
          (after_merge p chosen (deref p w) w))
| merge_raises :
    deref p w = [] →
    merge_outcome p w (Raise IndexError w).

(** [contractions p w p' w']: from world [w], some number of successful
    calls [edges_list = merge_random_edge(edges_list)], starting with the
    list at [p], lead to world [w'] with the list at [p']. *)
Inductive contractions : loc → world → loc → world → Prop :=
| contractions_refl p w : contractions p w p w
| contractions_step p w p1 w1 p2 w2 :
    merge_random_edge p w = Ok p1 w1 →
    contractions p1 w1 p2 w2 →
    contractions p w p2 w2.

(** The part of the world a command may not disturb: the list objects
    that exist when it starts, the random source and the output. *)
Definition preserves (w w' : world) : Prop :=
  rng w' = rng w ∧
  dom (heap w) ⊆ dom (heap w') ∧
  ∀ q, q ∈ dom (heap w) → heap w' !! q = heap w !! q.

Definition is_progress (number_of_runs : Z) (r : report) : Prop :=
  ∃ k smaller, r = Progress k number_of_runs smaller.

(** ** Identifiers and labels *)

Definition ids (l : list edge) : list Z := u_id <$> l.

Definition well_numbered (st : loader) : Prop :=
  unique_id st = Z.of_nat (length (edges st)) ∧
  ids (edges st) = Z.of_nat <$> seq 0 (length (edges st)).

(** The endpoint labels of a list, with repetitions. *)
Definition labels (l : list edge) : list Z := l ≫= λ e, [v1_of e; v2_of e].

(** ** Contraction as the design describes it

    Steps 3 and 4 of [contractOnce], written from their description: an
    endpoint equal to [b] becomes [a], the pair is put back in order, the
    identity stays; then the edges whose two endpoints are equal go. *)

Definition redirect (a b x : Z) : Z := if decide (x = b) then a else x.

Definition contractOnce_relabel (a b : Z) (e : edge) : edge :=
  let x := redirect a b (v1_of e) in
  let y := redirect a b (v2_of e) in
  (Z.min x y, Z.max x y, u_id e).

Definition self_loop (e : edge) : Prop := v1_of e = v2_of e.

Definition contractOnce_spec (a b : Z) (store : list edge) : list edge :=
  filter (λ e, ¬ self_loop e) (contractOnce_relabel a b <$> store).

(** The invariant of the data model on endpoints: every edge has its
    smaller endpoint first.  (That no identity is the mark [-1] is
    [Forall kept].) *)
Definition normalized (store : list edge) : Prop :=
  Forall (λ e, v1_of e < v2_of e)%Z store.

(** An edge other than the copies of the pair [(a, b)] that has [a] or
    [b] as an endpoint. *)
Definition touches (a b : Z) (e : edge) : Prop :=
  ends e ≠ (a, b) ∧ (v1_of e = a ∨ v2_of e = a ∨ v1_of e = b ∨ v2_of e = b).

#[global] Instance touches_dec a b e : Decision (touches a b e).
Proof. unfold touches. apply _. Defined.

(** ** The number of runs as a formula over the reals *)

(** [n * (n - 1) * log2(n)] as a real number. *)
Definition trial_budget (n : Z) : R :=
  (IZR (n * (n - 1)) * (ln (IZR n) / ln 2))%R.

(** The value of a float. *)
Definition F2R (f : float) : R := (IZR (Fnum f) * powerRZ 2 (Fexp f))%R.

(** Half a unit in the last place of a number in [[1, 2)]: the largest
    relative change a rounding makes. *)
Definition unit_roundoff : R := (/ 2 ^ 53)%R.

Definition is_floor (x : R) (k : Z) : Prop := (IZR k <= x < IZR k + 1)%R.
Definition is_ceil (x : R) (k : Z) : Prop := (IZR k - 1 < x <= IZR k)%R.

(** ** Concrete inputs and runs *)

(** What [math.log(x, 2)] answers under CPython 3.11 on x86-64 Linux
    (glibc), for [x] up to 16 and at the other arguments of the examples
    below: the quotient of the two natural logarithms, rounded (at 3 it
    is one unit in the last place above the nearest float to the exact
    logarithm).  At arguments that are not listed the integer part of
    the logarithm stands in. *)
Definition reference_log (x base : Z) : float :=
  match x with
  | 1 => Float 0 0                            (* 0x0.0p+0 *)
  | 2 => Float 1 0                            (* 0x1.0000000000000p+0 *)
  | 3 => Float 7138036527644009 (-52)         (* 0x1.95c01a39fbd69p+0 *)
  | 4 => Float 2 0                            (* 0x1.0000000000000p+1 *)
  | 5 => Float 5228517251457905 (-51)         (* 0x1.2934f0979a371p+1 *)
  | 6 => Float 5820818077507252 (-51)         (* 0x1.4ae00d1cfdeb4p+1 *)
  | 7 => Float 6321601290437677 (-51)         (* 0x1.675767f54042dp+1 *)
  | 8 => Float 3 0                            (* 0x1.8000000000000p+1 *)
  | 9 => Float 7138036527644009 (-51)         (* 0x1.95c01a39fbd69p+1 *)
  | 10 => Float 7480317065143154 (-51)        (* 0x1.a934f0979a372p+1 *)
  | 11 => Float 7789947474304323 (-51)        (* 0x1.bacea7c065d43p+1 *)
  | 12 => Float 8072617891192501 (-51)        (* 0x1.cae00d1cfdeb5p+1 *)
  | 13 => Float 8332649467863603 (-51)        (* 0x1.d9a802391e233p+1 *)
  | 14 => Float 8573401104122924 (-51)        (* 0x1.e75767f54042cp+1 *)
  | 15 => Float 8797535515279910 (-51)        (* 0x1.f414fdb498226p+1 *)
  | 16 => Float 4 0                           (* 0x1.0000000000000p+2 *)
  | 88924 => Float 4627528900828212 (-48)     (* 0x1.070b688525c34p+4 *)
  | 536870912 => Float 8162774324609025 (-48) (* 0x1.d000000000001p+4 *)
  | _ => Float (Z.log2 x) 0
  end%Z.

(** The world the script starts in, for a given random source. *)
Definition initial (rnd : nat → nat) : world := World ∅ rnd 0 [] reference_log.

(** A world holding one list object, at reference 0, whose random source
    always draws 0. *)
Definition holding (l : list edge) : world :=
  World {[0 := l]} (λ _, 0) 0 [] reference_log.

Definition triangle : list edge := [(1, 2, 0); (1, 3, 1); (2, 3, 2)]%Z.

Definition two_islands : list edge := [(1, 2, 0); (3, 4, 1)]%Z.

Definition three_islands : list edge := [(1, 2, 0); (3, 4, 1); (5, 6, 2)]%Z.

Definition doubled : list edge := [(1, 3, 1); (1, 3, 2); (3, 4, 5)]%Z.

(** What the rows [2 2 1] and [1 2 3] load: a self-loop at 2. *)
Definition looped : list edge := [(2, 2, 0); (1, 2, 1); (1, 3, 2)]%Z.

Definition looped_file : list line := [Tokens [2; 2; 1]; Tokens [1; 2; 3]]%Z.

(** A world holding one list object, at reference 0, whose random source
    always draws [i]. *)
Definition drawing (i : nat) (l : list edge) : world :=
  World {[0 := l]} (λ _, i) 0 [] reference_log.

Definition triangle_file : list line :=
  [Tokens [1; 2; 3]; Newline; Tokens [2; 1; 3]; Tokens [3; 1; 2]]%Z.

(** A file of three disjoint edges. *)
Definition three_islands_file : list line :=
  [Tokens [1; 2]; Tokens [3; 4]; Tokens [5; 6]]%Z.

(** A concrete run: the triangle file is loaded, copied, and contracted
    once, with a random source that always draws 0. *)
Definition run_loaded : outcome loc := create_edges_list triangle_file (initial (λ _, 0)).
Definition run_copied : outcome loc := deepcopy (returned run_loaded) (final run_loaded).
Definition run_merged : outcome loc :=
  merge_random_edge (returned run_copied) (final run_copied).

Definition run_script : outcome (num * list edge) :=
  script triangle_file (initial (λ _, 0)).

(** ** The pairs a file mentions *)

(** [(v1, v2) if v1 < v2 else (v2, v1)] *)
Definition order_pair (v1 v2 : Z) : Z * Z :=
  if (v1 <? v2)%Z then (v1, v2) else (v2, v1).

(** The pairs of a row: its first vertex with each of the others. *)
Definition row_pairs (ln : line) : list (Z * Z) :=
  match ln with
  | Tokens (v1 :: rest) => order_pair v1 <$> rest
  | _ => []
  end.

(** All the pairs of a file, in the order the loader meets them. *)
Definition mentioned (f : list line) : list (Z * Z) := f ≫= row_pairs.

(** What the loader keeps true of its three variables. *)
Definition loader_inv (st : loader) : Prop :=
  edges_added st = list_to_set (ends <$> edges st) ∧
  NoDup (ends <$> edges st) ∧
  Forall (λ e, v1_of e ≤ v2_of e)%Z (edges st).

(** A line that can change what the loader does: a row with at least one
    neighbour, or a line of blanks (on which it raises). *)
Definition significant (ln : line) : Prop :=
  match ln with
  | Newline => False
  | Tokens [_] => False
  | Tokens _ => True
  end.

#[global] Instance significant_dec ln : Decision (significant ln).
Proof. destruct ln as [|[|? [|? ?]]]; simpl; apply _. Defined.

(** ** The vertex groups behind a contracted list *)

(** After the contractions of the pairs [(a1, b1); (a2, b2); ...], in
    this order, the label that stands for the original vertex [x]. *)
Definition rep (pairs : list (Z * Z)) (x : Z) : Z :=
  foldl (λ x ab, redirect ab.1 ab.2 x) x pairs.

(** The edges whose endpoints [r] sends to different labels. *)
Definition crossing (r : Z → Z) (l : list edge) : list edge :=
  filter (λ e, r (v1_of e) ≠ r (v2_of e)) l.

(** An edge with its endpoints replaced by their labels, in order. *)
Definition image_of (r : Z → Z) (e : edge) : edge :=
  (Z.min (r (v1_of e)) (r (v2_of e)), Z.max (r (v1_of e)) (r (v2_of e)), u_id e).

(** [reaches l0 pairs l]: contracting, one after the other, edges whose
    ordered endpoints are [pairs] leads from the list [l0] to [l]. *)
Inductive reaches (l0 : list edge) : list (Z * Z) → list edge → Prop :=
| reaches_nil : reaches l0 [] l0
| reaches_snoc pairs l chosen :
    reaches l0 pairs l → chosen ∈ l →
    reaches l0 (pairs ++ [ordered chosen]) (contract chosen l).

(** ** What the trial loop reports *)

(** [a <= b] for the sizes the script compares, [float('inf')] being the
    largest. *)
Definition num_le (a b : num) : Prop :=
  match a, b with
  | _, Inf => True
  | Inf, Num _ => False
  | Num x, Num y => (x ≤ y)%Z
  end.

(** Each element is at most the one before it. *)
Definition descending (l : list num) : Prop :=
  ∀ i s1 s2, l !! i = Some s1 → l !! S i = Some s2 → num_le s2 s1.

(** The progress lines for the iterations [ks] and the sizes reported. *)
Definition progress_lines (number_of_runs : Z) (ks : list Z) (sizes : list num)
  : list report :=
  zip_with (λ k s, Progress k number_of_runs s) ks sizes.

(** The best pair holds the size of a live list that satisfies [Q]. *)
Definition best_is (Q : list edge → Prop) (w : world) (best : num * loc) : Prop :=
  best.1 = Num (Z.of_nat (length (deref best.2 w))) ∧
  best.2 ∈ dom (heap w) ∧
  Q (deref best.2 w).

(** * Reasoning about commands *)

Lemma number_of_runs_of_unfold n w :
  number_of_runs_of n w
  = if (n <=? 0)%Z then Raise ValueError w
    else Ok (int_of_float
               (float_mul (float_of_int (n * (n - 1))) (float_log w n 2))) w.
Proof.
  unfold number_of_runs_of, math_log. change (?m ≫= ?k) with (λ w, (m ≫= k) w).
  cbv beta. unfold mbind, M_bind. by destruct (n <=? 0)%Z.
Qed.

Lemma bind_unfold {A B} (m : M A) (k : A → M B) w :
  (m ≫= k) w = match m w with Ok a w' => k a w' | Raise e w' => Raise e w' end.
Proof. reflexivity. Qed.

Lemma bind_ok {A B} (m : M A) (k : A → M B) w a w' :
  m w = Ok a w' → (m ≫= k) w = k a w'.
Proof. intros H. by rewrite bind_unfold, H. Qed.

Lemma bind_raise {A B} (m : M A) (k : A → M B) w e w' :
  m w = Raise e w' → (m ≫= k) w = Raise e w'.
Proof. intros H. by rewrite bind_unfold, H. Qed.

Lemma set_heap_id w : set_heap (heap w) w = w.
Proof. by destruct w. Qed.

Lemma deref_lookup p w l : heap w !! p = Some l → deref p w = l.
Proof. intros H. unfold deref. by apply lookup_total_correct. Qed.

Lemma lookup_deref p w : deref p w ≠ [] → heap w !! p = Some (deref p w).
Proof.
  unfold deref. rewrite lookup_total_alt.
  destruct (heap w !! p) as [l|]; simpl; [done | by intros []].
Qed.

Lemma deref_set_heap_eq p l h w : deref p (set_heap (<[p := l]> h) w) = l.
Proof. unfold deref; simpl. apply lookup_total_insert_eq. Qed.

Lemma deref_set_heap_ne p q l w :
  p ≠ q → deref q (set_heap (<[p := l]> (heap w)) w) = deref q w.
Proof. intros H. unfold deref; simpl. by apply lookup_total_insert_ne. Qed.

(** ** What the scan of [merge_random_edge] leaves at each position *)

Lemma merge_step_spec p v1 v2 i w l e :
  heap w !! p = Some l → l !! i = Some e →
  merge_step p v1 v2 i w
  = Ok tt (set_heap (<[p := <[i := relabel v1 v2 e]> l]> (heap w)) w).
Proof.
  intros Hp Hi.
  assert (Hd : deref p w = l) by by apply deref_lookup.
  assert (Hlt : i < length l) by by eapply lookup_lt_Some.
  assert (Hget : getitem p i w = Ok e w) by (unfold getitem; by rewrite Hd, Hi).
  assert (Hset : ∀ x, setitem p i x w
                      = Ok tt (set_heap (<[p := <[i := x]> l]> (heap w)) w)).
  { intros x. unfold setitem. rewrite Hd. by rewrite decide_True. }
  unfold merge_step, relabel. rewrite (bind_ok _ _ _ _ _ Hget).
  repeat case_decide; try done.
  - rewrite (bind_ok _ _ _ _ _ Hget). by destruct (v1 <? v2_of e)%Z.
  - rewrite (bind_ok _ _ _ _ _ Hget). by destruct (v1 <? v1_of e)%Z.
  - rewrite list_insert_id, insert_id by done. by rewrite set_heap_id.
Qed.

Lemma merge_scan_from p v1 v2 l n : ∀ k w,
  k + n = length l →
  heap w !! p = Some ((relabel v1 v2 <$> take k l) ++ drop k l) →
  for_each (seq k n) (merge_step p v1 v2) w
  = Ok tt (set_heap (<[p := relabel v1 v2 <$> l]> (heap w)) w).
Proof.
  induction n as [|n IH]; intros k w Hk Hp; simpl.
  - rewrite take_ge, drop_ge, app_nil_r in Hp by lia.
    by rewrite insert_id, set_heap_id.
  - destruct (lookup_lt_is_Some_2 l k) as [e He]; [lia|].
    assert (Hi : ((relabel v1 v2 <$> take k l) ++ drop k l) !! k = Some e).
    { rewrite lookup_app_r; rewrite length_fmap, length_take; [|lia].
      replace (k - k `min` length l) with 0 by lia.
      by rewrite lookup_drop, Nat.add_0_r. }
    rewrite (bind_ok _ _ _ _ _ (merge_step_spec _ _ _ _ _ _ _ Hp Hi)).
    rewrite IH; [| lia |].
    + unfold set_heap; simpl. by rewrite insert_insert_eq.
    + simpl. rewrite lookup_insert_eq. f_equal.
      rewrite insert_app_r_alt; rewrite length_fmap, length_take; [|lia].
      replace (k - k `min` length l) with 0 by lia.
      rewrite (take_S_r _ _ _ He), fmap_app, <- app_assoc. simpl.
      by rewrite (drop_S _ _ _ He).
Qed.

(** The whole scan is a map over the list object, in place. *)
Lemma merge_scan_spec p v1 v2 w l :
  heap w !! p = Some l →
  for_each (seq 0 (length l)) (merge_step p v1 v2) w
  = Ok tt (set_heap (<[p := relabel v1 v2 <$> l]> (heap w)) w).
Proof. intros Hp. apply merge_scan_from; [lia | by rewrite take_0, drop_0]. Qed.

(** ** One call of [merge_random_edge] *)

Lemma merge_random_edge_cases p w : merge_outcome p w (merge_random_edge p w).
Proof.
  unfold merge_random_edge. rewrite bind_unfold. simpl.
  rewrite bind_unfold. unfold random_choice.
  destruct (deref p w !! _) as [chosen|] eqn:Hc.
  - set (w1 := World (heap w) (rng w) (S (drawn w)) (stdout w) (float_log w)).
    assert (Hne : deref p w ≠ []) by (intros E; by rewrite E in Hc).
    assert (Hp : heap w1 !! p = Some (deref p w)) by exact (lookup_deref p w Hne).
    assert (Hscan : ∀ v1 v2,
      for_each (seq 0 (length (deref p w))) (merge_step p v1 v2) w1
      = Ok tt (set_heap (<[p := relabel v1 v2 <$> deref p w]> (heap w)) w1)).
    { intros. by rewrite (merge_scan_spec _ _ _ _ _ Hp). }
    replace (let '(v1, v2) := if (v1_of chosen <? v2_of chosen)%Z
                              then (v1_of chosen, v2_of chosen)
                              else (v2_of chosen, v1_of chosen) in _)
      with (for_each (seq 0 (length (deref p w)))
              (merge_step p (ordered chosen).1 (ordered chosen).2);;
            l' ← load p; alloc (filter kept l'))
      by (unfold ordered; by destruct (v1_of chosen <? v2_of chosen)%Z).
    rewrite (bind_ok _ _ _ _ _ (Hscan _ _)), bind_unfold. simpl.
    rewrite deref_set_heap_eq. unfold alloc; simpl.
    by apply (merge_returns p w chosen).
  - apply merge_raises.
    destruct (deref p w) as [|e l] eqn:E; [done|].
    apply lookup_ge_None_1 in Hc. simpl in Hc.
    pose proof (Nat.mod_upper_bound (rng w (drawn w)) (S (length l))). lia.
Qed.

Lemma scanned_dom p chosen l w : dom (scanned p chosen l w) = {[p]} ∪ dom (heap w).
Proof. unfold scanned. by rewrite dom_insert_L. Qed.

Lemma after_merge_new p chosen l w :
  let p' := fresh (dom (scanned p chosen l w)) in
  p' ≠ p ∧ p' ∉ dom (heap w).
Proof.
  intros p'. assert (Hf : p' ∉ dom (scanned p chosen l w)) by apply is_fresh.
  clearbody p'. rewrite scanned_dom in Hf. set_solver.
Qed.

Lemma after_merge_result p chosen l w :
  deref (fresh (dom (scanned p chosen l w))) (after_merge p chosen l w)
  = contract chosen l.
Proof. unfold deref, after_merge; simpl. apply lookup_total_insert_eq. Qed.

Lemma after_merge_arg p chosen l w :
  deref p (after_merge p chosen l w)
  = relabel (ordered chosen).1 (ordered chosen).2 <$> l.
Proof.
  destruct (after_merge_new p chosen l w) as [Hne _].
  unfold deref, after_merge; simpl.
  rewrite lookup_total_insert_ne by done.
  unfold scanned. apply lookup_total_insert_eq.
Qed.

Lemma after_merge_frame p chosen l w q :
  q ≠ p → q ∈ dom (heap w) →
  heap (after_merge p chosen l w) !! q = heap w !! q.
Proof.
  intros Hq Hd. destruct (after_merge_new p chosen l w) as [_ Hnew].
  unfold after_merge; simpl.
  rewrite lookup_insert_ne by (intros E; by rewrite E in Hnew).
  unfold scanned. by rewrite lookup_insert_ne.
Qed.

Lemma after_merge_dom p chosen l w :
  dom (heap w) ⊆ dom (heap (after_merge p chosen l w)).
Proof. unfold after_merge; simpl. rewrite dom_insert_L, scanned_dom. set_solver. Qed.

(** ** The contraction loop *)

(** What a run of the loop leaves behind: it returns the list reached by
    [vertices_remaining - 2] contractions, or stops with [IndexError] at
    the first contraction that finds its list empty; it consumes one draw
    per contraction, touches no list object other than its argument and
    the ones it creates, and never exhausts a budget of
    [vertices_remaining] iterations. *)
Lemma contract_loop_spec fuel : ∀ vr p w,
  Z.to_nat (vr - 2) ≤ fuel →
  let o := contract_loop fuel p vr w in
  rng (final o) = rng w ∧ stdout (final o) = stdout w ∧
  dom (heap w) ⊆ dom (heap (final o)) ∧
  (∀ q, q ≠ p → q ∈ dom (heap w) → heap (final o) !! q = heap w !! q) ∧
  match contract_n (rng w) (drawn w) (Z.to_nat (vr - 2)) (deref p w) with
  | Some l' =>
      ∃ p' w', o = Ok p' w' ∧ deref p' w' = l' ∧
               drawn w' = drawn w + Z.to_nat (vr - 2) ∧
               (p' = p ∨ p' ∉ dom (heap w))
  | None =>
      ∃ w', o = Raise IndexError w' ∧ drawn w' < drawn w + Z.to_nat (vr - 2)
  end.
Proof.
  induction fuel as [|fuel IH]; intros vr p w Hfuel.
  - assert (Hvr : (2 <? vr)%Z = false) by (apply Z.ltb_ge; lia).
    replace (Z.to_nat (vr - 2)) with 0 by lia.
    simpl. rewrite Hvr. simpl.
    do 4 (split; [done|]).
    exists p, w. split; [done|]. split; [done|]. split; [lia | by left].
  - destruct (2 <? vr)%Z eqn:Hvr; simpl; rewrite Hvr.
    2:{ apply Z.ltb_ge in Hvr. replace (Z.to_nat (vr - 2)) with 0 by lia.
        simpl. do 4 (split; [done|]).
        exists p, w. split; [done|]. split; [done|]. split; [lia | by left]. }
    apply Z.ltb_lt in Hvr.
    replace (Z.to_nat (vr - 2)) with (S (Z.to_nat (vr - 1 - 2))) by lia.
    rewrite bind_unfold. simpl.
    destruct (merge_random_edge_cases p w) as [chosen Hc | Hempty].
    + fold (pick w (deref p w)). rewrite Hc.
      set (p1 := fresh (dom (scanned p chosen (deref p w) w))).
      set (w1 := after_merge p chosen (deref p w) w).
      destruct (after_merge_new p chosen (deref p w) w) as [Hp1 Hnew].
      fold p1 in Hp1, Hnew.
      destruct (IH (vr - 1)%Z p1 w1) as (Hr & Hs & Hd & Hf & Hres); [lia|].
      pose proof (after_merge_dom p chosen (deref p w) w) as Hd1. fold w1 in Hd1.
      split; [exact Hr|]. split; [exact Hs|].
      split; [set_solver|].
      split.
      { intros q Hq Hqd. rewrite Hf.
        - by apply after_merge_frame.
        - intros ->. done.
        - set_solver. }
      rewrite (after_merge_result p chosen (deref p w) w : deref p1 w1 = _) in Hres.
      change (rng w1) with (rng w) in Hres.
      change (drawn w1) with (S (drawn w)) in Hres.
      destruct (contract_n _ _ _ _) as [l'|].
      * destruct Hres as (p' & w' & Ho & Hl & Hdr & Hp').
        exists p', w'. split; [done|]. split; [done|]. split; [lia|].
        right. destruct Hp' as [-> | Hp']; [done | set_solver].
      * destruct Hres as (w' & Ho & Hdr). exists w'. split; [done | lia].
    + rewrite Hempty. simpl.
      do 4 (split; [done|]). exists w. split; [done | lia].
Qed.

(** * Properties of one contraction on the list *)

Lemma relabel_marked a b e : ends e = (a, b) → relabel a b e = (a, b, -1)%Z.
Proof. intros H. unfold relabel. by rewrite decide_True. Qed.

Lemma relabel_u_id a b e : ends e ≠ (a, b) → u_id (relabel a b e) = u_id e.
Proof.
  intros H. unfold relabel. rewrite decide_False by done.
  repeat case_decide; try done.
  - by destruct (a <? v2_of e)%Z.
  - by destruct (a <? v1_of e)%Z.
Qed.

(** An entry of the scanned list fails the final test exactly when the
    scan marked it, provided no identifier was [-1] to begin with. *)
Lemma relabel_kept a b e : kept e → kept (relabel a b e) ↔ ends e ≠ (a, b).
Proof.
  intros Hk. destruct (decide (ends e = (a, b))) as [He|He].
  - rewrite (relabel_marked _ _ _ He). unfold kept; simpl. naive_solver.
  - unfold kept. rewrite (relabel_u_id _ _ _ He). naive_solver.
Qed.

Lemma contract_survivors chosen l :
  contract chosen l
  = relabel (ordered chosen).1 (ordered chosen).2 <$> survivors chosen l.
Proof.
  unfold contract, survivors.
  destruct (ordered chosen) as [a b]; simpl.
  induction l as [|e l IH]; [done|].
  rewrite fmap_cons, !filter_cons, IH.
  destruct (decide (ends e = (a, b))) as [He|He].
  - rewrite (relabel_marked _ _ _ He).
    rewrite decide_False by (unfold kept; simpl; naive_solver).
    by rewrite decide_False by naive_solver.
  - destruct (decide (kept e)) as [Hk|Hk].
    + rewrite decide_True by by apply relabel_kept.
      by rewrite decide_True.
    + rewrite decide_False by (unfold kept in *; by rewrite relabel_u_id).
      by rewrite decide_False by naive_solver.
Qed.

Lemma contract_ids chosen l :
  u_id <$> contract chosen l = u_id <$> survivors chosen l.
Proof.
  rewrite contract_survivors, <- list_fmap_compose.
  apply Forall_fmap_ext, Forall_forall. intros e He. simpl.
  apply list_elem_of_filter in He as [[He _] _].
  apply relabel_u_id. by destruct (ordered chosen).
Qed.

Lemma contract_ids_sublist chosen l :
  (u_id <$> contract chosen l) `sublist_of` (u_id <$> l).
Proof. rewrite contract_ids. apply fmap_sublist, sublist_filter. Qed.

Lemma contract_length chosen l : length (contract chosen l) ≤ length l.
Proof. rewrite contract_survivors, length_fmap. apply length_filter. Qed.

(** ** Identifiers *)

(** With distinct identifiers, the identifier determines the edge. *)
Lemma NoDup_ids_inj l e e' :
  NoDup (ids l) → e ∈ l → e' ∈ l → u_id e = u_id e' → e = e'.
Proof.
  unfold ids. induction l as [|x l IH]; [by intros _ ?%elem_of_nil|].
  rewrite fmap_cons, NoDup_cons.
  intros [Hx Hl] [->|He]%elem_of_cons [->|He']%elem_of_cons Hid; auto.
  - destruct Hx. rewrite Hid. by apply list_elem_of_fmap_2.
  - destruct Hx. rewrite <- Hid. by apply list_elem_of_fmap_2.
Qed.

(** [final_edges_of] finds, for each identifier of the contracted list,
    the one original edge carrying it. *)
Lemma final_edges_subseteq original l : final_edges_of original l ⊆ original.
Proof. intros e [_ He]%list_elem_of_filter. done. Qed.

Lemma elem_of_final_edges original l e0 :
  e0 ∈ final_edges_of original l ↔ e0 ∈ original ∧ u_id e0 ∈ ids l.
Proof.
  unfold final_edges_of. rewrite list_elem_of_filter, elem_of_list_to_set.
  naive_solver.
Qed.

Lemma filter_ext_in {A} (P Q : A → Prop)
  `{!∀ x, Decision (P x), !∀ x, Decision (Q x)} (l : list A) :
  (∀ x, x ∈ l → P x ↔ Q x) → filter P l = filter Q l.
Proof.
  induction l as [|x l IH]; intros Hpq; [done|].
  rewrite !filter_cons, IH by (intros; apply Hpq; by right).
  destruct (decide (P x)) as [Hp|Hp], (decide (Q x)) as [Hq|Hq]; try done.
  - destruct Hq. apply Hpq; [by left | done].
  - destruct Hp. apply Hpq; [by left | done].
Qed.

Lemma filter_elem_of_sublist (l k : list Z) :
  NoDup k → l `sublist_of` k → filter (λ i, i ∈ l) k = l.
Proof.
  intros Hk Hsub. induction Hsub as [|x l k Hsub IH|x l k Hsub IH].
  - done.
  - apply NoDup_cons in Hk as [Hx Hk].
    rewrite filter_cons_True by by left. f_equal.
    transitivity (filter (λ i, i ∈ l) k); [|by apply IH].
    apply filter_ext_in. intros y Hy. rewrite elem_of_cons.
    split; [|by right]. intros [->|]; [by destruct Hx | done].
  - apply NoDup_cons in Hk as [Hx Hk].
    rewrite filter_cons_False; [by apply IH|].
    intros Hl. destruct Hx. by eapply elem_of_sublist.
Qed.

Lemma ids_filter (P : Z → Prop) `{!∀ i, Decision (P i)} (l : list edge) :
  ids (filter (λ e, P (u_id e)) l) = filter P (ids l).
Proof.
  unfold ids. induction l as [|e l IH]; [done|].
  rewrite fmap_cons, !filter_cons.
  destruct (decide (P (u_id e))); by rewrite ?fmap_cons, IH.
Qed.

Lemma final_edges_ids original l :
  NoDup (ids original) → ids l `sublist_of` ids original →
  ids (final_edges_of original l) = ids l.
Proof.
  intros Hnd Hsub. unfold final_edges_of. cbv zeta.
  transitivity (filter (λ i, i ∈ ids l) (ids original));
    [|by apply filter_elem_of_sublist].
  etransitivity;
    [exact (ids_filter (λ i, i ∈ (list_to_set (u_id <$> l) : gset Z)) original)|].
  apply list_filter_iff. intros i. apply elem_of_list_to_set.
Qed.

Lemma final_edges_length original l :
  NoDup (ids original) → ids l `sublist_of` ids original →
  length (final_edges_of original l) = length l.
Proof.
  intros Hnd Hsub.
  rewrite <- (length_fmap u_id (final_edges_of original l)).
  fold (ids (final_edges_of original l)).
  rewrite final_edges_ids by done. apply length_fmap.
Qed.

(** ** The loader numbers the edges 0, 1, 2, ... *)

Lemma add_pair_numbered v1 st v2 :
  well_numbered st → well_numbered (add_pair v1 st v2).
Proof.
  intros [Hu Hi]. unfold add_pair. case_decide; [done|].
  split; simpl.
  - rewrite length_app. simpl. lia.
  - unfold ids in *. rewrite fmap_app, length_app, Hi. simpl.
    rewrite Nat.add_1_r, seq_S, fmap_app. simpl. by rewrite Hu.
Qed.

Lemma read_line_numbered st ln st' :
  well_numbered st → read_line st ln = inr st' → well_numbered st'.
Proof.
  destruct ln as [|[|v1 rest]]; simpl; intros Hst Heq; simplify_eq; [done|].
  revert st Hst. induction rest as [|v2 rest IH]; intros st Hst; [done|].
  simpl. by apply IH, add_pair_numbered.
Qed.

Lemma read_lines_numbered f : ∀ st st',
  well_numbered st → read_lines st f = inr st' → well_numbered st'.
Proof.
  induction f as [|ln f IH]; simpl; intros st st' Hst Heq; [by simplify_eq|].
  destruct (read_line st ln) as [|st1] eqn:Hln; [done|].
  eapply IH; [|done]. by eapply read_line_numbered.
Qed.

Lemma loaded_ids f st :
  read_lines (Loader 0 [] ∅) f = inr st →
  ids (edges st) = Z.of_nat <$> seq 0 (length (edges st)).
Proof. intros H. by eapply (read_lines_numbered f (Loader 0 [] ∅)). Qed.

Lemma seq_ids_NoDup n : NoDup (Z.of_nat <$> seq 0 n).
Proof. apply NoDup_fmap_2; [apply _ | apply NoDup_seq]. Qed.

Lemma seq_ids_nonneg n : Forall (λ i, 0 ≤ i)%Z (Z.of_nat <$> seq 0 n).
Proof. apply Forall_fmap, Forall_true. intros i. simpl. lia. Qed.

(** What [create_edges_list] returns. *)
Lemma create_edges_list_ok f w po w1 :
  create_edges_list f w = Ok po w1 →
  (po ∉ dom (heap w)) ∧
  heap w1 = <[po := deref po w1]> (heap w) ∧
  rng w1 = rng w ∧ drawn w1 = drawn w ∧ stdout w1 = stdout w ∧
  ∃ st, read_lines (Loader 0 [] ∅) f = inr st ∧ deref po w1 = edges st.
Proof.
  unfold create_edges_list.
  destruct (read_lines _ f) as [e|st] eqn:Hf; [done|].
  unfold alloc. intros Heq. injection Heq as <- <-. simpl.
  split; [apply is_fresh|].
  unfold deref; simpl. rewrite lookup_total_insert_eq. eauto 10.
Qed.

(** With one vertex the product is [0 * math.log(1, 2)], which is 0
    whatever the platform answers. *)
Lemma number_of_runs_of_1 w : number_of_runs_of 1 w = Ok 0%Z w.
Proof.
  rewrite number_of_runs_of_unfold. change (1 <=? 0)%Z with false. cbv iota.
  destruct (float_log w 1 2) as [m e]. f_equal.
  change (float_of_int (1 * (1 - 1))) with (Float 0 0).
  unfold float_mul. simpl Fnum. simpl Fexp. rewrite Z.mul_0_l.
  change (round (Float 0 (0 + e))) with (Float 0 (0 + e)).
  unfold int_of_float. simpl Fnum. simpl Fexp.
  destruct (0 <=? 0 + e)%Z eqn:He; [lia|].
  apply Z.quot_0_l, Z.pow_nonzero; lia.
Qed.

Lemma create_edges_list_float_log f w po w1 :
  create_edges_list f w = Ok po w1 → float_log w1 = float_log w.
Proof.
  unfold create_edges_list.
  destruct (read_lines _ f) as [e|st]; [done|].
  unfold alloc. intros Heq. by injection Heq as <- <-.
Qed.

(** ** Any number of contractions *)

Lemma merge_ok_inv p w p1 w1 :
  merge_random_edge p w = Ok p1 w1 →
  ∃ chosen, deref p w !! pick w (deref p w) = Some chosen ∧
            p1 = fresh (dom (scanned p chosen (deref p w) w)) ∧
            w1 = after_merge p chosen (deref p w) w.
Proof.
  intros H. destruct (merge_random_edge_cases p w) as [chosen Hc|]; [|done].
  injection H as <- <-. eauto.
Qed.

Lemma contractions_ids p w p' w' :
  contractions p w p' w' → ids (deref p' w') `sublist_of` ids (deref p w).
Proof.
  induction 1 as [|p w p1 w1 p2 w2 Hm _ IH]; [done|].
  apply merge_ok_inv in Hm as (chosen & _ & -> & ->).
  rewrite after_merge_result in IH. etransitivity; [exact IH|].
  apply contract_ids_sublist.
Qed.

(** The contractions touch only the list they start from and the lists
    they create. *)
Lemma contractions_frame p w p' w' :
  contractions p w p' w' →
  (p' = p ∨ p' ∉ dom (heap w)) ∧
  dom (heap w) ⊆ dom (heap w') ∧
  ∀ q, q ≠ p → q ∈ dom (heap w) → heap w' !! q = heap w !! q.
Proof.
  induction 1 as [|p w p1 w1 p2 w2 Hm _ (Hp & Hd & Hf)]; [by auto|].
  apply merge_ok_inv in Hm as (chosen & _ & -> & ->).
  destruct (after_merge_new p chosen (deref p w) w) as [Hne Hnew].
  pose proof (after_merge_dom p chosen (deref p w) w) as Hd1.
  split; [|split].
  - right. destruct Hp as [-> | Hp]; [done | set_solver].
  - set_solver.
  - intros q Hq Hqd. rewrite Hf.
    + by apply after_merge_frame.
    + intros ->. done.
    + set_solver.
Qed.

(** ** Agreement with the contraction the design describes *)

Lemma relabel_is_contractOnce a b e :
  (a < b)%Z → (v1_of e < v2_of e)%Z → ends e ≠ (a, b) →
  relabel a b e = contractOnce_relabel a b e ∧
  ¬ self_loop (contractOnce_relabel a b e).
Proof.
  destruct e as [[x y] i].
  unfold relabel, contractOnce_relabel, self_loop, redirect, ends, v1_of, v2_of, u_id.
  simpl. intros Hab Hxy Hne.
  assert (Hne' : x ≠ a ∨ y ≠ b)
    by (destruct (decide (x = a)), (decide (y = b)); subst; auto).
  rewrite decide_False by done.
  repeat case_decide; subst;
    repeat match goal with
           | |- context [(?u <? ?v)%Z] => destruct (Z.ltb_spec u v)
           end;
    try (exfalso; lia);
    (split; [repeat f_equal; lia | lia]).
Qed.

Lemma marked_is_self_loop a b e :
  ends e = (a, b) → self_loop (contractOnce_relabel a b e).
Proof.
  destruct e as [[x y] i]. unfold ends, v1_of, v2_of. simpl. intros [= -> ->].
  unfold contractOnce_relabel, self_loop, redirect, v1_of, v2_of. simpl.
  repeat case_decide; lia.
Qed.

Lemma contract_is_contractOnce a b store :
  (a < b)%Z → normalized store → Forall kept store →
  filter kept (relabel a b <$> store) = contractOnce_spec a b store.
Proof.
  intros Hab Hn Hk. unfold contractOnce_spec.
  induction store as [|e store IH]; [done|].
  apply Forall_cons in Hn as [He Hn]. apply Forall_cons in Hk as [Hke Hk].
  rewrite !fmap_cons, !filter_cons, IH by done.
  destruct (decide (ends e = (a, b))) as [Hm|Hm].
  - rewrite (relabel_marked _ _ _ Hm).
    rewrite decide_False by (unfold kept; simpl; naive_solver).
    rewrite decide_False; [done|].
    intros Hs. apply Hs. by apply marked_is_self_loop.
  - destruct (relabel_is_contractOnce a b e Hab He Hm) as [Heq Hns].
    rewrite decide_True by by apply relabel_kept.
    rewrite decide_True by done. by rewrite Heq.
Qed.

(** ** The labels in a list *)

Lemma elem_of_vertex_fold x l : ∀ s : gset Z,
  x ∈ foldl (λ s e, {[v2_of e]} ∪ ({[v1_of e]} ∪ s)) s l
  ↔ x ∈ s ∨ ∃ e, e ∈ l ∧ (x = v1_of e ∨ x = v2_of e).
Proof.
  induction l as [|e0 l IH]; intros s; simpl.
  - split; [by left|]. intros [?|(e & He & _)]; [done|]. by apply elem_of_nil in He.
  - rewrite IH, !elem_of_union, !elem_of_singleton. split.
    + intros [[?|[?|?]]|(e & He & Hx)]; eauto 6 using list_elem_of_here.
      right. exists e. split; [by right | done].
    + intros [?|(e & [->|He]%elem_of_cons & Hx)]; [tauto | tauto | eauto].
Qed.

Lemma elem_of_vertex_set x l :
  x ∈ vertex_set l ↔ ∃ e, e ∈ l ∧ (x = v1_of e ∨ x = v2_of e).
Proof.
  unfold vertex_set. rewrite elem_of_vertex_fold. set_solver.
Qed.

Lemma ordered_normalized e : (v1_of e < v2_of e)%Z → ordered e = ends e.
Proof. intros H. unfold ordered. by rewrite (proj2 (Z.ltb_lt _ _) H). Qed.

Lemma relabel_endpoints a b e x :
  (a < b)%Z → (v1_of e < v2_of e)%Z → ends e ≠ (a, b) →
  (x = v1_of (relabel a b e) ∨ x = v2_of (relabel a b e))
  ↔ (x = redirect a b (v1_of e) ∨ x = redirect a b (v2_of e)).
Proof.
  intros Hab He Hne.
  destruct (relabel_is_contractOnce a b e Hab He Hne) as [-> _].
  unfold contractOnce_relabel.
  generalize (redirect a b (v1_of e)) (redirect a b (v2_of e)).
  intros x1 y1. unfold v1_of, v2_of. simpl. lia.
Qed.

Lemma elem_of_vertex_set_contract chosen l a b x :
  normalized l → Forall kept l → ordered chosen = (a, b) → (a < b)%Z →
  x ∈ vertex_set (contract chosen l)
  ↔ ∃ e, e ∈ l ∧ ends e ≠ (a, b) ∧
         (x = redirect a b (v1_of e) ∨ x = redirect a b (v2_of e)).
Proof.
  intros Hn Hk Ho Hab. rewrite elem_of_vertex_set, contract_survivors, Ho. simpl.
  unfold normalized in Hn. rewrite Forall_forall in Hn, Hk.
  split.
  - intros (e' & (e & -> & He)%list_elem_of_fmap & Hx).
    unfold survivors in He. rewrite Ho in He.
    apply list_elem_of_filter in He as [[Hne _] He].
    exists e. split; [done|]. split; [done|].
    by apply relabel_endpoints; auto.
  - intros (e & He & Hne & Hx). exists (relabel a b e). split.
    + apply list_elem_of_fmap_2. unfold survivors. rewrite Ho.
      apply list_elem_of_filter. auto.
    + by apply relabel_endpoints; auto.
Qed.

(** The labels one contraction leaves: [b] goes; [a] stays when some
    other edge touches the merged vertex, and goes too when none does. *)
Lemma vertex_set_contract chosen l a b :
  normalized l → Forall kept l → chosen ∈ l → ends chosen = (a, b) →
  vertex_set (contract chosen l)
  = if decide (Exists (touches a b) l)
    then vertex_set l ∖ {[b]}
    else vertex_set l ∖ {[a; b]}.
Proof.
  intros Hn Hk Hc He.
  assert (Hab : (a < b)%Z).
  { unfold normalized in Hn. rewrite Forall_forall in Hn.
    specialize (Hn _ Hc). unfold ends in He. by simplify_eq. }
  assert (Ho : ordered chosen = (a, b)).
  { rewrite ordered_normalized; [done|]. unfold ends in He. simplify_eq. done. }
  assert (Ha : v1_of chosen = a ∧ v2_of chosen = b)
    by (unfold ends in He; by simplify_eq).
  apply set_eq. intros x.
  rewrite (elem_of_vertex_set_contract _ _ a b) by done.
  case_decide as Ht.
  - apply Exists_exists in Ht as (t & Ht & Hne & Hends).
    rewrite elem_of_difference, elem_of_singleton, elem_of_vertex_set. split.
    + intros (e & Hel & _ & Hx).
      assert (Hcases : x = a ∨ (x = v1_of e ∧ x ≠ b) ∨ (x = v2_of e ∧ x ≠ b))
        by (unfold redirect in Hx; repeat case_decide; destruct Hx; subst; auto).
      destruct Hcases as [-> | [[Hxe ?] | [Hxe ?]]].
      * split; [|lia]. exists chosen. split; [done|]. left. by destruct Ha.
      * split; [|done]. exists e. auto.
      * split; [|done]. exists e. auto.
    + intros [(e & Hel & Hx) Hxb].
      destruct (decide (ends e = (a, b))) as [Heab|Heab].
      * assert (x = a) as ->
          by (unfold ends in Heab; simplify_eq; destruct Hx; congruence).
        exists t. split; [done|]. split; [done|]. unfold redirect.
        repeat case_decide; lia.
      * exists e. split; [done|]. split; [done|]. unfold redirect.
        repeat case_decide; destruct Hx; subst; tauto.
  - rewrite <- Forall_Exists_neg, Forall_forall in Ht.
    rewrite elem_of_difference, elem_of_union, !elem_of_singleton,
      elem_of_vertex_set.
    split.
    + intros (e & Hel & Hne & Hx).
      assert (Hno : ¬ (v1_of e = a ∨ v2_of e = a ∨ v1_of e = b ∨ v2_of e = b))
        by (intros ?; by apply (Ht e Hel)).
      unfold redirect in Hx. repeat case_decide; try tauto.
      split; [exists e; tauto | destruct Hx; subst; tauto].
    + intros [(e & Hel & Hx) Hxab].
      assert (Hne : ends e ≠ (a, b)).
      { intros Heab. unfold ends in Heab. simplify_eq. destruct Hx; tauto. }
      exists e. split; [done|]. split; [done|].
      assert (Hno : ¬ (v1_of e = a ∨ v2_of e = a ∨ v1_of e = b ∨ v2_of e = b))
        by (intros ?; by apply (Ht e Hel)).
      unfold redirect. repeat case_decide; tauto.
Qed.

(** * One trial *)

Arguments alloc : simpl never.

Lemma alloc_spec l w :
  ∃ p', alloc l w = Ok p' (set_heap (<[p' := l]> (heap w)) w) ∧ p' ∉ dom (heap w).
Proof. eexists. split; [reflexivity | apply is_fresh]. Qed.

Lemma preserves_refl w : preserves w w.
Proof. by repeat split. Qed.

Lemma preserves_trans w1 w2 w3 : preserves w1 w2 → preserves w2 w3 → preserves w1 w3.
Proof.
  intros (Hr1 & Hd1 & Hf1) (Hr2 & Hd2 & Hf2). split; [congruence|].
  split; [set_solver|]. intros q Hq. rewrite Hf2, Hf1; [done | done | set_solver].
Qed.

Lemma preserves_deref w w' q : preserves w w' → q ∈ dom (heap w) → deref q w' = deref q w.
Proof.
  intros (_ & _ & Hf) Hq. unfold deref. rewrite !lookup_total_alt. by rewrite Hf.
Qed.

Lemma preserves_alloc p l w : p ∉ dom (heap w) → preserves w (set_heap (<[p := l]> (heap w)) w).
Proof.
  intros Hp. split; [done|]. simpl. split; [rewrite dom_insert_L; set_solver|].
  intros q Hq. apply lookup_insert_ne. intros ->. done.
Qed.

(** [min_cut] on a live list object: it returns the original edges that
    survive [vertices_remaining - 2] contractions, one draw each, or
    raises [IndexError] when one of these contractions finds its list
    empty; the iteration budget of the model is never exhausted. *)
Lemma min_cut_spec p n w :
  p ∈ dom (heap w) →
  let o := min_cut p n w in
  preserves w (final o) ∧ stdout (final o) = stdout w ∧
  match contract_n (rng w) (drawn w) (Z.to_nat (n - 2)) (deref p w) with
  | Some l' =>
      ∃ p' w', o = Ok p' w' ∧ deref p' w' = final_edges_of (deref p w) l' ∧
               drawn w' = drawn w + Z.to_nat (n - 2) ∧ p' ∉ dom (heap w)
  | None =>
      ∃ w', o = Raise IndexError w' ∧ drawn w' < drawn w + Z.to_nat (n - 2)
  end.
Proof.
  intros Hp. unfold min_cut, deepcopy.
  rewrite !bind_unfold. simpl.
  set (c := fresh (dom (heap w))).
  assert (Hc : c ∉ dom (heap w)) by apply is_fresh. clearbody c.
  set (w0 := set_heap (<[c := deref p w]> (heap w)) w).
  assert (Hw0 : preserves w w0) by by apply preserves_alloc.
  destruct (contract_loop_spec (Z.to_nat n) n c w0) as (Hr & Hs & Hd & Hf & Hres);
    [lia|].
  assert (Hpres : preserves w (final (contract_loop (Z.to_nat n) c n w0))).
  { split; [by rewrite Hr|]. destruct Hw0 as (_ & Hd0 & Hf0).
    split; [set_solver|]. intros q Hq. rewrite Hf, Hf0; [done | done | | set_solver].
    intros ->. done. }
  replace (deref c w0) with (deref p w) in Hres
    by (symmetry; apply deref_set_heap_eq).
  change (rng w0) with (rng w) in Hres. change (drawn w0) with (drawn w) in Hres.
  change (stdout w0) with (stdout w) in Hs.
  destruct (contract_n _ _ _ _) as [l'|].
  - destruct Hres as (p1 & w1 & Ho & Hl & Hdr & _).
    rewrite Ho in Hpres, Hs. simpl in Hpres, Hs.
    rewrite (bind_ok _ _ _ _ _ Ho), !bind_unfold. simpl.
    set (p' := fresh (dom (heap w1))).
    assert (Hp' : p' ∉ dom (heap w1)) by apply is_fresh.
    rewrite (preserves_deref w w1 p Hpres Hp), Hl.
    split; [|split; [done|]].
    + eapply preserves_trans; [exact Hpres | by apply preserves_alloc].
    + exists p', (set_heap (<[p' := final_edges_of (deref p w) l']> (heap w1)) w1).
      split.
      { rewrite bind_unfold. simpl.
        by rewrite (preserves_deref w w1 p Hpres Hp). }
      split; [apply deref_set_heap_eq|]. split; [done|].
      destruct Hpres as (_ & Hd1 & _). set_solver.
  - destruct Hres as (w1 & Ho & Hdr). rewrite Ho in Hpres, Hs.
    rewrite (bind_raise _ _ _ _ _ Ho).
    simpl in *. split; [done|]. split; [done|]. eauto.
Qed.

(** One iteration of the trial loop: the best pair changes only when the
    new cut is strictly smaller, and one progress line is printed. *)
Lemma trial_spec p n runs best k w :
  p ∈ dom (heap w) →
  let o := trial p n runs best k w in
  preserves w (final o) ∧
  match contract_n (rng w) (drawn w) (Z.to_nat (n - 2)) (deref p w) with
  | Some l' =>
      ∃ p' w',
        let size := Z.of_nat (length (final_edges_of (deref p w) l')) in
        let best' := if num_lt size best.1 then (Num size, p') else best in
        o = Ok best' w' ∧
        deref p' w' = final_edges_of (deref p w) l' ∧
        (p' ∉ dom (heap w)) ∧
        drawn w' = drawn w + Z.to_nat (n - 2) ∧
        stdout w' = stdout w ++ [Progress k runs best'.1]
  | None => ∃ w', o = Raise IndexError w' ∧ stdout w' = stdout w
  end.
Proof.
  intros Hp. unfold trial. destruct best as [smaller edges_of_min_cut].
  destruct (min_cut_spec p n w Hp) as (Hpres & Hs & Hres).
  destruct (contract_n _ _ _ _) as [l'|].
  - destruct Hres as (p' & w' & Ho & Hl & Hdr & Hp').
    rewrite Ho in Hpres, Hs. simpl in Hpres, Hs.
    cbv zeta. rewrite (bind_ok _ _ _ _ _ Ho), bind_unfold. simpl.
    rewrite Hl. split.
    + destruct Hpres as (Hr & Hd & Hf). by repeat split.
    + exists p', (World (heap w') (rng w') (drawn w')
                   (stdout w' ++ [Progress k runs
                      (if num_lt (Z.of_nat (length (final_edges_of (deref p w) l')))
                                 smaller
                       then (Num (Z.of_nat (length (final_edges_of (deref p w) l'))), p')
                       else (smaller, edges_of_min_cut)).1])
                   (float_log w')).
      split; [done|]. split; [done|]. split; [done|]. split; [done|].
      simpl. by rewrite Hs.
  - destruct Hres as (w' & Ho & _). rewrite Ho in Hpres, Hs.
    cbv zeta. rewrite (bind_raise _ _ _ _ _ Ho). simpl in *.
    split; [done|]. eauto.
Qed.

Lemma trial_preserves p n runs best k w :
  p ∈ dom (heap w) → preserves w (final (trial p n runs best k w)).
Proof. intros Hp. by destruct (trial_spec p n runs best k w Hp). Qed.

(** Whatever the trial loop does, the list objects that existed before
    it are as they were. *)
Lemma trials_preserves p n runs ks : ∀ best w,
  p ∈ dom (heap w) → preserves w (final (trials p n runs best ks w)).
Proof.
  induction ks as [|k ks IH]; intros best w Hp; simpl.
  - apply preserves_refl.
  - rewrite bind_unfold.
    pose proof (trial_preserves p n runs best k w Hp) as Ht.
    destruct (trial p n runs best k w) as [best' w'|e w']; simpl in *; [|done].
    eapply preserves_trans; [exact Ht|]. apply IH.
    destruct Ht as (_ & Hd & _). set_solver.
Qed.

(** A trial loop that returns has printed one progress line per element
    of its range, and consumed [n - 2] draws for each. *)
Lemma trials_returns p n runs ks : ∀ best w best' w',
  p ∈ dom (heap w) →
  trials p n runs best ks w = Ok best' w' →
  drawn w' = drawn w + length ks * Z.to_nat (n - 2) ∧
  ∃ out, stdout w' = stdout w ++ out ∧ length out = length ks ∧
         Forall (is_progress runs) out.
Proof.
  induction ks as [|k ks IH]; intros best w best' w' Hp; simpl.
  - intros [= <- <-]. split; [lia|]. exists []. by rewrite app_nil_r.
  - rewrite bind_unfold.
    destruct (trial_spec p n runs best k w Hp) as (Hpres & Hres).
    destruct (contract_n _ _ _ _) as [l'|].
    + destruct Hres as (p1 & w1 & Ho & _ & _ & Hdr & Hout). cbv zeta in *.
      rewrite Ho in Hpres |- *. simpl in Hpres. intros Hks.
      apply IH in Hks as (Hdr' & out & Hout' & Hlen & Hall);
        [|destruct Hpres as (_ & Hd & _); set_solver].
      split; [lia|].
      eexists (_ :: out). rewrite Hout', Hout, <- app_assoc. simpl.
      split; [done|]. split; [by rewrite Hlen|].
      constructor; [by eexists _, _ | done].
    + destruct Hres as (w1 & -> & _). done.
Qed.

(** * The claims *)

(** ** Contraction *)

(** C2 (as stated, refuted). The rows [2 2 1] and [1 2 3] load a store
    with a self-loop at 2.  When the edge [(1, 2)] is sampled there,
    [merge_random_edge] rewrites the self-loop to [(1, 2, 0)] and keeps
    it (only one of its endpoints is relabeled), while [contractOnce]
    relabels both, finds a self-loop and removes it. *)
Lemma merge_random_edge_keeps_relabeled_loop :
  read_lines (Loader 0 [] ∅) looped_file
  = inr (Loader 3 looped {[(1, 3); (1, 2); (2, 2)]}%Z) ∧
  Forall kept looped ∧
  deref 0 (drawing 1 looped) !! pick (drawing 1 looped) (deref 0 (drawing 1 looped))
  = Some (1, 2, 1)%Z ∧
  ordered (1, 2, 1)%Z = (1, 2)%Z ∧
  (∃ p' w', merge_random_edge 0 (drawing 1 looped) = Ok p' w' ∧
            deref p' w' = [(1, 2, 0); (1, 3, 2)]%Z) ∧
  contractOnce_spec 1 2 (deref 0 (drawing 1 looped)) = [(1, 3, 2)]%Z.
Proof.
  split; [by vm_compute|].
  split; [repeat constructor; discriminate|].
  split; [reflexivity|]. split; [reflexivity|]. split; [|reflexivity].
  exists (returned (merge_random_edge 0 (drawing 1 looped))),
         (final (merge_random_edge 0 (drawing 1 looped))).
  split; by vm_compute.
Qed.

(** C2 (amended). On a store that satisfies the data model (smaller endpoint first,
    no identity equal to the mark -1), [merge_random_edge] returns the
    store that [contractOnce] describes for the sampled pair [a < b]:
    endpoints equal to [b] relabeled to [a] and put back in order with the
    identity untouched, the edges that became self-loops removed, every
    other edge, parallel ones included, kept as it was. *)
Theorem merge_random_edge_is_contractOnce p w chosen a b :
  normalized (deref p w) → Forall kept (deref p w) →
  deref p w !! pick w (deref p w) = Some chosen →
  ordered chosen = (a, b) →
  (a < b)%Z ∧
  ∃ p' w', merge_random_edge p w = Ok p' w' ∧
           deref p' w' = contractOnce_spec a b (deref p w).
Proof.
  intros Hn Hk Hc Ho.
  assert (Hab : (a < b)%Z).
  { unfold normalized in Hn. rewrite Forall_forall in Hn.
    assert (Hlt : (v1_of chosen < v2_of chosen)%Z)
      by (apply Hn; by eapply list_elem_of_lookup_2).
    rewrite (ordered_normalized _ Hlt) in Ho. unfold ends in Ho. by simplify_eq. }
  split; [done|].
  destruct (merge_random_edge_cases p w) as [chosen' Hc'|Hempty].
  - rewrite Hc in Hc'. injection Hc' as <-.
    eexists _, _. split; [reflexivity|].
    rewrite after_merge_result. unfold contract. rewrite Ho. simpl.
    by apply contract_is_contractOnce.
  - by rewrite Hempty in Hc.
Qed.

Lemma merge_random_edge_is_contractOnce_witness :
  normalized (deref 0 (holding triangle)) ∧
  Forall kept (deref 0 (holding triangle)) ∧
  deref 0 (holding triangle) !! pick (holding triangle) (deref 0 (holding triangle))
    = Some (1, 2, 0)%Z ∧
  ordered (1, 2, 0)%Z = (1, 2)%Z ∧
  ((1 < 2)%Z ∧
   ∃ p' w', merge_random_edge 0 (holding triangle) = Ok p' w' ∧
            deref p' w' = contractOnce_spec 1 2 (deref 0 (holding triangle))).
Proof.
  assert (Hn : normalized (deref 0 (holding triangle)))
    by (vm_compute; repeat constructor).
  assert (Hk : Forall kept (deref 0 (holding triangle)))
    by (vm_compute; repeat constructor; discriminate).
  assert (Hc : deref 0 (holding triangle)
               !! pick (holding triangle) (deref 0 (holding triangle))
               = Some (1, 2, 0)%Z) by reflexivity.
  assert (Ho : ordered (1, 2, 0)%Z = (1, 2)%Z) by reflexivity.
  split; [exact Hn|]. split; [exact Hk|]. split; [exact Hc|]. split; [exact Ho|].
  exact (merge_random_edge_is_contractOnce 0 (holding triangle) (1, 2, 0)%Z 1 2
           Hn Hk Hc Ho).
Defined.

Example contractOnce_triangle :
  contractOnce_spec 1 2 triangle = [(1, 3, 1); (1, 3, 2)]%Z.
Proof. reflexivity. Qed.

(** The sampled edge never survives its own contraction. *)
Lemma contract_shorter chosen l :
  (v1_of chosen < v2_of chosen)%Z → chosen ∈ l →
  length (contract chosen l) < length l.
Proof.
  intros Hlt Hc. rewrite contract_survivors, length_fmap. unfold survivors.
  apply (length_filter_lt _ _ chosen); [done|].
  intros [Hne _]. apply Hne. by rewrite ordered_normalized.
Qed.

Lemma count_vertices_eq p w :
  count_vertices p w = Ok (Z.of_nat (size (vertex_set (deref p w)))) w.
Proof. reflexivity. Qed.

(** C3 (as stated, refuted). On the store of two disjoint edges, which
    is valid, contracting the first edge leaves only the second: the
    number of distinct labels goes from 4 to 2, not to 3. *)
Lemma contraction_can_remove_two_labels :
  normalized two_islands ∧ Forall kept two_islands ∧
  deref 0 (holding two_islands) = two_islands ∧
  count_vertices 0 (holding two_islands) = Ok 4%Z (holding two_islands) ∧
  ∃ p' w', merge_random_edge 0 (holding two_islands) = Ok p' w' ∧
           deref p' w' = [(3, 4, 1)%Z] ∧
           count_vertices p' w' = Ok 2%Z w' ∧
           (2 ≠ 4 - 1)%Z.
Proof.
  split; [repeat constructor|].
  split; [repeat constructor; discriminate|].
  split; [reflexivity|]. split; [reflexivity|].
  exists 1, (final (merge_random_edge 0 (holding two_islands))).
  split; [by vm_compute|]. split; [by vm_compute|].
  split; [by vm_compute|]. lia.
Qed.

(** C3 (amended). On a valid store, one call of [merge_random_edge]
    removes at least one edge, and lowers the number of distinct endpoint
    labels by exactly 1 when some edge other than the copies of the
    sampled pair touches one of the two merged vertices, and by exactly 2
    when none does. *)
Theorem merge_random_edge_counts p w chosen a b :
  normalized (deref p w) → Forall kept (deref p w) →
  deref p w !! pick w (deref p w) = Some chosen →
  ends chosen = (a, b) →
  ∃ p' w' n,
    merge_random_edge p w = Ok p' w' ∧
    length (deref p' w') < length (deref p w) ∧
    count_vertices p w = Ok n w ∧
    count_vertices p' w'
    = Ok (if decide (Exists (touches a b) (deref p w))
          then n - 1 else n - 2)%Z w'.
Proof.
  intros Hn Hk Hc He.
  assert (Hin : chosen ∈ deref p w) by by eapply list_elem_of_lookup_2.
  assert (Hab : (a < b)%Z).
  { unfold normalized in Hn. rewrite Forall_forall in Hn.
    specialize (Hn _ Hin). unfold ends in He. by simplify_eq. }
  assert (Ha : a ∈ vertex_set (deref p w) ∧ b ∈ vertex_set (deref p w)).
  { rewrite !elem_of_vertex_set. unfold ends in He. simplify_eq.
    split; exists chosen; auto. }
  destruct (merge_random_edge_cases p w) as [chosen' Hc'|Hempty];
    [|by rewrite Hempty in Hc].
  rewrite Hc in Hc'. injection Hc' as <-.
  eexists _, _, _. split; [reflexivity|].
  rewrite after_merge_result.
  split; [apply contract_shorter; [|done]; unfold ends in He; simplify_eq; lia|].
  split; [apply count_vertices_eq|].
  rewrite count_vertices_eq, after_merge_result.
  rewrite (vertex_set_contract chosen (deref p w) a b) by done.
  f_equal. case_decide.
  - rewrite size_difference by set_solver. rewrite size_singleton.
    assert (Hsz : size ({[b]} : gset Z) ≤ size (vertex_set (deref p w)))
      by (apply subseteq_size; set_solver).
    rewrite size_singleton in Hsz. lia.
  - assert (Hne : a ≠ b) by lia.
    rewrite size_difference by set_solver.
    assert (Hsz : size ({[a; b]} : gset Z) ≤ size (vertex_set (deref p w)))
      by (apply subseteq_size; set_solver).
    rewrite size_union, !size_singleton in Hsz |- * by set_solver. lia.
Qed.

Lemma merge_random_edge_counts_witness :
  normalized (deref 0 (holding triangle)) ∧
  Forall kept (deref 0 (holding triangle)) ∧
  deref 0 (holding triangle) !! pick (holding triangle) (deref 0 (holding triangle))
    = Some (1, 2, 0)%Z ∧
  ends (1, 2, 0)%Z = (1, 2)%Z ∧
  ∃ p' w' n,
    merge_random_edge 0 (holding triangle) = Ok p' w' ∧
    length (deref p' w') < length (deref 0 (holding triangle)) ∧
    count_vertices 0 (holding triangle) = Ok n (holding triangle) ∧
    count_vertices p' w'
    = Ok (if decide (Exists (touches 1 2) (deref 0%nat (holding triangle)))
          then n - 1 else n - 2)%Z w'.
Proof.
  assert (Hn : normalized (deref 0 (holding triangle)))
    by (vm_compute; repeat constructor).
  assert (Hk : Forall kept (deref 0 (holding triangle)))
    by (vm_compute; repeat constructor; discriminate).
  assert (Hc : deref 0 (holding triangle)
               !! pick (holding triangle) (deref 0 (holding triangle))
               = Some (1, 2, 0)%Z) by reflexivity.
  assert (He : ends (1, 2, 0)%Z = (1, 2)%Z) by reflexivity.
  split; [exact Hn|]. split; [exact Hk|]. split; [exact Hc|]. split; [exact He|].
  exact (merge_random_edge_counts 0 (holding triangle) (1, 2, 0)%Z 1 2 Hn Hk Hc He).
Defined.

(** ** The trial *)

Lemma final_edges_of_single e : final_edges_of [e] [e] = [e].
Proof.
  unfold final_edges_of. cbv zeta. rewrite filter_cons, decide_True; [done|].
  simpl. set_solver.
Qed.

Lemma vertex_set_single e :
  v1_of e ≠ v2_of e → size (vertex_set [e]) = 2.
Proof.
  intros Hne.
  change (vertex_set [e]) with ({[v2_of e]} ∪ ({[v1_of e]} ∪ ∅) : gset Z).
  rewrite size_union, size_union, !size_singleton, size_empty by set_solver.
  done.
Qed.

(** The script on a file whose store is one edge between two vertices:
    two trials, no contraction, and the edge itself as the cut. *)
Lemma script_two_vertices file rnd st e :
  read_lines (Loader 0 [] ∅) file = inr st → edges st = [e] →
  v1_of e ≠ v2_of e →
  ∃ w', script file (initial rnd) = Ok (Num 1, [e]) w' ∧ drawn w' = 0.
Proof.
  intros Hread Hst Hne. unfold script, create_edges_list.
  rewrite Hread, Hst.
  destruct (alloc_spec [e] (initial rnd)) as (po & Hpo & Hfresh).
  rewrite (bind_ok _ _ _ _ _ Hpo).
  set (w1 := set_heap (<[po := [e]]> (heap (initial rnd))) (initial rnd)).
  destruct (alloc_spec [] w1) as (pe & Hpe & Hfresh1).
  rewrite (bind_ok _ _ _ _ _ Hpe).
  set (w2 := set_heap (<[pe := []]> (heap w1)) w1).
  assert (Hpo1 : po ∈ dom (heap w1)) by (simpl; rewrite dom_insert_L; set_solver).
  assert (Hpo2 : po ∈ dom (heap w2)) by (simpl; rewrite !dom_insert_L; set_solver).
  assert (Horig : deref po w2 = [e]).
  { unfold w2. rewrite deref_set_heap_ne by (intros ->; done).
    apply deref_set_heap_eq. }
  rewrite (bind_ok _ _ _ _ _ (count_vertices_eq po w2)), Horig.
  rewrite (vertex_set_single e Hne).
  assert (Hruns : number_of_runs_of (Z.of_nat 2) w2 = Ok 2%Z w2) by reflexivity.
  rewrite (bind_ok _ _ _ _ _ Hruns).
  change (range1 (Z.of_nat 2)) with [1; 2]%Z.
  cbn [trials].
  (* first trial *)
  destruct (trial_spec po (Z.of_nat 2) 2%Z (Inf, pe) 1%Z w2 Hpo2) as (Hpres1 & Hres1).
  change (Z.to_nat (Z.of_nat 2 - 2)) with 0 in Hres1. simpl contract_n in Hres1.
  destruct Hres1 as (p1 & w3 & Ho1 & Hcut1 & Hp1 & Hdr1 & _).
  rewrite Horig, final_edges_of_single in Ho1, Hcut1.
  assert (Ho1' : trial po (Z.of_nat 2) 2 (Inf, pe) 1 w2 = Ok (Num 1, p1) w3)
    by exact Ho1.
  clear Ho1. rewrite Ho1' in Hpres1. simpl in Hpres1.
  rewrite bind_unfold, (bind_ok _ _ _ _ _ Ho1').
  (* second trial *)
  assert (Hpo3 : po ∈ dom (heap w3)) by (destruct Hpres1 as (_ & Hd & _); set_solver).
  destruct (trial_spec po (Z.of_nat 2) 2%Z (Num 1, p1) 2%Z w3 Hpo3) as (Hpres2 & Hres2).
  change (Z.to_nat (Z.of_nat 2 - 2)) with 0 in Hres2. simpl contract_n in Hres2.
  destruct Hres2 as (p2 & w4 & Ho2 & _ & Hp2 & Hdr2 & _).
  rewrite (preserves_deref w2 w3 po Hpres1 Hpo2), Horig, final_edges_of_single in Ho2.
  assert (Ho2' : trial po (Z.of_nat 2) 2 (Num 1, p1) 2 w3 = Ok (Num 1, p1) w4)
    by exact Ho2.
  clear Ho2. rewrite Ho2' in Hpres2. simpl in Hpres2.
  rewrite (bind_ok _ _ _ _ _ Ho2').
  (* the summary *)
  assert (Hbest : deref p1 w4 = [e]).
  { rewrite <- Hcut1. apply preserves_deref; [done|].
    apply elem_of_dom. unfold deref in Hcut1. rewrite lookup_total_alt in Hcut1.
    destruct (heap w3 !! p1); [done | discriminate]. }
  simpl. rewrite !bind_unfold. simpl. rewrite Hbest.
  change (drawn w2) with 0 in Hdr1.
  eexists. split; [reflexivity|]. simpl. lia.
Qed.

(** C4 (as stated, refuted). On the store of three disjoint edges, passed
    with its vertex count 6, [min_cut] does not perform 6 - 2 = 4
    contractions: the store is empty after three, and the fourth call of
    [merge_random_edge] raises [IndexError]. *)
Lemma min_cut_three_islands_raises :
  deref 0 (holding three_islands) = three_islands ∧
  count_vertices 0 (holding three_islands) = Ok 6%Z (holding three_islands) ∧
  ∃ w', min_cut 0 6 (holding three_islands) = Raise IndexError w' ∧
        drawn w' = 3 ∧ 3 ≠ Z.to_nat (6 - 2).
Proof.
  split; [reflexivity|]. split; [reflexivity|].
  exists (final (min_cut 0 6 (holding three_islands))).
  split; [by vm_compute|]. split; [by vm_compute|]. simpl. lia.
Qed.

(** C4 (amended). [min_cut], called on the original list with vertex
    count [n], works on a copy and performs the contractions one after the
    other, one random draw each: when every one of the [n - 2]
    contractions finds an edge to sample it returns, having performed
    exactly [n - 2] of them, the original edges that survive them;
    otherwise it stops with [IndexError] at the first contraction that
    finds its list empty, having performed fewer.  In particular the
    script, on a file whose store is a single edge between two vertices,
    returns that edge, with cut size 1, without any contraction. *)
Theorem min_cut_contractions :
  (∀ p n w, p ∈ dom (heap w) →
     match min_cut p n w with
     | Ok p' w' =>
         drawn w' = drawn w + Z.to_nat (n - 2) ∧
         ∃ l', contract_n (rng w) (drawn w) (Z.to_nat (n - 2)) (deref p w) = Some l' ∧
               deref p' w' = final_edges_of (deref p w) l'
     | Raise e w' =>
         e = IndexError ∧ drawn w' < drawn w + Z.to_nat (n - 2) ∧
         contract_n (rng w) (drawn w) (Z.to_nat (n - 2)) (deref p w) = None
     end) ∧
  (∀ file rnd st e,
     read_lines (Loader 0 [] ∅) file = inr st → edges st = [e] →
     v1_of e ≠ v2_of e →
     ∃ w', script file (initial rnd) = Ok (Num 1, [e]) w' ∧ drawn w' = 0).
Proof.
  split; [|exact script_two_vertices].
  intros p n w Hp.
  destruct (min_cut_spec p n w Hp) as (_ & _ & Hres).
  destruct (contract_n _ _ _ _) as [l'|].
  - destruct Hres as (p' & w' & -> & Hl & Hdr & _). eauto.
  - destruct Hres as (w' & -> & Hdr). done.
Qed.

Lemma min_cut_contractions_witness :
  (0 ∈ dom (heap (holding triangle)) ∧
   match min_cut 0 3 (holding triangle) with
   | Ok p' w' =>
       drawn w' = 0 + Z.to_nat (3 - 2) ∧
       ∃ l', contract_n (λ _, 0) 0 (Z.to_nat (3 - 2)) triangle = Some l' ∧
             deref p' w' = final_edges_of triangle l'
   | Raise e w' =>
       e = IndexError ∧ drawn w' < 0 + Z.to_nat (3 - 2) ∧
       contract_n (λ _, 0) 0 (Z.to_nat (3 - 2)) triangle = None
   end) ∧
  (read_lines (Loader 0 [] ∅) [Tokens [1; 2]%Z; Tokens [2; 1]%Z]
   = inr (Loader 1 [(1, 2, 0)%Z] {[(1, 2)%Z]}) ∧
   (1 ≠ 2)%Z ∧
   ∃ w', script [Tokens [1; 2]%Z; Tokens [2; 1]%Z] (initial (λ _, 0))
         = Ok (Num 1, [(1, 2, 0)%Z]) w' ∧ drawn w' = 0).
Proof.
  assert (Hp : 0 ∈ dom (heap (holding triangle)))
    by (apply elem_of_dom; by eexists).
  assert (Hread : read_lines (Loader 0 [] ∅) [Tokens [1; 2]%Z; Tokens [2; 1]%Z]
                  = inr (Loader 1 [(1, 2, 0)%Z] {[(1, 2)%Z]}))
    by (vm_compute; reflexivity).
  assert (Hne : (1 ≠ 2)%Z) by lia.
  split.
  - split; [exact Hp|].
    exact (proj1 min_cut_contractions 0 3%Z (holding triangle) Hp).
  - split; [exact Hread|]. split; [exact Hne|].
    exact (proj2 min_cut_contractions _ (λ _, 0) _ (1, 2, 0)%Z Hread eq_refl Hne).
Defined.

(** ** The original list is never written *)

(** [merge_random_edge] does write into the list it is given: the scan
    leaves its marks and relabelings in that very object. *)
Example merge_random_edge_mutates_argument :
  deref 0 (final (merge_random_edge 0 (holding triangle)))
  = [(1, 2, -1); (1, 3, 1); (1, 3, 2)]%Z.
Proof. by vm_compute. Qed.

(** C8. A trial leaves the original list, and every other list object
    that existed when it started, exactly as it was: all its writes go
    to the deep copy and to the lists made from it.  The same holds for
    any number of trials run one after the other, whether they return or
    raise. *)
Theorem min_cut_leaves_original p n w :
  p ∈ dom (heap w) →
  (preserves w (final (min_cut p n w)) ∧
   deref p (final (min_cut p n w)) = deref p w) ∧
  ∀ runs best ks,
    preserves w (final (trials p n runs best ks w)) ∧
    deref p (final (trials p n runs best ks w)) = deref p w.
Proof.
  intros Hp. split.
  - destruct (min_cut_spec p n w Hp) as (Hpres & _).
    split; [done | by apply preserves_deref].
  - intros runs best ks.
    pose proof (trials_preserves p n runs ks best w Hp) as Hpres.
    split; [done | by apply preserves_deref].
Qed.

Lemma min_cut_leaves_original_witness :
  0 ∈ dom (heap (holding triangle)) ∧
  (preserves (holding triangle) (final (min_cut 0 3 (holding triangle))) ∧
   deref 0 (final (min_cut 0 3 (holding triangle))) = deref 0 (holding triangle)) ∧
  ∀ runs best ks,
    preserves (holding triangle)
      (final (trials 0 3 runs best ks (holding triangle))) ∧
    deref 0 (final (trials 0 3 runs best ks (holding triangle)))
    = deref 0 (holding triangle).
Proof.
  assert (Hp : 0 ∈ dom (heap (holding triangle)))
    by (apply elem_of_dom; by eexists).
  split; [exact Hp|].
  exact (min_cut_leaves_original 0 3%Z (holding triangle) Hp).
Defined.

(** ** What the loader keeps true *)

Lemma add_pair_inv v1 st v2 :
  loader_inv st →
  loader_inv (add_pair v1 st v2) ∧
  edges_added (add_pair v1 st v2) = {[order_pair v1 v2]} ∪ edges_added st.
Proof.
  intros (Hset & Hnd & Hle). unfold add_pair. fold (order_pair v1 v2).
  assert (Hord : ((order_pair v1 v2).1 ≤ (order_pair v1 v2).2)%Z)
    by (unfold order_pair; destruct (Z.ltb_spec v1 v2); simpl; lia).
  destruct (order_pair v1 v2) as [a b]. cbn [fst snd] in *.
  case_decide as Hin; [split; [done | set_solver]|].
  split; [|done]. split; [|split]; cbn [edges edges_added].
  - rewrite fmap_app, list_to_set_app_L, Hset.
    change (ends <$> [(a, b, unique_id st)]) with [(a, b)]. set_solver.
  - rewrite fmap_app. change (ends <$> [(a, b, unique_id st)]) with [(a, b)].
    apply NoDup_app. split; [done|]. split; [|apply NoDup_singleton].
    intros pr Hpr [->|[]%elem_of_nil]%elem_of_cons. apply Hin.
    by rewrite Hset, elem_of_list_to_set.
  - apply Forall_app. split; [done|]. by constructor.
Qed.

Lemma add_pairs_inv v1 rest : ∀ st,
  loader_inv st →
  loader_inv (foldl (add_pair v1) st rest) ∧
  edges_added (foldl (add_pair v1) st rest)
  = list_to_set (order_pair v1 <$> rest) ∪ edges_added st.
Proof.
  induction rest as [|v2 rest IH]; intros st Hst; simpl.
  - split; [done | set_solver].
  - destruct (add_pair_inv v1 st v2 Hst) as [Hinv Hadd].
    destruct (IH _ Hinv) as [Hinv' Hadd']. split; [done|].
    rewrite Hadd', Hadd. set_solver.
Qed.

Lemma read_line_inv st ln st' :
  loader_inv st → read_line st ln = inr st' →
  loader_inv st' ∧
  edges_added st' = list_to_set (row_pairs ln) ∪ edges_added st.
Proof.
  destruct ln as [|[|v1 rest]]; simpl; intros Hst Heq; simplify_eq.
  - split; [done | set_solver].
  - by apply add_pairs_inv.
Qed.

Lemma read_lines_inv f : ∀ st st',
  loader_inv st → read_lines st f = inr st' →
  loader_inv st' ∧
  edges_added st' = list_to_set (mentioned f) ∪ edges_added st.
Proof.
  induction f as [|ln f IH]; simpl; intros st st' Hst Heq.
  - simplify_eq. split; [done | set_solver].
  - destruct (read_line st ln) as [|st1] eqn:Hln; [done|].
    destruct (read_line_inv _ _ _ Hst Hln) as [Hinv1 Hadd1].
    destruct (IH _ _ Hinv1 Heq) as [Hinv' Hadd']. split; [done|].
    rewrite list_to_set_app_L, Hadd', Hadd1. set_solver.
Qed.

Lemma loader_inv_init : loader_inv (Loader 0 [] ∅).
Proof. split; [done|]. split; [apply NoDup_nil_2 | constructor]. Qed.

Lemma loaded_inv f w po w1 :
  create_edges_list f w = Ok po w1 →
  ∃ st, read_lines (Loader 0 [] ∅) f = inr st ∧ deref po w1 = edges st ∧
        loader_inv st ∧ edges_added st = list_to_set (mentioned f).
Proof.
  intros Hload.
  apply create_edges_list_ok in Hload as (_ & _ & _ & _ & _ & st & Hst & Hedges).
  destruct (read_lines_inv f _ _ loader_inv_init Hst) as [Hinv Hadd].
  exists st. split; [done|]. split; [done|]. split; [done|].
  rewrite Hadd. simpl. set_solver.
Qed.

(** ** Identities *)

(** The situation of a trial after some contractions: the list at [po]
    was read from the file, [pc] is its deep copy, and the contractions
    led from [pc] to the list at [p]. *)
Lemma loaded_copy_contracted f w po w1 pc w2 p w' :
  create_edges_list f w = Ok po w1 →
  deepcopy po w1 = Ok pc w2 →
  contractions pc w2 p w' →
  deref po w' = deref po w1 ∧
  ids (deref p w') `sublist_of` ids (deref po w1) ∧
  ids (deref po w1) = Z.of_nat <$> seq 0 (length (deref po w1)).
Proof.
  intros Hload Hcopy Hcs.
  apply create_edges_list_ok in Hload as (_ & Hh1 & _ & _ & _ & st & Hst & Hedges).
  unfold deepcopy in Hcopy. rewrite bind_unfold in Hcopy. simpl in Hcopy.
  destruct (alloc_spec (deref po w1) w1) as (pc' & Hpc & Hfresh).
  rewrite Hpc in Hcopy. injection Hcopy as <- <-.
  assert (Hpo : po ∈ dom (heap w1)) by (rewrite Hh1, dom_insert_L; set_solver).
  assert (Hne : po ≠ pc') by (intros ->; done).
  destruct (contractions_frame _ _ _ _ Hcs) as (_ & _ & Hf).
  pose proof (contractions_ids _ _ _ _ Hcs) as Hsub.
  rewrite deref_set_heap_eq in Hsub.
  split; [|split; [done|]].
  - unfold deref. rewrite !lookup_total_alt, Hf; [|done|].
    + simpl. by rewrite lookup_insert_ne.
    + simpl. rewrite dom_insert_L. set_solver.
  - rewrite Hedges. by apply (loaded_ids f).
Qed.

Lemma ids_kept l n :
  ids l `sublist_of` (Z.of_nat <$> seq 0 n) → Forall (λ e, 0 ≤ u_id e)%Z l.
Proof.
  intros Hsub. apply Forall_forall. intros e He.
  assert (Hin : u_id e ∈ Z.of_nat <$> seq 0 n).
  { eapply elem_of_sublist; [|exact Hsub].
    unfold ids. by apply (list_elem_of_fmap_2 u_id). }
  apply list_elem_of_fmap in Hin as (i & -> & _). lia.
Qed.

(** The loop of [min_cut] is a chain of successful contractions. *)
Lemma contract_loop_contractions fuel : ∀ vr p w p' w',
  contract_loop fuel p vr w = Ok p' w' → contractions p w p' w'.
Proof.
  induction fuel as [|fuel IH]; intros vr p w p' w'; simpl;
    destruct (2 <? vr)%Z.
  - done.
  - intros [= <- <-]. apply contractions_refl.
  - rewrite bind_unfold.
    destruct (merge_random_edge p w) as [p1 w1|] eqn:Hm; [|done].
    intros Hl. eapply contractions_step; [exact Hm | by eapply IH].
  - intros [= <- <-]. apply contractions_refl.
Qed.

(** A deep copy of a live list and the contractions made from it. *)
Lemma copy_contracted po w pc w2 p w' :
  po ∈ dom (heap w) →
  deepcopy po w = Ok pc w2 →
  contractions pc w2 p w' →
  deref po w' = deref po w ∧
  ids (deref p w') `sublist_of` ids (deref po w).
Proof.
  intros Hpo Hcopy Hcs.
  unfold deepcopy in Hcopy. rewrite bind_unfold in Hcopy. simpl in Hcopy.
  destruct (alloc_spec (deref po w) w) as (pc' & Hpc & Hfresh).
  rewrite Hpc in Hcopy. injection Hcopy as <- <-.
  assert (Hne : po ≠ pc') by (intros ->; done).
  destruct (contractions_frame _ _ _ _ Hcs) as (_ & _ & Hf).
  pose proof (contractions_ids _ _ _ _ Hcs) as Hsub.
  rewrite deref_set_heap_eq in Hsub.
  split; [|done].
  unfold deref. rewrite !lookup_total_alt, Hf; [|done|].
  - simpl. by rewrite lookup_insert_ne.
  - simpl. rewrite dom_insert_L. set_solver.
Qed.

(** What [min_cut] returns, in terms of the copy it contracted. *)
Lemma min_cut_inv po n w pr wr :
  min_cut po n w = Ok pr wr →
  ∃ pc w2 p w',
    deepcopy po w = Ok pc w2 ∧ contractions pc w2 p w' ∧
    deref pr wr = final_edges_of (deref po w') (deref p w').
Proof.
  unfold min_cut. rewrite bind_unfold.
  destruct (deepcopy po w) as [pc w2|] eqn:Hcopy; [|done].
  rewrite bind_unfold.
  destruct (contract_loop _ pc n w2) as [p w'|] eqn:Hloop; [|done].
  apply contract_loop_contractions in Hloop.
  rewrite !bind_unfold. simpl. unfold alloc. intros [= <- <-].
  exists pc, w2, p, w'. split; [done|]. split; [done|].
  apply deref_set_heap_eq.
Qed.

(** C7. Let [original] be the list as it was loaded, and take any trial:
    any later world in which that list object still holds [original]
    (every trial of a run starts in such a world).  After the deep copy
    and any number of contractions the original list object still holds
    [original], and the identities in the working list are pairwise
    distinct and are identities of [original]; each surviving edge is
    found again in [original] by its identity, as exactly one edge,
    whose endpoints are a pair of the file; and a further contraction
    drops the identities of the edges joining the sampled pair and no
    others.  What [min_cut] returns is the result of that lookup: the
    edges of [original], endpoints as loaded, whose identity is still in
    the list its contractions ended with, one for each survivor.  After
    any number of trials the world is again one in which a trial can
    start. *)
Theorem identities_survive f w0 po w1 w :
  create_edges_list f w0 = Ok po w1 →
  po ∈ dom (heap w) →
  deref po w = deref po w1 →
  let original := deref po w1 in
  let found l e e0 :=
    e0 ∈ original ∧ u_id e0 = u_id e ∧ ends e0 ∈ mentioned f ∧
    e0 ∈ final_edges_of original l ∧
    ∀ e1, e1 ∈ original → u_id e1 = u_id e → e1 = e0 in
  NoDup (ids original) ∧
  (∀ pc w2 p w',
     deepcopy po w = Ok pc w2 → contractions pc w2 p w' →
     let l := deref p w' in
     deref po w' = original ∧
     NoDup (ids l) ∧ ids l ⊆ ids original ∧
     (∀ e, e ∈ l → ∃ e0, found l e e0) ∧
     length (final_edges_of original l) = length l ∧
     ∀ p2 w2', merge_random_edge p w' = Ok p2 w2' →
       ∃ chosen, l !! pick w' l = Some chosen ∧
         ∀ e, e ∈ l → u_id e ∈ ids (deref p2 w2') ↔ ends e ≠ ordered chosen) ∧
  (∀ n pr wr,
     min_cut po n w = Ok pr wr →
     ∃ pc w2 p w',
       deepcopy po w = Ok pc w2 ∧ contractions pc w2 p w' ∧
       let l := deref p w' in
       deref pr wr = filter (λ e0, u_id e0 ∈ ids l) original ∧
       deref pr wr `sublist_of` original ∧
       length (deref pr wr) = length l ∧
       (∀ e, e ∈ l → ∃ e0, e0 ∈ deref pr wr ∧ found l e e0) ∧
       (∀ e0, e0 ∈ deref pr wr → ∃ e, e ∈ l ∧ found l e e0)) ∧
  (∀ n runs best ks,
     po ∈ dom (heap (final (trials po n runs best ks w))) ∧
     deref po (final (trials po n runs best ks w)) = original).
Proof.
  intros Hload Hpo Horig original found.
  destruct (loaded_inv _ _ _ _ Hload) as (st & Hst & Hedges & (Hset & _) & Hadd).
  assert (Hseq : ids original = Z.of_nat <$> seq 0 (length original)).
  { unfold original. rewrite Hedges. by apply (loaded_ids f). }
  assert (Hment : ∀ e0, e0 ∈ original → ends e0 ∈ mentioned f).
  { intros e0 He0.
    rewrite <- (elem_of_list_to_set (C := gset (Z * Z)) _ (mentioned f)).
    rewrite <- Hadd, Hset, elem_of_list_to_set. unfold original in He0.
    rewrite Hedges in He0. by apply (list_elem_of_fmap_2 ends). }
  assert (Hnd : NoDup (ids original)) by (rewrite Hseq; apply seq_ids_NoDup).
  assert (Hwork : ∀ pc w2 p w',
            deepcopy po w = Ok pc w2 → contractions pc w2 p w' →
            deref po w' = original ∧ NoDup (ids (deref p w')) ∧
            ids (deref p w') `sublist_of` ids original ∧
            Forall kept (deref p w') ∧
            ∀ e, e ∈ deref p w' → ∃ e0, found (deref p w') e e0).
  { intros pc w2 p w' Hcopy Hcs.
    destruct (copy_contracted _ _ _ _ _ _ Hpo Hcopy Hcs) as (Hsame & Hsub).
    rewrite Horig in Hsame, Hsub. fold original in Hsame, Hsub.
    split; [done|]. split; [by eapply sublist_NoDup|]. split; [done|]. split.
    - rewrite Hseq in Hsub. apply ids_kept in Hsub.
      eapply Forall_impl; [exact Hsub|]. unfold kept. intros e He. simpl in He. lia.
    - intros e He.
      assert (Hin : u_id e ∈ ids original).
      { eapply elem_of_sublist; [|exact Hsub].
        unfold ids. by apply (list_elem_of_fmap_2 u_id). }
      apply list_elem_of_fmap in Hin as (e0 & Hid & He0).
      exists e0. split; [done|]. split; [done|]. split; [by apply Hment|]. split.
      + apply elem_of_final_edges. split; [done|]. rewrite <- Hid.
        unfold ids. by apply (list_elem_of_fmap_2 u_id).
      + intros e1 He1 Hid1. apply (NoDup_ids_inj original); [done..|congruence]. }
  split; [done|]. split; [|split].
  3:{ intros n runs best ks.
      pose proof (trials_preserves po n runs ks best w Hpo) as Hpres.
      split; [destruct Hpres as (_ & Hd & _); set_solver|].
      by rewrite (preserves_deref _ _ _ Hpres Hpo). }
  - intros pc w2 p w' Hcopy Hcs l.
    destruct (Hwork _ _ _ _ Hcopy Hcs) as (Hsame & Hndl & Hsub & Hkept & Hfound).
    fold l in Hndl, Hsub, Hkept, Hfound.
    split; [done|]. split; [done|]. split; [by apply sublist_subseteq|].
    split; [done|]. split; [by apply final_edges_length|].
    intros p2 w2' Hm.
    apply merge_ok_inv in Hm as (chosen & Hc & -> & ->).
    exists chosen. split; [done|]. intros e He.
    rewrite after_merge_result. fold l. unfold ids at 1.
    rewrite contract_ids. split.
    + intros (e' & Hid & He')%list_elem_of_fmap.
      apply list_elem_of_filter in He' as [[Hne _] He'].
      by rewrite (NoDup_ids_inj l e e' Hndl He He' Hid).
    + intros Hne. apply (list_elem_of_fmap_2 u_id).
      apply list_elem_of_filter. split; [|done]. split; [done|].
      rewrite Forall_forall in Hkept. by apply Hkept.
  - intros n pr wr Hmc.
    apply min_cut_inv in Hmc as (pc & w2 & p & w' & Hcopy & Hcs & Hret).
    destruct (Hwork _ _ _ _ Hcopy Hcs) as (Hsame & Hndl & Hsub & Hkept & Hfound).
    rewrite Hsame in Hret.
    exists pc, w2, p, w'. split; [done|]. split; [done|]. intros l.
    fold l in Hret, Hndl, Hsub, Hfound.
    assert (Hfe : final_edges_of original l = filter (λ e0, u_id e0 ∈ ids l) original).
    { unfold final_edges_of. apply filter_ext_in. intros e0 _.
      unfold ids. by rewrite elem_of_list_to_set. }
    split; [by rewrite Hret|]. rewrite Hret.
    split; [apply sublist_filter|].
    split; [by apply final_edges_length|]. split.
    + intros e He. destruct (Hfound e He) as (e0 & Hf). exists e0.
      split; [|done]. by destruct Hf as (_ & _ & _ & Hin & _).
    + intros e0 He0. apply elem_of_final_edges in He0 as [He0 Hid].
      apply list_elem_of_fmap in Hid as (e & Hid & He).
      exists e. split; [done|].
      destruct (Hfound e He) as (e0' & Hf).
      destruct Hf as (H1 & H2 & H3 & H4 & H5).
      assert (e0 = e0') by (apply H5; [done | congruence]). subst e0'.
      by repeat split.
Qed.

Lemma run_contractions :
  create_edges_list triangle_file (initial (λ _, 0))
  = Ok (returned run_loaded) (final run_loaded) ∧
  deepcopy (returned run_loaded) (final run_loaded)
  = Ok (returned run_copied) (final run_copied) ∧
  contractions (returned run_copied) (final run_copied)
               (returned run_merged) (final run_merged).
Proof.
  split; [by vm_compute|]. split; [by vm_compute|].
  eapply contractions_step; [|apply contractions_refl]. by vm_compute.
Qed.

Lemma identities_survive_witness :
  create_edges_list triangle_file (initial (λ _, 0))
  = Ok (returned run_loaded) (final run_loaded) ∧
  returned run_loaded ∈ dom (heap (final run_loaded)) ∧
  deref (returned run_loaded) (final run_loaded)
  = deref (returned run_loaded) (final run_loaded) ∧
  let original := deref (returned run_loaded) (final run_loaded) in
  let found l e e0 :=
    e0 ∈ original ∧ u_id e0 = u_id e ∧ ends e0 ∈ mentioned triangle_file ∧
    e0 ∈ final_edges_of original l ∧
    ∀ e1, e1 ∈ original → u_id e1 = u_id e → e1 = e0 in
  NoDup (ids original) ∧
  (∀ pc w2 p w',
     deepcopy (returned run_loaded) (final run_loaded) = Ok pc w2 →
     contractions pc w2 p w' →
     let l := deref p w' in
     deref (returned run_loaded) w' = original ∧
     NoDup (ids l) ∧ ids l ⊆ ids original ∧
     (∀ e, e ∈ l → ∃ e0, found l e e0) ∧
     length (final_edges_of original l) = length l ∧
     ∀ p2 w2', merge_random_edge p w' = Ok p2 w2' →
       ∃ chosen, l !! pick w' l = Some chosen ∧
         ∀ e, e ∈ l → u_id e ∈ ids (deref p2 w2') ↔ ends e ≠ ordered chosen) ∧
  (∀ n pr wr,
     min_cut (returned run_loaded) n (final run_loaded) = Ok pr wr →
     ∃ pc w2 p w',
       deepcopy (returned run_loaded) (final run_loaded) = Ok pc w2 ∧
       contractions pc w2 p w' ∧
       let l := deref p w' in
       deref pr wr = filter (λ e0, u_id e0 ∈ ids l) original ∧
       deref pr wr `sublist_of` original ∧
       length (deref pr wr) = length l ∧
       (∀ e, e ∈ l → ∃ e0, e0 ∈ deref pr wr ∧ found l e e0) ∧
       (∀ e0, e0 ∈ deref pr wr → ∃ e, e ∈ l ∧ found l e e0)) ∧
  (∀ n runs best ks,
     returned run_loaded
     ∈ dom (heap (final (trials (returned run_loaded) n runs best ks
                                (final run_loaded)))) ∧
     deref (returned run_loaded)
           (final (trials (returned run_loaded) n runs best ks (final run_loaded)))
     = original).
Proof.
  assert (Hload : create_edges_list triangle_file (initial (λ _, 0))
                  = Ok (returned run_loaded) (final run_loaded)) by by vm_compute.
  assert (Hpo : returned run_loaded ∈ dom (heap (final run_loaded)))
    by (apply elem_of_dom; by eexists).
  split; [exact Hload|]. split; [exact Hpo|]. split; [reflexivity|].
  exact (identities_survive triangle_file (initial (λ _, 0)) _ _ _ Hload Hpo eq_refl).
Defined.

Example run_merged_store :
  deref (returned run_loaded) (final run_merged) = triangle ∧
  deref (returned run_merged) (final run_merged) = [(1, 3, 1); (1, 3, 2)]%Z ∧
  final_edges_of triangle [(1, 3, 1); (1, 3, 2)]%Z = [(1, 3, 1); (2, 3, 2)]%Z.
Proof. by vm_compute. Qed.

(** C10. The loader numbers the edges 0, 1, 2, ..., so in the loaded
    list and in every list reached from it by contractions all identities
    are nonnegative.  Hence, in a further contraction, the entries of the
    scanned list that carry the mark -1 are exactly those the scan marked
    (the edges joining the sampled pair); every other entry keeps its own
    identity, and the closing filter, which returns the scanned list
    without the entries carrying -1, drops no surviving edge. *)
Theorem sentinel_never_collides f w po w1 pc w2 p w' :
  create_edges_list f w = Ok po w1 →
  deepcopy po w1 = Ok pc w2 →
  contractions pc w2 p w' →
  ids (deref po w1) = Z.of_nat <$> seq 0 (length (deref po w1)) ∧
  Forall (λ e, 0 ≤ u_id e)%Z (deref po w1) ∧
  Forall (λ e, 0 ≤ u_id e)%Z (deref p w') ∧
  ∀ p2 w2', merge_random_edge p w' = Ok p2 w2' →
    ∃ chosen, deref p w' !! pick w' (deref p w') = Some chosen ∧
      deref p2 w2' = filter kept (deref p w2') ∧
      Forall (λ e, 0 ≤ u_id e)%Z (deref p2 w2') ∧
      ∀ i e, deref p w' !! i = Some e →
        ∃ e', deref p w2' !! i = Some e' ∧
              (¬ kept e' ↔ ends e = ordered chosen) ∧
              (kept e' → u_id e' = u_id e).
Proof.
  intros Hload Hcopy Hcs.
  destruct (loaded_copy_contracted _ _ _ _ _ _ _ _ Hload Hcopy Hcs)
    as (_ & Hsub & Hseq).
  assert (Hnn : Forall (λ e, 0 ≤ u_id e)%Z (deref p w'))
    by (rewrite Hseq in Hsub; by eapply ids_kept).
  split; [done|]. split; [eapply ids_kept; by rewrite <- Hseq|].
  split; [done|].
  intros p2 w2' Hm.
  apply merge_ok_inv in Hm as (chosen & Hc & -> & ->).
  exists chosen. split; [done|].
  rewrite after_merge_result, after_merge_arg.
  split; [done|]. split.
  { eapply ids_kept. etransitivity; [apply contract_ids_sublist|].
    rewrite <- Hseq. exact Hsub. }
  intros i e Hi. eexists. split; [by rewrite list_lookup_fmap, Hi|].
  assert (Hk : kept e).
  { rewrite Forall_forall in Hnn. unfold kept.
    pose proof (Hnn e (list_elem_of_lookup_2 _ _ _ Hi)). simpl in *. lia. }
  destruct (ordered chosen) as [a b] eqn:Ho. simpl.
  split.
  - rewrite (relabel_kept a b e Hk). destruct (decide (ends e = (a, b))); naive_solver.
  - intros Hk'. apply relabel_u_id. by apply (relabel_kept a b e Hk).
Qed.

Lemma sentinel_never_collides_witness :
  create_edges_list triangle_file (initial (λ _, 0))
  = Ok (returned run_loaded) (final run_loaded) ∧
  deepcopy (returned run_loaded) (final run_loaded)
  = Ok (returned run_copied) (final run_copied) ∧
  contractions (returned run_copied) (final run_copied)
               (returned run_merged) (final run_merged) ∧
  ids (deref (returned run_loaded) (final run_loaded))
  = Z.of_nat <$> seq 0 (length (deref (returned run_loaded) (final run_loaded))) ∧
  Forall (λ e, 0 ≤ u_id e)%Z (deref (returned run_loaded) (final run_loaded)) ∧
  Forall (λ e, 0 ≤ u_id e)%Z (deref (returned run_merged) (final run_merged)) ∧
  ∀ p2 w2', merge_random_edge (returned run_merged) (final run_merged) = Ok p2 w2' →
    ∃ chosen,
      deref (returned run_merged) (final run_merged)
      !! pick (final run_merged) (deref (returned run_merged) (final run_merged))
      = Some chosen ∧
      deref p2 w2' = filter kept (deref (returned run_merged) w2') ∧
      Forall (λ e, 0 ≤ u_id e)%Z (deref p2 w2') ∧
      ∀ i e, deref (returned run_merged) (final run_merged) !! i = Some e →
        ∃ e', deref (returned run_merged) w2' !! i = Some e' ∧
              (¬ kept e' ↔ ends e = ordered chosen) ∧
              (kept e' → u_id e' = u_id e).
Proof.
  destruct run_contractions as (Hload & Hcopy & Hcs).
  split; [exact Hload|]. split; [exact Hcopy|]. split; [exact Hcs|].
  exact (sentinel_never_collides _ _ _ _ _ _ _ _ Hload Hcopy Hcs).
Defined.

(** ** The trial loop of the script *)

Lemma length_range1 n : length (range1 n) = Z.to_nat n.
Proof. unfold range1. by rewrite length_fmap, length_seq. Qed.

(** A run of the script that returns has loaded a list, counted its [n]
    labels, computed [number_of_runs] from [n], and then printed [n]
    progress lines, one per trial, before the summary. *)
Lemma script_returns file w r w' :
  script file w = Ok r w' →
  ∃ po w1 n number_of_runs out,
    create_edges_list file w = Ok po w1 ∧
    n = Z.of_nat (size (vertex_set (deref po w1))) ∧
    number_of_runs_of n w = Ok number_of_runs w ∧
    stdout w' = stdout w ++ out
                ++ [Summary number_of_runs r.1 ((λ e, (v1_of e, v2_of e)) <$> r.2)] ∧
    length out = Z.to_nat n ∧
    Forall (is_progress number_of_runs) out ∧
    drawn w' = drawn w + Z.to_nat n * Z.to_nat (n - 2).
Proof.
  unfold script. rewrite bind_unfold.
  destruct (create_edges_list file w) as [po w1|] eqn:Hload; [|done].
  pose proof (create_edges_list_float_log _ _ _ _ Hload) as Hlog.
  pose proof (create_edges_list_ok _ _ _ _ Hload) as (Hpo & Hh1 & _ & Hd1 & Hs1 & _).
  destruct (alloc_spec [] w1) as (pe & Hpe & Hfresh).
  rewrite (bind_ok _ _ _ _ _ Hpe).
  set (w2 := set_heap (<[pe := []]> (heap w1)) w1).
  assert (Hpo1 : po ∈ dom (heap w1)) by (rewrite Hh1, dom_insert_L; set_solver).
  assert (Hpo2 : po ∈ dom (heap w2)) by (simpl; rewrite dom_insert_L; set_solver).
  assert (Horig : deref po w2 = deref po w1).
  { unfold w2. apply deref_set_heap_ne. intros ->. done. }
  rewrite (bind_ok _ _ _ _ _ (count_vertices_eq po w2)), Horig.
  set (n := Z.of_nat (size (vertex_set (deref po w1)))).
  rewrite bind_unfold, number_of_runs_of_unfold.
  destruct (n <=? 0)%Z eqn:Hn; [done|].
  change (float_log w2) with (float_log w1). rewrite Hlog.
  set (runs := int_of_float _).
  rewrite bind_unfold.
  destruct (trials po n runs (Inf, pe) (range1 n) w2) as [best w3|] eqn:Htr; [|done].
  apply trials_returns in Htr as (Hdr & out & Hout & Hlen & Hall); [|done].
  rewrite !bind_unfold. simpl. intros Hr. injection Hr as <- <-. simpl.
  exists po, w1, n, runs, out.
  split; [done|]. split; [done|].
  split; [by rewrite number_of_runs_of_unfold, Hn|].
  rewrite length_range1 in Hlen, Hdr.
  split; [by rewrite Hout, <- app_assoc; simpl; rewrite Hs1|].
  split; [done|]. split; [done|]. simpl in Hdr. lia.
Qed.

(** C1 (the script departs from it).  On the triangle, whose three
    vertices give the budget [number_of_runs = 9], a run of the script
    that returns has run 3 trials, not 9, whatever the random draws: its
    loop ranges over [range(1, number_of_vertices + 1)], while every
    line it prints announces 9 iterations. *)
Theorem trial_loop_runs_number_of_vertices rnd r w' :
  script triangle_file (initial rnd) = Ok r w' →
  ∃ out, stdout w' = out ++ [Summary 9 r.1 ((λ e, (v1_of e, v2_of e)) <$> r.2)] ∧
         length out = 3 ∧ Forall (is_progress 9) out ∧
         drawn w' = 3.
Proof.
  intros Hrun.
  apply script_returns in Hrun
    as (po & w1 & n & runs & out & Hload & Hn & Hruns & Hout & Hlen & Hall & Hdr).
  apply create_edges_list_ok in Hload as (_ & _ & _ & _ & _ & st & Hst & Hedges).
  assert (Hst' : st = Loader 3 triangle {[(2, 3)%Z; (1, 3)%Z; (1, 2)%Z]})
    by (vm_compute in Hst; by injection Hst as <-).
  rewrite Hedges, Hst' in Hn. simpl edges in Hn.
  assert (Hn' : n = 3%Z) by (rewrite Hn; by vm_compute).
  subst n.
  assert (Hruns' : runs = 9%Z) by (vm_compute in Hruns; by injection Hruns as <-).
  subst runs. simpl in Hout.
  exists out. split; [done|]. split; [done|]. split; [done|]. by rewrite Hdr.
Qed.

Lemma trial_loop_runs_number_of_vertices_witness :
  script triangle_file (initial (λ _, 0))
  = Ok (Num 2, [(1, 3, 1); (2, 3, 2)]%Z) (final run_script) ∧
  ∃ out, stdout (final run_script)
         = out ++ [Summary 9 (Num 2) [(1, 3); (2, 3)]%Z] ∧
         length out = 3 ∧ Forall (is_progress 9) out ∧
         drawn (final run_script) = 3.
Proof.
  assert (Hrun : script triangle_file (initial (λ _, 0))
                 = Ok (Num 2, [(1, 3, 1); (2, 3, 2)]%Z) (final run_script))
    by (by vm_compute).
  split; [exact Hrun|].
  exact (trial_loop_runs_number_of_vertices (λ _, 0) _ _ Hrun).
Defined.

(** The same run, printed line by line. *)
Example script_triangle_stdout :
  stdout (final run_script)
  = [Progress 1 9 (Num 2); Progress 2 9 (Num 2); Progress 3 9 (Num 2);
     Summary 9 (Num 2) [(1, 3); (2, 3)]%Z].
Proof. by vm_compute. Qed.

(** ** [count_vertices] *)

Lemma vertex_set_labels l : vertex_set l = list_to_set (remove_dups (labels l)).
Proof.
  apply set_eq. intros x.
  rewrite elem_of_vertex_set, elem_of_list_to_set, elem_of_remove_dups.
  unfold labels. rewrite list_elem_of_bind. split.
  - intros (e & He & Hx). exists e. split; [|done]. set_solver.
  - intros (e & Hx & He). exists e. split; [done|]. set_solver.
Qed.

(** C9 (as stated, refuted). On an empty store [count_vertices] does not
    fail: it returns 0. *)
Lemma count_vertices_empty_returns :
  deref 0 (holding []) = [] ∧
  count_vertices 0 (holding []) = Ok 0%Z (holding []).
Proof. split; reflexivity. Qed.

(** C9 (amended). [count_vertices] returns the number of distinct
    endpoint labels present in the store and never fails; on a store
    without edges that number is 0. *)
Theorem count_vertices_distinct_labels p w :
  count_vertices p w
  = Ok (Z.of_nat (length (remove_dups (labels (deref p w))))) w.
Proof.
  rewrite count_vertices_eq, vertex_set_labels.
  by rewrite size_list_to_set by apply NoDup_remove_dups.
Qed.

Example count_vertices_triangle :
  count_vertices 0 (holding triangle) = Ok 3%Z (holding triangle).
Proof. reflexivity. Qed.

(** ** The number of runs *)

(** C6 (as stated, refuted). The file with the single row [1 1] loads
    the store [(1, 1, 0)], which has one vertex.  Nothing fails: the
    number of runs comes out as 0, one trial runs, and the script reports
    a cut of size 1. *)
Lemma script_one_vertex_returns :
  ∃ w', script [Tokens [1; 1]%Z] (initial (λ _, 0))
        = Ok (Num 1, [(1, 1, 0)%Z]) w' ∧
        count_vertices 0 w' = Ok 1%Z w' ∧
        number_of_runs_of 1 w' = Ok 0%Z w' ∧
        stdout w' = [Progress 1 0 (Num 1); Summary 0 (Num 1) [(1, 1)%Z]].
Proof.
  exists (final (script [Tokens [1; 1]%Z] (initial (λ _, 0)))).
  repeat split; by vm_compute.
Qed.

Lemma vertex_set_nil : size (vertex_set []) = 0.
Proof. apply size_empty. Qed.

(** C6 (amended). When the loaded store has no edge, hence no vertex,
    computing the number of runs raises [ValueError] (the logarithm of 0)
    and the script stops there: nothing was printed and no random draw
    was made, so no trial ran.  The script has no other check: with one
    vertex the number of runs is 0 and is returned without failure. *)
Theorem script_fails_on_empty_store :
  (∀ file rnd st,
     read_lines (Loader 0 [] ∅) file = inr st → edges st = [] →
     ∃ w', script file (initial rnd) = Raise ValueError w' ∧
           stdout w' = [] ∧ drawn w' = 0) ∧
  (∀ w, number_of_runs_of 0 w = Raise ValueError w) ∧
  (∀ w, number_of_runs_of 1 w = Ok 0%Z w).
Proof.
  split; [|split; [reflexivity | exact number_of_runs_of_1]].
  intros file rnd st Hread Hst. unfold script, create_edges_list.
  rewrite Hread, Hst.
  destruct (alloc_spec [] (initial rnd)) as (po & Hpo & Hfresh).
  rewrite (bind_ok _ _ _ _ _ Hpo).
  set (w1 := set_heap (<[po := []]> (heap (initial rnd))) (initial rnd)).
  destruct (alloc_spec [] w1) as (pe & Hpe & Hfresh1).
  rewrite (bind_ok _ _ _ _ _ Hpe).
  set (w2 := set_heap (<[pe := []]> (heap w1)) w1).
  assert (Horig : deref po w2 = []).
  { unfold w2. rewrite deref_set_heap_ne; [apply deref_set_heap_eq|].
    intros ->. apply Hfresh1. simpl. rewrite dom_insert_L. set_solver. }
  rewrite (bind_ok _ _ _ _ _ (count_vertices_eq po w2)), Horig, vertex_set_nil.
  exists w2. split; [reflexivity|]. by split.
Qed.

Lemma script_fails_on_empty_store_witness :
  read_lines (Loader 0 [] ∅) [Newline; Tokens [7]%Z] = inr (Loader 0 [] ∅) ∧
  ∃ w', script [Newline; Tokens [7]%Z] (initial (λ _, 0)) = Raise ValueError w' ∧
        stdout w' = [] ∧ drawn w' = 0.
Proof.
  assert (Hread : read_lines (Loader 0 [] ∅) [Newline; Tokens [7]%Z]
                  = inr (Loader 0 [] ∅)) by reflexivity.
  split; [exact Hread|].
  exact (proj1 script_fails_on_empty_store _ (λ _, 0) _ Hread eq_refl).
Defined.

Lemma ln_Zpow (a k : Z) :
  (0 < a)%Z → (0 ≤ k)%Z → ln (IZR (a ^ k)) = (IZR k * ln (IZR a))%R.
Proof.
  intros Ha Hk. rewrite <- (Z2Nat.id k Hk), <- pow_IZR, <- INR_IZR_INZ.
  apply ln_pow. by apply (IZR_lt 0).
Qed.

Lemma ln_2_pos : (0 < ln 2)%R.
Proof. pose proof ln_lt_2. lra. Qed.

(** Comparing [k] with [m * log2 n] is comparing [2 ^ k] with [n ^ m]. *)
Lemma pow_lt_log2 (n m k : Z) :
  (0 < n)%Z → (0 ≤ m)%Z → (0 ≤ k)%Z →
  (2 ^ k < n ^ m)%Z → (IZR k < IZR m * (ln (IZR n) / ln 2))%R.
Proof.
  intros Hn Hm Hk Hlt. pose proof ln_2_pos as HL.
  assert (Hln : (IZR k * ln 2 < IZR m * ln (IZR n))%R).
  { rewrite <- (ln_Zpow 2 k), <- (ln_Zpow n m) by lia.
    apply ln_increasing; [apply (IZR_lt 0); by apply Z.pow_pos_nonneg | by apply IZR_lt]. }
  apply Rmult_lt_reg_r with (ln 2); [done|].
  replace (IZR m * (ln (IZR n) / ln 2) * ln 2)%R with (IZR m * ln (IZR n))%R
    by (field; lra).
  done.
Qed.

Lemma log2_lt_pow (n m k : Z) :
  (0 < n)%Z → (0 ≤ m)%Z → (0 ≤ k)%Z →
  (n ^ m < 2 ^ k)%Z → (IZR m * (ln (IZR n) / ln 2) < IZR k)%R.
Proof.
  intros Hn Hm Hk Hlt. pose proof ln_2_pos as HL.
  assert (Hln : (IZR m * ln (IZR n) < IZR k * ln 2)%R).
  { rewrite <- (ln_Zpow 2 k), <- (ln_Zpow n m) by lia.
    apply ln_increasing; [apply (IZR_lt 0); by apply Z.pow_pos_nonneg | by apply IZR_lt]. }
  apply Rmult_lt_reg_r with (ln 2); [done|].
  replace (IZR m * (ln (IZR n) / ln 2) * ln 2)%R with (IZR m * ln (IZR n))%R
    by (field; lra).
  done.
Qed.

(** ** Binary64 arithmetic *)

Lemma IZR_pow2 d : (0 ≤ d)%Z → IZR (2 ^ d) = powerRZ 2 d.
Proof.
  intros Hd. rewrite <- (Z2Nat.id d Hd), <- pow_IZR. apply pow_powerRZ.
Qed.

Lemma powerRZ_2_pos e : (0 < powerRZ 2 e)%R.
Proof. apply powerRZ_lt. lra. Qed.

(** The integer content of rounding a nonnegative numerator. *)
Lemma round_numerator m e :
  (0 ≤ m)%Z →
  ∃ q d, round (Float m e) = Float q (e + d) ∧ (0 ≤ q)%Z ∧ (0 ≤ d)%Z ∧
         (2 ^ 53 * Z.abs (q * 2 ^ d - m) ≤ m)%Z.
Proof.
  intros Hm. unfold round. simpl Fnum. simpl Fexp.
  rewrite (Z.abs_eq m Hm).
  set (d := (Z.log2 m + 1 - 53)%Z).
  destruct (d <=? 0)%Z eqn:Hd.
  - exists m, 0%Z. rewrite Z.add_0_r. split; [done|]. split; [done|]. split; [done|].
    rewrite Z.pow_0_r, Z.mul_1_r, Z.sub_diag. simpl. lia.
  - apply Z.leb_gt in Hd.
    assert (Hpos : (0 < m)%Z).
    { destruct (decide (m = 0%Z)) as [->|]; [|lia]. unfold d in Hd. simpl in Hd. lia. }
    destruct (Z.log2_spec m Hpos) as [Hlo _].
    replace (Z.log2 m) with (52 + d)%Z in Hlo by (unfold d; lia).
    rewrite Z.pow_add_r in Hlo by lia.
    assert (Hhalf : (2 ^ d = 2 * 2 ^ (d - 1))%Z).
    { rewrite <- (Z.pow_succ_r 2 (d - 1)) by lia. f_equal. lia. }
    assert (Hhp : (0 < 2 ^ (d - 1))%Z) by (apply Z.pow_pos_nonneg; lia).
    pose proof (Z.div_mod m (2 ^ d) ltac:(lia)) as Hdm.
    pose proof (Z.mod_pos_bound m (2 ^ d) ltac:(lia)) as Hr.
    pose proof (Z.div_pos m (2 ^ d) ltac:(lia) ltac:(lia)) as Hq.
    set (q := (m / 2 ^ d)%Z) in *. set (r := (m mod 2 ^ d)%Z) in *.
    set (half := (2 ^ (d - 1))%Z) in *.
    eexists _, d. split; [reflexivity|].
    destruct (r <? half)%Z eqn:H1; [|destruct (half <? r)%Z eqn:H2;
                                       [|destruct (Z.odd q)]];
      try apply Z.ltb_lt in H1; try apply Z.ltb_ge in H1;
      try apply Z.ltb_lt in H2; try apply Z.ltb_ge in H2;
      (split; [lia|]); (split; [lia|]); nia.
Qed.

Lemma F2R_shift q e d :
  (0 ≤ d)%Z → F2R (Float q (e + d)) = (IZR (q * 2 ^ d) * powerRZ 2 e)%R.
Proof.
  intros Hd. unfold F2R. simpl.
  rewrite powerRZ_add by lra. rewrite mult_IZR, IZR_pow2 by done. ring.
Qed.

(** Rounding a nonnegative number moves it by at most the fraction
    [2 ^ -53] of its value. *)
Lemma round_error f :
  (0 ≤ Fnum f)%Z →
  (0 ≤ Fnum (round f))%Z ∧
  (F2R f * (1 - unit_roundoff) <= F2R (round f) <= F2R f * (1 + unit_roundoff))%R.
Proof.
  destruct f as [m e]. simpl Fnum. intros Hm.
  destruct (round_numerator m e Hm) as (q & d & -> & Hq & Hd & Herr).
  split; [done|].
  rewrite F2R_shift by done. unfold F2R. simpl Fnum. simpl Fexp.
  pose proof (powerRZ_2_pos e) as He.
  assert (Hr : (2 ^ 53 * Rabs (IZR (q * 2 ^ d) - IZR m) <= IZR m)%R).
  { rewrite <- minus_IZR, <- abs_IZR.
    change (2 ^ 53)%R with (IZR 2 ^ 53)%R. rewrite pow_IZR, <- mult_IZR.
    by apply IZR_le. }
  unfold unit_roundoff.
  assert (Hp : (0 < 2 ^ 53)%R) by (apply pow_lt; lra).
  set (t := (2 ^ 53)%R) in *.
  set (Q := IZR (q * 2 ^ d)) in *. set (M := IZR m) in *.
  assert (Habs : (Rabs (Q - M) <= M * / t)%R).
  { apply Rmult_le_reg_l with t; [done|].
    replace (t * (M * / t))%R with M by (field; lra). done. }
  assert (Hin : (- (M * / t) <= Q - M <= M * / t)%R)
    by (unfold Rabs in Habs; destruct (Rcase_abs (Q - M)); lra).
  split.
  - replace (M * powerRZ 2 e * (1 - / t))%R with ((M - M * / t) * powerRZ 2 e)%R by ring.
    apply Rmult_le_compat_r; lra.
  - replace (M * powerRZ 2 e * (1 + / t))%R with ((M + M * / t) * powerRZ 2 e)%R by ring.
    apply Rmult_le_compat_r; lra.
Qed.

(** [int] of a nonnegative float is the floor of its value. *)
Lemma int_of_float_floor f :
  (0 ≤ Fnum f)%Z →
  (IZR (int_of_float f) <= F2R f < IZR (int_of_float f) + 1)%R.
Proof.
  destruct f as [m e]. simpl Fnum. intros Hm.
  unfold int_of_float, F2R. simpl Fnum. simpl Fexp.
  destruct (0 <=? e)%Z eqn:He.
  - apply Z.leb_le in He. rewrite mult_IZR, IZR_pow2 by done. lra.
  - apply Z.leb_gt in He.
    assert (HD : (0 < 2 ^ (- e))%Z) by (apply Z.pow_pos_nonneg; lia).
    rewrite Z.quot_div_nonneg by done.
    pose proof (Z.div_mod m (2 ^ (- e)) ltac:(lia)) as Hdm.
    pose proof (Z.mod_pos_bound m (2 ^ (- e)) HD) as Hr.
    set (k := (m / 2 ^ (- e))%Z) in *.
    assert (Hpw : powerRZ 2 e = (/ IZR (2 ^ (- e)))%R).
    { rewrite IZR_pow2, <- powerRZ_neg' by lia. f_equal. lia. }
    rewrite Hpw. clear Hpw.
    set (D := (2 ^ (- e))%Z) in *.
    assert (HDr : (0 < IZR D)%R) by by apply (IZR_lt 0).
    assert (H1 : (IZR k * IZR D <= IZR m)%R) by (rewrite <- mult_IZR; apply IZR_le; lia).
    assert (H2 : (IZR m < (IZR k + 1) * IZR D)%R)
      by (rewrite <- (plus_IZR k 1), <- mult_IZR; apply IZR_lt; lia).
    split.
    + apply Rmult_le_reg_r with (IZR D); [done|].
      replace (IZR m * / IZR D * IZR D)%R with (IZR m) by (field; lra). done.
    + apply Rmult_lt_reg_r with (IZR D); [done|].
      replace (IZR m * / IZR D * IZR D)%R with (IZR m) by (field; lra). done.
Qed.

Lemma F2R_nonneg f : (0 <= F2R f)%R → (0 ≤ Fnum f)%Z.
Proof.
  unfold F2R. intros H. pose proof (powerRZ_2_pos (Fexp f)) as He.
  apply le_IZR. apply Rmult_le_reg_r with (powerRZ 2 (Fexp f)); [done|]. lra.
Qed.

Lemma F2R_mul x y :
  F2R (Float (Fnum x * Fnum y) (Fexp x + Fexp y)) = (F2R x * F2R y)%R.
Proof. unfold F2R. simpl. rewrite mult_IZR, powerRZ_add by lra. ring. Qed.

Lemma unit_roundoff_bounds : (0 < unit_roundoff < / 1024)%R.
Proof.
  unfold unit_roundoff. split.
  - apply Rinv_0_lt_compat, pow_lt. lra.
  - apply Rinv_lt_contravar; [|].
    + apply Rmult_lt_0_compat; [lra | apply pow_lt; lra].
    + replace (2 ^ 53)%R with (1024 * (2 * 2 ^ 42))%R by (simpl; ring).
      assert (1 <= 2 ^ 42)%R by (apply pow_R1_Rle; lra). lra.
Qed.

(** The truncated binary64 product of an [int] and a float, against the
    exact product: two roundings and one truncation apart. *)
Lemma truncated_product_bounds N L lo hi :
  (0 ≤ N)%Z → (0 <= lo)%R → (lo <= F2R L <= hi)%R →
  (IZR N * lo * (1 - unit_roundoff) ^ 2 - 1
   < IZR (int_of_float (float_mul (float_of_int N) L))
   <= IZR N * hi * (1 + unit_roundoff) ^ 2)%R.
Proof.
  intros HN Hlo [HL1 HL2]. pose proof unit_roundoff_bounds as Hu.
  destruct (round_error (Float N 0) HN) as [HP0 HP]. fold (float_of_int N) in HP0, HP.
  assert (HFN : F2R (Float N 0) = IZR N) by (unfold F2R; simpl; ring).
  rewrite HFN in HP.
  assert (HL0 : (0 ≤ Fnum L)%Z) by (apply F2R_nonneg; lra).
  set (P := float_of_int N) in *.
  destruct (round_error (Float (Fnum P * Fnum L) (Fexp P + Fexp L)))
    as [Hz0 Hz]; [simpl; lia|].
  fold (float_mul P L) in Hz0, Hz. rewrite F2R_mul in Hz.
  pose proof (int_of_float_floor (float_mul P L) Hz0) as Hk.
  set (k := IZR (int_of_float (float_mul P L))) in *.
  set (z := F2R (float_mul P L)) in *. set (p := F2R P) in *. set (l := F2R L) in *.
  assert (HA : (0 <= IZR N)%R) by by apply (IZR_le 0).
  set (A := IZR N) in *. set (u := unit_roundoff) in *.
  assert (Hpl1 : (A * (1 - u) * lo <= p * l)%R).
  { apply Rmult_le_compat; [|lra|lra|lra]. apply Rmult_le_pos; lra. }
  assert (Hpl2 : (p * l <= A * (1 + u) * hi)%R).
  { apply Rmult_le_compat; [|lra|lra|lra].
    apply Rle_trans with (A * (1 - u))%R; [apply Rmult_le_pos; lra | lra]. }
  assert (Hz1 : (A * (1 - u) * lo * (1 - u) <= z)%R).
  { apply Rle_trans with (p * l * (1 - u))%R; [|lra].
    apply Rmult_le_compat_r; lra. }
  assert (Hz2 : (z <= A * (1 + u) * hi * (1 + u))%R).
  { apply Rle_trans with (p * l * (1 + u))%R; [lra|].
    apply Rmult_le_compat_r; lra. }
  split.
  - replace (A * lo * (1 - u) ^ 2)%R with (A * (1 - u) * lo * (1 - u))%R by ring. lra.
  - replace (A * hi * (1 + u) ^ 2)%R with (A * (1 + u) * hi * (1 + u))%R by ring. lra.
Qed.

(** When the float is 1.0, twice it is 2: the product is exact. *)
Lemma truncated_double_of_one L :
  F2R L = 1%R → int_of_float (float_mul (float_of_int 2) L) = 2%Z.
Proof.
  destruct L as [m e]. unfold F2R. simpl Fnum. simpl Fexp. intros HL.
  change (float_of_int 2) with (Float 2 0).
  unfold float_mul. simpl Fnum. simpl Fexp.
  destruct (Z.le_gt_cases 0 e) as [He|He].
  - rewrite <- IZR_pow2, <- mult_IZR in HL by done. apply eq_IZR in HL.
    assert (Hp : (0 < 2 ^ e)%Z) by (apply Z.pow_pos_nonneg; lia).
    assert (Hm : m = 1%Z) by nia. subst m.
    assert (He0 : e = 0%Z).
    { destruct (decide (e = 0%Z)) as [|Hne]; [done|].
      assert (2 ^ 1 ≤ 2 ^ e)%Z by (apply Z.pow_le_mono_r; lia). simpl in *. lia. }
    subst e. reflexivity.
  - assert (Hm : m = (2 ^ (- e))%Z).
    { apply eq_IZR. rewrite IZR_pow2 by lia.
      pose proof (powerRZ_2_pos e) as Hp.
      rewrite powerRZ_neg'. apply Rmult_eq_reg_r with (powerRZ 2 e); [|lra].
      rewrite HL. field. lra. }
    subst m.
    assert (H2 : (2 * 2 ^ (- e) = 2 ^ (1 - e))%Z).
    { rewrite <- Z.pow_succ_r by lia. f_equal. lia. }
    rewrite H2. unfold round. simpl Fnum. simpl Fexp.
    assert (Hpos : (0 < 2 ^ (1 - e))%Z) by (apply Z.pow_pos_nonneg; lia).
    rewrite (Z.abs_eq (2 ^ (1 - e))) by lia.
    rewrite Z.log2_pow2 by lia.
    destruct (1 - e + 1 - 53 <=? 0)%Z eqn:Hd.
    + unfold int_of_float. simpl Fnum. simpl Fexp.
      rewrite (proj2 (Z.leb_gt 0 (0 + e))) by lia.
      replace (- (0 + e))%Z with (- e)%Z by lia.
      rewrite <- H2. rewrite Z.quot_mul; [done|].
      apply Z.pow_nonzero; lia.
    + apply Z.leb_gt in Hd.
      set (d := (1 - e + 1 - 53)%Z) in *.
      assert (Hsplit : (2 ^ (1 - e) = 2 ^ 52 * 2 ^ d)%Z).
      { rewrite <- Z.pow_add_r by lia. f_equal. lia. }
      assert (Hdp : (0 < 2 ^ d)%Z) by (apply Z.pow_pos_nonneg; lia).
      rewrite Hsplit, Z.div_mul, Z.mod_mul by lia.
      assert (Hh : (0 <? 2 ^ (d - 1))%Z = true)
        by (apply Z.ltb_lt, Z.pow_pos_nonneg; lia).
      rewrite Hh. unfold int_of_float. simpl Fnum. simpl Fexp.
      replace (0 + e + d)%Z with (-51)%Z by lia. reflexivity.
Qed.

Lemma float_product_nonneg N L :
  (0 ≤ N)%Z → (0 ≤ Fnum L)%Z → (0 ≤ Fnum (float_mul (float_of_int N) L))%Z.
Proof.
  intros HN HL. destruct (round_error (Float N 0) HN) as [HP _].
  fold (float_of_int N) in HP. unfold float_mul.
  apply round_error. simpl. lia.
Qed.

(** With three vertices the number of runs is 9 on every platform whose
    [math.log(3, 2)] lies between 1.5625 and 1.625. *)
Lemma number_of_runs_3 w :
  (25 / 16 <= F2R (float_log w 3 2) <= 13 / 8)%R →
  number_of_runs_of 3 w = Ok 9%Z w.
Proof.
  intros HL. rewrite number_of_runs_of_unfold. change (3 <=? 0)%Z with false.
  cbv iota. f_equal. change (3 * (3 - 1))%Z with 6%Z.
  destruct (truncated_product_bounds 6 (float_log w 3 2) (25 / 16) (13 / 8))
    as [Hlo Hhi]; [lia | lra | done |].
  pose proof unit_roundoff_bounds as Hu. set (u := unit_roundoff) in *.
  set (k := int_of_float _) in *.
  assert (H8 : (IZR 8 < IZR k)%R) by nra.
  assert (H10 : (IZR k < IZR 10)%R) by nra.
  apply lt_IZR in H8, H10. lia.
Qed.

(** C5 (as stated, refuted). For 3 vertices the script computes 9 runs
    (with the float that [math.log(3, 2)] is on the reference platform,
    as with any other float near it), while [3 * 2 * log2(3)] lies
    strictly between 9 and 10: its ceiling is 10. *)
Lemma number_of_runs_3_is_not_ceil :
  number_of_runs_of 3 (initial (λ _, 0)) = Ok 9%Z (initial (λ _, 0)) ∧
  is_ceil (trial_budget 3) 10 ∧
  ¬ is_ceil (trial_budget 3) 9.
Proof.
  assert (Hlo : (IZR 9 < trial_budget 3)%R)
    by (apply (pow_lt_log2 3 (3 * (3 - 1)) 9); lia).
  assert (Hhi : (trial_budget 3 < IZR 10)%R)
    by (apply (log2_lt_pow 3 (3 * (3 - 1)) 10); lia).
  split; [reflexivity|]. unfold is_ceil. split; [lra | lra].
Qed.

(** C5 (amended). For every [n >= 2] the computed number of runs is the
    integer part (not the ceiling) of the binary64 product of
    [n * (n - 1)] and the float that [math.log(n, 2)] returned.  When
    that float is within the relative error [eps] of [log2(n)], the
    number of runs lies within the relative error
    [(1 + eps) * (1 + 2^-53)^2] of [n * (n - 1) * log2(n)], less than 1
    below it at most: it need not be the integer part of the exact
    product. *)
Theorem number_of_runs_truncates_float_product n w eps :
  (2 ≤ n)%Z →
  (0 <= eps <= 1)%R →
  (Rabs (F2R (float_log w n 2) - ln (IZR n) / ln 2)
   <= eps * (ln (IZR n) / ln 2))%R →
  ∃ k, number_of_runs_of n w = Ok k w ∧
       is_floor (F2R (float_mul (float_of_int (n * (n - 1))) (float_log w n 2))) k ∧
       (trial_budget n * (1 - eps) * (1 - unit_roundoff) ^ 2 - 1
        < IZR k
        <= trial_budget n * (1 + eps) * (1 + unit_roundoff) ^ 2)%R.
Proof.
  intros Hn Heps Hacc. rewrite number_of_runs_of_unfold.
  rewrite (proj2 (Z.leb_gt n 0)) by lia.
  eexists. split; [reflexivity|].
  set (L := float_log w n 2) in *. set (N := (n * (n - 1))%Z).
  assert (HN : (0 ≤ N)%Z) by (unfold N; nia).
  assert (Hlog : (0 < ln (IZR n) / ln 2)%R).
  { pose proof ln_2_pos. apply Rdiv_lt_0_compat; [|done].
    rewrite <- ln_1. apply ln_increasing; [lra|]. apply IZR_lt. lia. }
  set (l := (ln (IZR n) / ln 2)%R) in *.
  assert (Hin : (l * (1 - eps) <= F2R L <= l * (1 + eps))%R)
    by (unfold Rabs in Hacc; destruct (Rcase_abs (F2R L - l)); lra).
  assert (Hlo : (0 <= l * (1 - eps))%R) by (apply Rmult_le_pos; lra).
  split.
  - apply int_of_float_floor, float_product_nonneg; [done|].
    apply F2R_nonneg. lra.
  - pose proof (truncated_product_bounds N L _ _ HN Hlo Hin) as Hb.
    unfold trial_budget. fold N. fold l.
    replace (IZR N * l * (1 - eps))%R with (IZR N * (l * (1 - eps)))%R by ring.
    replace (IZR N * l * (1 + eps))%R with (IZR N * (l * (1 + eps)))%R by ring.
    exact Hb.
Qed.

(** On the reference platform [math.log(4, 2)] is exactly 2. *)
Lemma reference_log_4_exact rnd :
  (Rabs (F2R (float_log (initial rnd) 4 2) - ln (IZR 4) / ln 2)
   <= 0 * (ln (IZR 4) / ln 2))%R.
Proof.
  pose proof ln_2_pos as HL.
  change (float_log (initial rnd) 4 2) with (Float 2 0).
  change 4%Z with (2 ^ 2)%Z. rewrite (ln_Zpow 2 2) by lia.
  unfold F2R. simpl.
  replace (2 * 1 - 2 * ln 2 / ln 2)%R with 0%R by (field; lra).
  rewrite Rabs_R0. lra.
Qed.

Lemma number_of_runs_truncates_float_product_witness :
  (2 ≤ 4)%Z ∧ (0 <= 0 <= 1)%R ∧
  (Rabs (F2R (float_log (initial (λ _, 0%nat)) 4 2) - ln (IZR 4) / ln 2)
   <= 0 * (ln (IZR 4) / ln 2))%R ∧
  ∃ k, number_of_runs_of 4 (initial (λ _, 0)) = Ok k (initial (λ _, 0)) ∧
       is_floor (F2R (float_mul (float_of_int (4 * (4 - 1)))
                                (float_log (initial (λ _, 0)) 4 2))) k ∧
       (trial_budget 4 * (1 - 0) * (1 - unit_roundoff) ^ 2 - 1
        < IZR k
        <= trial_budget 4 * (1 + 0) * (1 + unit_roundoff) ^ 2)%R.
Proof.
  assert (Hn : (2 ≤ 4)%Z) by lia.
  assert (Heps : (0 <= 0 <= 1)%R) by lra.
  pose proof (reference_log_4_exact (λ _, 0)) as Hacc.
  split; [exact Hn|]. split; [exact Heps|]. split; [exact Hacc|].
  exact (number_of_runs_truncates_float_product 4 (initial (λ _, 0)) 0 Hn Heps Hacc).
Defined.

(** The rounding of [math.log] and of the product can also push the
    number of runs above the exact product: for [2 ^ 29] vertices
    [math.log] answers 29.000000000000004 on the reference platform and
    the script computes a number of runs that is 1024 more than
    [n * (n - 1) * 29]. *)
Example number_of_runs_above_exact_product :
  number_of_runs_of 536870912 (initial (λ _, 0))
  = Ok 8358680892830385152%Z (initial (λ _, 0)) ∧
  trial_budget 536870912 = IZR 8358680892830384128 ∧
  ¬ is_floor (trial_budget 536870912) 8358680892830385152.
Proof.
  assert (Hb : trial_budget 536870912 = IZR 8358680892830384128).
  { unfold trial_budget. pose proof ln_2_pos as HL.
    replace (ln (IZR 536870912)) with (IZR 29 * ln (IZR 2))%R
      by (rewrite <- (ln_Zpow 2 29) by lia; reflexivity).
    replace (IZR 29 * ln 2 / ln 2)%R with (IZR 29) by (field; lra).
    rewrite <- mult_IZR. f_equal. }
  split; [by vm_compute|]. split; [done|].
  rewrite Hb. unfold is_floor. intros [Hle _].
  apply le_IZR in Hle. lia.
Qed.

(** With 88924 vertices the script computes 129999728112 runs on the
    reference platform. *)
Example number_of_runs_88924 :
  number_of_runs_of 88924 (initial (λ _, 0))
  = Ok 129999728112%Z (initial (λ _, 0)).
Proof. by vm_compute. Qed.

Example number_of_runs_4 :
  number_of_runs_of 4 (initial (λ _, 0)) = Ok 24%Z (initial (λ _, 0)).
Proof. reflexivity. Qed.

(** * Further properties of the code *)

(** ** The loader *)

(** X1. The list the loader returns holds no endpoint pair twice, and
    every edge has its endpoints in order, [v1 <= v2]; the two are equal
    only for a row that lists its own vertex among the neighbours. *)
Theorem loader_pairs_distinct_and_ordered f w po w1 :
  create_edges_list f w = Ok po w1 →
  NoDup (ends <$> deref po w1) ∧
  Forall (λ e, v1_of e ≤ v2_of e)%Z (deref po w1) ∧
  ∀ e, e ∈ deref po w1 → v1_of e = v2_of e →
       ∃ rest, Tokens (v1_of e :: rest) ∈ f ∧ v1_of e ∈ rest.
Proof.
  intros Hload.
  destruct (loaded_inv _ _ _ _ Hload) as (st & _ & -> & (Hset & Hnd & Hle) & Hadd).
  split; [done|]. split; [done|].
  intros e He Heq.
  assert (Hin : ends e ∈ mentioned f).
  { apply (elem_of_list_to_set (C := gset (Z * Z))). rewrite <- Hadd, Hset.
    apply elem_of_list_to_set. by apply (list_elem_of_fmap_2 ends). }
  unfold mentioned in Hin. apply list_elem_of_bind in Hin as (ln & Hpr & Hln).
  destruct ln as [|[|v1 rest]]; simpl in Hpr; try by apply elem_of_nil in Hpr.
  apply list_elem_of_fmap in Hpr as (v2 & Hpr & Hv2).
  unfold ends, order_pair in Hpr.
  destruct (Z.ltb_spec v1 v2); injection Hpr as Hp1 Hp2; [lia|].
  exists rest. replace (v1_of e) with v1 by lia.
  split; [done|]. by replace v1 with v2 by lia.
Qed.

Lemma loader_pairs_distinct_and_ordered_witness :
  create_edges_list triangle_file (initial (λ _, 0))
  = Ok (returned run_loaded) (final run_loaded) ∧
  NoDup (ends <$> deref (returned run_loaded) (final run_loaded)) ∧
  Forall (λ e, v1_of e ≤ v2_of e)%Z (deref (returned run_loaded) (final run_loaded)) ∧
  ∀ e, e ∈ deref (returned run_loaded) (final run_loaded) → v1_of e = v2_of e →
       ∃ rest, Tokens (v1_of e :: rest) ∈ triangle_file ∧ v1_of e ∈ rest.
Proof.
  assert (Hload : create_edges_list triangle_file (initial (λ _, 0))
                  = Ok (returned run_loaded) (final run_loaded)) by by vm_compute.
  split; [exact Hload|].
  exact (loader_pairs_distinct_and_ordered _ _ _ _ Hload).
Defined.

(** X2. The loaded edges are exactly the pairs the rows mention, each
    once however often and in whichever direction it is mentioned: an
    ordered pair is the endpoints of a loaded edge if and only if some
    row pairs its first vertex with a later one to give it, and the
    number of edges is the number of distinct such pairs. *)
Theorem loader_edges_are_the_mentioned_pairs f w po w1 :
  create_edges_list f w = Ok po w1 →
  (∀ pr, pr ∈ ends <$> deref po w1 ↔ pr ∈ mentioned f) ∧
  length (deref po w1) = size (list_to_set (mentioned f) : gset (Z * Z)).
Proof.
  intros Hload.
  destruct (loaded_inv _ _ _ _ Hload) as (st & _ & -> & (Hset & Hnd & _) & Hadd).
  split.
  - intros pr.
    rewrite <- (elem_of_list_to_set (C := gset (Z * Z)) pr (mentioned f)).
    by rewrite <- Hadd, Hset, elem_of_list_to_set.
  - rewrite <- Hadd, Hset, size_list_to_set by done. by rewrite length_fmap.
Qed.

Lemma loader_edges_are_the_mentioned_pairs_witness :
  create_edges_list triangle_file (initial (λ _, 0))
  = Ok (returned run_loaded) (final run_loaded) ∧
  (∀ pr, pr ∈ ends <$> deref (returned run_loaded) (final run_loaded)
         ↔ pr ∈ mentioned triangle_file) ∧
  length (deref (returned run_loaded) (final run_loaded))
  = size (list_to_set (mentioned triangle_file) : gset (Z * Z)).
Proof.
  assert (Hload : create_edges_list triangle_file (initial (λ _, 0))
                  = Ok (returned run_loaded) (final run_loaded)) by by vm_compute.
  split; [exact Hload|].
  exact (loader_edges_are_the_mentioned_pairs _ _ _ _ Hload).
Defined.

Example mentioned_triangle :
  mentioned triangle_file
  = [(1, 2); (1, 3); (1, 2); (2, 3); (1, 3); (2, 3)]%Z.
Proof. reflexivity. Qed.

Lemma read_lines_blank f : ∀ st,
  Tokens [] ∈ f → read_lines st f = inl IndexError.
Proof.
  induction f as [|ln f IH]; intros st Hin; [by apply elem_of_nil in Hin|].
  apply elem_of_cons in Hin as [<-|Hin]; [done|]. simpl.
  destruct (read_line st ln) as [e|st1] eqn:Hln; [|by apply IH].
  by destruct ln as [|[|v1 rest]].
Qed.

Lemma read_lines_no_blank f : ∀ st,
  Tokens [] ∉ f → ∃ st', read_lines st f = inr st'.
Proof.
  induction f as [|ln f IH]; intros st Hin; [by eexists|]. simpl.
  apply not_elem_of_cons in Hin as [Hne Hin].
  destruct ln as [|[|v1 rest]]; simpl; [by apply IH | done | by apply IH].
Qed.

(** X3. The loader raises exactly when the file has a line of blanks
    (one that is not the bare newline and has no token): it then raises
    [IndexError] and creates no list.  On every other file it returns a
    new list and leaves the existing ones alone. *)
Theorem loader_raises_on_blank_line :
  (∀ f w, Tokens [] ∈ f → create_edges_list f w = Raise IndexError w) ∧
  (∀ f w, Tokens [] ∉ f →
     ∃ po w1, create_edges_list f w = Ok po w1 ∧ (po ∉ dom (heap w)) ∧
              preserves w w1).
Proof.
  split; intros f w Hin; unfold create_edges_list.
  - by rewrite read_lines_blank.
  - destruct (read_lines_no_blank f (Loader 0 [] ∅) Hin) as [st ->].
    destruct (alloc_spec (edges st) w) as (po & -> & Hfresh).
    eexists _, _. split; [done|]. split; [done|]. by apply preserves_alloc.
Qed.

Lemma loader_raises_on_blank_line_witness :
  (Tokens [] ∈ [Tokens [1; 2]%Z; Tokens []] ∧
   create_edges_list [Tokens [1; 2]%Z; Tokens []] (initial (λ _, 0))
   = Raise IndexError (initial (λ _, 0))) ∧
  ((Tokens [] ∉ triangle_file) ∧
   ∃ po w1, create_edges_list triangle_file (initial (λ _, 0)) = Ok po w1 ∧
            (po ∉ dom (heap (initial (λ _, 0)))) ∧
            preserves (initial (λ _, 0)) w1).
Proof.
  assert (H1 : Tokens [] ∈ [Tokens [1; 2]%Z; Tokens []])
    by (apply elem_of_cons; right; apply elem_of_cons; by left).
  assert (H2 : Tokens [] ∉ triangle_file)
    by (unfold triangle_file; rewrite !not_elem_of_cons; repeat split;
        [discriminate..|apply not_elem_of_nil]).
  split.
  - split; [exact H1|].
    exact (proj1 loader_raises_on_blank_line _ (initial (λ _, 0)) H1).
  - split; [exact H2|].
    exact (proj2 loader_raises_on_blank_line _ (initial (λ _, 0)) H2).
Defined.

Lemma read_line_insignificant st ln : ¬ significant ln → read_line st ln = inr st.
Proof. destruct ln as [|[|v1 [|v2 rest]]]; simpl; tauto. Qed.

Lemma read_lines_significant f : ∀ st,
  read_lines st (filter significant f) = read_lines st f.
Proof.
  induction f as [|ln f IH]; intros st; [done|]. rewrite filter_cons.
  destruct (decide (significant ln)) as [Hs|Hs]; simpl.
  - destruct (read_line st ln); [done | apply IH].
  - by rewrite (read_line_insignificant st ln Hs), IH.
Qed.

(** X4. Bare newlines and rows that name a vertex without neighbours
    contribute nothing: removing them from the file, wherever they are,
    changes neither the list loaded nor a failure.  A vertex without
    edges is therefore unknown to the rest of the script. *)
Theorem loader_ignores_lines_without_neighbours f w :
  create_edges_list (filter significant f) w = create_edges_list f w.
Proof. unfold create_edges_list. by rewrite read_lines_significant. Qed.

Example loader_isolated_vertex :
  filter significant [Tokens [1; 2]; Newline; Tokens [3]; Tokens [2; 1]]%Z
  = [Tokens [1; 2]; Tokens [2; 1]]%Z.
Proof. reflexivity. Qed.

(** ** One contraction *)

(** X5. [merge_random_edge] raises exactly on an empty list, in which
    case it raises [IndexError] and has changed nothing.  Otherwise it
    returns a reference that did not exist before, to a list that is the
    argument list as the scan left it, without the entries marked -1; it
    has consumed one random draw and printed nothing; the argument list
    has kept its length, and no other list object has changed. *)
Theorem merge_random_edge_effects p w :
  (deref p w = [] → merge_random_edge p w = Raise IndexError w) ∧
  (deref p w ≠ [] →
     ∃ p' w', merge_random_edge p w = Ok p' w' ∧
       (p' ∉ dom (heap w)) ∧ p' ≠ p ∧
       drawn w' = S (drawn w) ∧ stdout w' = stdout w ∧ rng w' = rng w ∧
       length (deref p w') = length (deref p w) ∧
       deref p' w' = filter kept (deref p w') ∧
       ∀ q, q ≠ p → q ∈ dom (heap w) → heap w' !! q = heap w !! q).
Proof.
  destruct (merge_random_edge_cases p w) as [chosen Hc | Hempty]; split.
  - intros Hempty. by rewrite Hempty in Hc.
  - intros _. destruct (after_merge_new p chosen (deref p w) w) as [Hne Hnew].
    eexists _, _. split; [reflexivity|]. split; [done|]. split; [done|].
    do 3 (split; [done|]).
    rewrite after_merge_result, after_merge_arg, length_fmap.
    split; [done|]. split; [done|].
    intros q Hq Hqd. by apply after_merge_frame.
  - done.
  - done.
Qed.

Lemma merge_random_edge_effects_witness :
  (deref 0 (holding []) = [] ∧
   merge_random_edge 0 (holding []) = Raise IndexError (holding [])) ∧
  (deref 0 (holding triangle) ≠ [] ∧
   ∃ p' w', merge_random_edge 0 (holding triangle) = Ok p' w' ∧
     (p' ∉ dom (heap (holding triangle))) ∧ p' ≠ 0 ∧
     drawn w' = S (drawn (holding triangle)) ∧
     stdout w' = stdout (holding triangle) ∧ rng w' = rng (holding triangle) ∧
     length (deref 0 w') = length (deref 0 (holding triangle)) ∧
     deref p' w' = filter kept (deref 0 w') ∧
     ∀ q, q ≠ 0 → q ∈ dom (heap (holding triangle)) →
          heap w' !! q = heap (holding triangle) !! q).
Proof.
  assert (H1 : deref 0 (holding []) = []) by reflexivity.
  assert (H2 : deref 0 (holding triangle) ≠ []) by (vm_compute; discriminate).
  split.
  - split; [exact H1|]. exact (proj1 (merge_random_edge_effects 0 (holding [])) H1).
  - split; [exact H2|].
    exact (proj2 (merge_random_edge_effects 0 (holding triangle)) H2).
Defined.

Lemma contract_kept chosen l : Forall kept (contract chosen l).
Proof.
  apply Forall_forall. intros e He. unfold contract in He.
  by apply list_elem_of_filter in He as [? _].
Qed.

Lemma contract_normalized chosen l :
  normalized l → Forall kept l → chosen ∈ l → normalized (contract chosen l).
Proof.
  intros Hn Hk Hc.
  assert (Hlt : (v1_of chosen < v2_of chosen)%Z)
    by (unfold normalized in Hn; rewrite Forall_forall in Hn; by apply Hn).
  unfold contract. rewrite (ordered_normalized _ Hlt). unfold ends. simpl.
  rewrite contract_is_contractOnce by done.
  apply Forall_forall. intros e' He'. unfold contractOnce_spec in He'.
  apply list_elem_of_filter in He' as [Hns (e & -> & _)%list_elem_of_fmap].
  unfold self_loop, contractOnce_relabel, v1_of, v2_of in *. simpl in *. lia.
Qed.

(** X6. The data model is an invariant of contraction: from a list whose
    edges all have [v1 < v2] and no identity -1, every list reached by
    successful calls of [merge_random_edge] has the same two properties. *)
Theorem contractions_keep_data_model p w p' w' :
  contractions p w p' w' →
  normalized (deref p w) → Forall kept (deref p w) →
  normalized (deref p' w') ∧ Forall kept (deref p' w').
Proof.
  induction 1 as [|p w p1 w1 p2 w2 Hm _ IH]; intros Hn Hk; [done|].
  apply merge_ok_inv in Hm as (chosen & Hc & -> & ->).
  rewrite after_merge_result in IH. apply IH.
  - apply contract_normalized; [done..|]. by eapply list_elem_of_lookup_2.
  - apply contract_kept.
Qed.

Lemma contractions_keep_data_model_witness :
  contractions (returned run_copied) (final run_copied)
               (returned run_merged) (final run_merged) ∧
  normalized (deref (returned run_copied) (final run_copied)) ∧
  Forall kept (deref (returned run_copied) (final run_copied)) ∧
  normalized (deref (returned run_merged) (final run_merged)) ∧
  Forall kept (deref (returned run_merged) (final run_merged)).
Proof.
  destruct run_contractions as (_ & _ & Hcs).
  assert (Hn : normalized (deref (returned run_copied) (final run_copied)))
    by (vm_compute; repeat constructor).
  assert (Hk : Forall kept (deref (returned run_copied) (final run_copied)))
    by (vm_compute; repeat constructor; discriminate).
  split; [exact Hcs|]. split; [exact Hn|]. split; [exact Hk|].
  exact (contractions_keep_data_model _ _ _ _ Hcs Hn Hk).
Defined.

Lemma length_filter_complement {A} (P : A → Prop) `{!∀ x, Decision (P x)} (l : list A) :
  length (filter P l) + length (filter (λ x, ¬ P x) l) = length l.
Proof.
  induction l as [|x l IH]; [done|]. rewrite !filter_cons.
  destruct (decide (P x)), (decide (¬ P x)); simpl; try tauto; lia.
Qed.

(** X7. A contraction removes exactly the copies of the sampled pair:
    when no identity is -1, the returned list has as many edges as the
    argument had, less the number of its edges whose endpoints are the
    sampled pair in order. *)
Theorem merge_random_edge_removes_the_copies p w chosen p' w' :
  Forall kept (deref p w) →
  deref p w !! pick w (deref p w) = Some chosen →
  merge_random_edge p w = Ok p' w' →
  length (deref p' w')
  + length (filter (λ e, ends e = ordered chosen) (deref p w))
  = length (deref p w).
Proof.
  intros Hk Hc Hm.
  apply merge_ok_inv in Hm as (chosen' & Hc' & -> & ->).
  rewrite Hc in Hc'. injection Hc' as <-.
  rewrite after_merge_result, contract_survivors, length_fmap. unfold survivors.
  rewrite <- (length_filter_complement (λ e, ends e = ordered chosen) (deref p w)).
  rewrite Nat.add_comm. f_equal. f_equal.
  apply filter_ext_in. intros e He. rewrite Forall_forall in Hk. naive_solver.
Qed.

Lemma merge_random_edge_removes_the_copies_witness :
  Forall kept (deref 0 (holding doubled)) ∧
  deref 0 (holding doubled) !! pick (holding doubled) (deref 0 (holding doubled))
  = Some (1, 3, 1)%Z ∧
  merge_random_edge 0 (holding doubled)
  = Ok 1 (final (merge_random_edge 0 (holding doubled))) ∧
  length (deref 1 (final (merge_random_edge 0 (holding doubled))))
  + length (filter (λ e, ends e = ordered (1, 3, 1)%Z) (deref 0 (holding doubled)))
  = length (deref 0 (holding doubled)).
Proof.
  assert (Hk : Forall kept (deref 0 (holding doubled)))
    by (vm_compute; repeat constructor; discriminate).
  assert (Hc : deref 0 (holding doubled)
               !! pick (holding doubled) (deref 0 (holding doubled))
               = Some (1, 3, 1)%Z) by reflexivity.
  assert (Hm : merge_random_edge 0 (holding doubled)
               = Ok 1 (final (merge_random_edge 0 (holding doubled))))
    by by vm_compute.
  split; [exact Hk|]. split; [exact Hc|]. split; [exact Hm|].
  exact (merge_random_edge_removes_the_copies _ _ _ _ _ Hk Hc Hm).
Defined.

Lemma relabel_own_loop v e :
  (v1_of e ≤ v2_of e)%Z → ends e ≠ (v, v) → relabel v v e = e.
Proof.
  destruct e as [[x y] i]. unfold relabel, ends, v1_of, v2_of, u_id. simpl.
  intros Hle Hne. rewrite decide_False by done.
  repeat case_decide; subst;
    repeat match goal with
           | |- context [(?u <? ?w)%Z] => destruct (Z.ltb_spec u w)
           end; try done.
  - destruct Hne. f_equal. lia.
  - destruct Hne. f_equal. lia.
Qed.

(** X8. When the sampled edge is a self-loop at [v] (the loader accepts
    them), in a list with [v1 <= v2] everywhere and no identity -1, the
    call merges nothing: it returns the list without the self-loops at
    [v], every other edge as it was. *)
Theorem merge_random_edge_on_self_loop p w chosen :
  Forall (λ e, v1_of e ≤ v2_of e)%Z (deref p w) → Forall kept (deref p w) →
  deref p w !! pick w (deref p w) = Some chosen →
  v1_of chosen = v2_of chosen →
  ∃ p' w', merge_random_edge p w = Ok p' w' ∧
           deref p' w' = filter (λ e, ends e ≠ ends chosen) (deref p w).
Proof.
  intros Hle Hk Hc Heq.
  destruct (merge_random_edge_cases p w) as [chosen' Hc'|Hempty];
    [|by rewrite Hempty in Hc].
  rewrite Hc in Hc'. injection Hc' as <-.
  eexists _, _. split; [reflexivity|].
  rewrite after_merge_result, contract_survivors. unfold survivors.
  assert (Ho : ordered chosen = ends chosen).
  { unfold ordered, ends. rewrite Heq.
    by destruct (v2_of chosen <? v2_of chosen)%Z. }
  rewrite Ho. unfold ends at 1 2. rewrite Heq. simpl.
  rewrite Forall_forall in Hle, Hk.
  transitivity (filter (λ e, ends e ≠ ends chosen ∧ kept e) (deref p w)).
  - rewrite <- (list_fmap_id (filter _ _)) at 2.
    apply Forall_fmap_ext, Forall_forall. intros e He.
    apply list_elem_of_filter in He as [[Hne _] He].
    apply relabel_own_loop; [by apply Hle|].
    unfold ends in Hne at 2. by rewrite Heq in Hne.
  - apply filter_ext_in. intros e He. specialize (Hk e He). tauto.
Qed.

Lemma merge_random_edge_on_self_loop_witness :
  Forall (λ e, v1_of e ≤ v2_of e)%Z (deref 0 (holding looped)) ∧
  Forall kept (deref 0 (holding looped)) ∧
  deref 0 (holding looped) !! pick (holding looped) (deref 0 (holding looped))
  = Some (2, 2, 0)%Z ∧
  v1_of (2, 2, 0)%Z = v2_of (2, 2, 0)%Z ∧
  ∃ p' w', merge_random_edge 0 (holding looped) = Ok p' w' ∧
           deref p' w'
           = filter (λ e, ends e ≠ ends (2, 2, 0)%Z) (deref 0 (holding looped)).
Proof.
  assert (Hle : Forall (λ e, v1_of e ≤ v2_of e)%Z (deref 0 (holding looped)))
    by (vm_compute; repeat constructor; discriminate).
  assert (Hk : Forall kept (deref 0 (holding looped)))
    by (vm_compute; repeat constructor; discriminate).
  assert (Hc : deref 0 (holding looped)
               !! pick (holding looped) (deref 0 (holding looped))
               = Some (2, 2, 0)%Z) by reflexivity.
  assert (He : v1_of (2, 2, 0)%Z = v2_of (2, 2, 0)%Z) by reflexivity.
  split; [exact Hle|]. split; [exact Hk|]. split; [exact Hc|]. split; [exact He|].
  exact (merge_random_edge_on_self_loop 0 (holding looped) _ Hle Hk Hc He).
Defined.

Lemma relabel_keeps_b a b e :
  a ≠ b → ends e ≠ (a, b) →
  (v1_of (relabel a b e) = b ∨ v2_of (relabel a b e) = b) ↔ ends e = (b, b).
Proof.
  destruct e as [[x y] i]. unfold relabel, ends, v1_of, v2_of, u_id. simpl.
  intros Hab Hne. rewrite decide_False by done.
  repeat case_decide; subst;
    repeat match goal with
           | |- context [(?u <? ?w)%Z] => destruct (Z.ltb_spec u w)
           end; simpl; split; intros Hb; simplify_eq; try tauto; try lia;
    try (destruct Hb; congruence).
Qed.

(** X9. The larger endpoint [b] of the sampled pair is eliminated from
    the returned list exactly when the list has no self-loop at [b]: a
    self-loop [(b, b)] is rewritten to an edge [(a, b)] and keeps the
    label alive.  (No identity is -1.) *)
Theorem merge_random_edge_eliminates_b p w chosen a b p' w' :
  Forall kept (deref p w) →
  deref p w !! pick w (deref p w) = Some chosen →
  ordered chosen = (a, b) → a ≠ b →
  merge_random_edge p w = Ok p' w' →
  b ∈ vertex_set (deref p' w') ↔ ∃ e, e ∈ deref p w ∧ ends e = (b, b).
Proof.
  intros Hk Hc Ho Hab Hm.
  apply merge_ok_inv in Hm as (chosen' & Hc' & -> & ->).
  rewrite Hc in Hc'. injection Hc' as <-.
  rewrite after_merge_result, elem_of_vertex_set, contract_survivors, Ho. simpl.
  rewrite Forall_forall in Hk. unfold survivors. rewrite Ho. split.
  - intros (e' & (e & -> & He)%list_elem_of_fmap & Hb).
    apply list_elem_of_filter in He as [[Hne _] He].
    exists e. split; [done|]. apply (relabel_keeps_b a b e Hab Hne).
    destruct Hb; auto.
  - intros (e & He & Hbb).
    assert (Hne : ends e ≠ (a, b)) by (rewrite Hbb; congruence).
    exists (relabel a b e). split.
    + apply list_elem_of_fmap_2, list_elem_of_filter. auto.
    + apply (relabel_keeps_b a b e Hab Hne) in Hbb. destruct Hbb; auto.
Qed.

Lemma merge_random_edge_eliminates_b_witness :
  Forall kept (deref 0 (holding triangle)) ∧
  deref 0 (holding triangle) !! pick (holding triangle) (deref 0 (holding triangle))
  = Some (1, 2, 0)%Z ∧
  ordered (1, 2, 0)%Z = (1, 2)%Z ∧ (1 ≠ 2)%Z ∧
  merge_random_edge 0 (holding triangle)
  = Ok 1 (final (merge_random_edge 0 (holding triangle))) ∧
  ((2%Z ∈ vertex_set (deref 1 (final (merge_random_edge 0 (holding triangle)))))
   ↔ ∃ e, e ∈ deref 0 (holding triangle) ∧ ends e = (2, 2)%Z).
Proof.
  assert (Hk : Forall kept (deref 0 (holding triangle)))
    by (vm_compute; repeat constructor; discriminate).
  assert (Hc : deref 0 (holding triangle)
               !! pick (holding triangle) (deref 0 (holding triangle))
               = Some (1, 2, 0)%Z) by reflexivity.
  assert (Ho : ordered (1, 2, 0)%Z = (1, 2)%Z) by reflexivity.
  assert (Hab : (1 ≠ 2)%Z) by lia.
  assert (Hm : merge_random_edge 0 (holding triangle)
               = Ok 1 (final (merge_random_edge 0 (holding triangle))))
    by by vm_compute.
  split; [exact Hk|]. split; [exact Hc|]. split; [exact Ho|]. split; [exact Hab|].
  split; [exact Hm|].
  exact (merge_random_edge_eliminates_b _ _ _ _ _ _ _ Hk Hc Ho Hab Hm).
Defined.

(** The label 2 survives the contraction of [(1, 2)] when the list has a
    self-loop at 2. *)
Example self_loop_keeps_label :
  contract (1, 2, 1)%Z looped = [(1, 2, 0); (1, 3, 2)]%Z.
Proof. reflexivity. Qed.

(** ** A trial returns a cut *)

Lemma rep_snoc pairs a b x : rep (pairs ++ [(a, b)]) x = redirect a b (rep pairs x).
Proof. unfold rep. by rewrite foldl_app. Qed.

Lemma filter_fmap {A B} (f : A → B) (P : B → Prop) `{!∀ y, Decision (P y)}
  (l : list A) :
  filter P (f <$> l) = f <$> filter (λ x, P (f x)) l.
Proof.
  induction l as [|x l IH]; [done|]. rewrite fmap_cons, !filter_cons, IH.
  by destruct (decide (P (f x))).
Qed.

Lemma filter_all {A} (P : A → Prop) `{!∀ x, Decision (P x)} (l : list A) :
  Forall P l → filter P l = l.
Proof.
  induction 1 as [|x l Hx _ IH]; [done|].
  by rewrite filter_cons, decide_True, IH.
Qed.

Lemma image_of_u_id r e : u_id (image_of r e) = u_id e.
Proof. done. Qed.

Lemma contractOnce_image a b r e :
  contractOnce_relabel a b (image_of r e) = image_of (λ x, redirect a b (r x)) e.
Proof.
  destruct e as [[x y] i].
  unfold contractOnce_relabel, image_of, v1_of, v2_of, u_id. simpl.
  generalize (r x) (r y). intros p q.
  destruct (Z.le_gt_cases p q).
  - by rewrite (Z.min_l p q), (Z.max_r p q) by lia.
  - rewrite (Z.min_r p q), (Z.max_l p q) by lia.
    by rewrite Z.min_comm, Z.max_comm.
Qed.

Lemma self_loop_image r e : self_loop (image_of r e) ↔ r (v1_of e) = r (v2_of e).
Proof.
  destruct e as [[x y] i]. unfold self_loop, image_of, v1_of, v2_of. simpl. lia.
Qed.

Lemma image_identity l :
  normalized l → image_of (rep []) <$> crossing (rep []) l = l.
Proof.
  intros Hn. unfold crossing.
  rewrite filter_all.
  - rewrite <- (list_fmap_id l) at 2.
    apply Forall_fmap_ext. eapply Forall_impl; [exact Hn|].
    intros [[x y] i]. unfold image_of, v1_of, v2_of, u_id, rep. simpl. intros Hlt.
    by rewrite Z.min_l, Z.max_r by lia.
  - eapply Forall_impl; [exact Hn|]. intros e. unfold rep. simpl. lia.
Qed.

Lemma set_map_redirect a b (S : gset Z) :
  a ∈ S → b ∈ S → set_map (redirect a b) S = S ∖ ({[b]} : gset Z) ∨ a = b.
Proof.
  intros Ha Hb. destruct (decide (a = b)) as [|Hne]; [by right|]. left.
  apply set_eq. intros x. rewrite elem_of_map, elem_of_difference, elem_of_singleton.
  unfold redirect. split.
  - intros (y & -> & Hy). case_decide; subst; auto.
  - intros [Hx Hxb]. exists x. by rewrite decide_False.
Qed.

Lemma set_map_rep_snoc pairs a b (V : gset Z) :
  (set_map (rep (pairs ++ [(a, b)])) V : gset Z)
  = set_map (redirect a b) (set_map (rep pairs) V : gset Z).
Proof.
  apply set_eq. intros x. rewrite !elem_of_map. split.
  - intros (y & -> & Hy). exists (rep pairs y).
    split; [apply rep_snoc|]. apply elem_of_map. eauto.
  - intros (z & -> & (y & -> & Hy)%elem_of_map). exists y.
    split; [by rewrite rep_snoc | done].
Qed.

Lemma vertex_set_image r l0 :
  vertex_set (image_of r <$> crossing r l0) ⊆ (set_map r (vertex_set l0) : gset Z).
Proof.
  intros x. rewrite elem_of_vertex_set, elem_of_map.
  intros (e' & (e & -> & He)%list_elem_of_fmap & Hx).
  apply list_elem_of_filter in He as [_ He].
  assert (Hcases : x = r (v1_of e) ∨ x = r (v2_of e)).
  { destruct e as [[x1 y1] i1]. unfold image_of, v1_of, v2_of in *.
    simpl in *. lia. }
  destruct Hcases as [-> | ->]; eexists; (split; [reflexivity|]);
    apply elem_of_vertex_set; eauto.
Qed.

(** The list a chain of contractions reaches, in terms of the original
    list: its edges are the original edges whose endpoints stand in
    different groups, relabeled; every contraction merged two groups. *)
Lemma reaches_groups l0 pairs l :
  normalized l0 → Forall kept l0 → reaches l0 pairs l →
  l = image_of (rep pairs) <$> crossing (rep pairs) l0 ∧
  normalized l ∧ Forall kept l ∧
  (set_map (rep pairs) (vertex_set l0) : gset Z) ⊆ vertex_set l0 ∧
  size (set_map (rep pairs) (vertex_set l0) : gset Z) + length pairs
  = size (vertex_set l0).
Proof.
  intros Hn0 Hk0. induction 1 as [|pairs l chosen _ IH Hc].
  - split; [by rewrite image_identity|]. split; [done|]. split; [done|].
    assert (Hid : (set_map (rep []) (vertex_set l0) : gset Z) = vertex_set l0).
    { apply set_eq. intros x. rewrite elem_of_map. unfold rep. simpl. naive_solver. }
    rewrite Hid. split; [done | simpl; lia].
  - destruct IH as (Hl & Hn & Hk & Hsub & Hsize).
    assert (Hlt : (v1_of chosen < v2_of chosen)%Z)
      by (unfold normalized in Hn; rewrite Forall_forall in Hn; by apply Hn).
    assert (Ho : ordered chosen = (v1_of chosen, v2_of chosen))
      by by rewrite ordered_normalized.
    set (a := v1_of chosen) in *. set (b := v2_of chosen) in *.
    rewrite Ho.
    assert (Hab : {[a; b]} ⊆ (set_map (rep pairs) (vertex_set l0) : gset Z)).
    { assert (Hvs : {[a; b]} ⊆ vertex_set l).
      { intros x Hx. apply elem_of_vertex_set. exists chosen. split; [done|].
        apply elem_of_union in Hx as [Hx|Hx]; apply elem_of_singleton in Hx; auto. }
      etransitivity; [exact Hvs|]. rewrite Hl at 1. apply vertex_set_image. }
    split; [|split; [by apply contract_normalized|split; [apply contract_kept|]]].
    + unfold contract. rewrite Ho. simpl.
      rewrite contract_is_contractOnce by done. unfold contractOnce_spec.
      rewrite Hl at 1. rewrite <- list_fmap_compose.
      rewrite (list_fmap_ext (contractOnce_relabel a b ∘ image_of (rep pairs))
                 (image_of (rep (pairs ++ [(a, b)]))))
        by (intros i e _; simpl; rewrite contractOnce_image;
            unfold image_of; by setoid_rewrite <- rep_snoc).
      rewrite filter_fmap. f_equal. unfold crossing.
      rewrite list_filter_filter. apply list_filter_iff. intros e.
      rewrite self_loop_image, !rep_snoc. split; [tauto|].
      intros Hne. split; [done|]. intros Heq. apply Hne. by rewrite Heq.
    + rewrite set_map_rep_snoc.
      destruct (set_map_redirect a b (set_map (rep pairs) (vertex_set l0)))
        as [-> | ?]; [set_solver | set_solver | | lia].
      split; [set_solver|].
      rewrite size_difference, size_singleton, length_app by set_solver. simpl.
      assert (Hpos : size ({[b]} : gset Z)
                     ≤ size (set_map (rep pairs) (vertex_set l0) : gset Z))
        by (apply subseteq_size; set_solver).
      rewrite size_singleton in Hpos. lia.
Qed.

Lemma reaches_cons l0 chosen pairs l :
  chosen ∈ l0 → reaches (contract chosen l0) pairs l →
  reaches l0 (ordered chosen :: pairs) l.
Proof.
  intros Hc. induction 1 as [|pairs l c _ IH Hin].
  - apply (reaches_snoc l0 [] l0 chosen); [constructor | done].
  - rewrite app_comm_cons. by apply reaches_snoc.
Qed.

Lemma contract_n_reaches rnd n : ∀ d l0 l,
  contract_n rnd d n l0 = Some l →
  ∃ pairs, reaches l0 pairs l ∧ length pairs = n.
Proof.
  induction n as [|n IH]; intros d l0 l; simpl.
  - intros [= <-]. exists []. split; [constructor | done].
  - destruct (l0 !! _) as [chosen|] eqn:Hc; [|done]. intros Hn.
    apply IH in Hn as (pairs & Hr & Hlen).
    exists (ordered chosen :: pairs). split; [|by rewrite <- Hlen].
    apply reaches_cons; [by eapply list_elem_of_lookup_2 | done].
Qed.

Lemma final_edges_crossing r l0 :
  NoDup (ids l0) →
  final_edges_of l0 (image_of r <$> crossing r l0) = crossing r l0.
Proof.
  intros Hnd. unfold final_edges_of, crossing. cbv zeta.
  apply filter_ext_in. intros e He.
  rewrite elem_of_list_to_set, <- list_fmap_compose. split.
  - intros (e' & Hid & He')%list_elem_of_fmap. simpl in Hid.
    apply list_elem_of_filter in He' as [Hne He'].
    by rewrite (NoDup_ids_inj l0 e e' Hnd He He' Hid).
  - intros Hne. apply list_elem_of_fmap. exists e. split; [done|].
    by apply list_elem_of_filter.
Qed.

(** X11. A trial that returns, returns a cut of the graph it was given.
    For a list with [v1 < v2] everywhere, distinct identities and none
    equal to -1, there is a grouping [r] of the vertices (each vertex
    sent to a vertex of its group) such that the returned edges are
    exactly the original edges whose endpoints lie in different groups,
    in their original order; each of the [n - 2] contractions merged two
    groups, so when [n] is the number of vertices, as the script passes
    it, there are exactly two groups. *)
Theorem min_cut_returns_a_cut p n w p' w' :
  p ∈ dom (heap w) →
  normalized (deref p w) → NoDup (ids (deref p w)) → Forall kept (deref p w) →
  min_cut p n w = Ok p' w' →
  ∃ r : Z → Z,
    deref p' w' = crossing r (deref p w) ∧
    (∀ x, x ∈ vertex_set (deref p w) → r x ∈ vertex_set (deref p w)) ∧
    size (set_map r (vertex_set (deref p w)) : gset Z) + Z.to_nat (n - 2)
    = size (vertex_set (deref p w)) ∧
    (n = Z.of_nat (size (vertex_set (deref p w))) → (2 ≤ n)%Z →
     size (set_map r (vertex_set (deref p w)) : gset Z) = 2).
Proof.
  intros Hp Hn Hnd Hk Hrun.
  destruct (min_cut_spec p n w Hp) as (_ & _ & Hres).
  destruct (contract_n _ _ _ _) as [l'|] eqn:Hcn.
  2:{ destruct Hres as (w'' & Hr & _). by rewrite Hr in Hrun. }
  destruct Hres as (p'' & w'' & Hr & Hl & _).
  rewrite Hr in Hrun. injection Hrun as <- <-.
  apply contract_n_reaches in Hcn as (pairs & Hreach & Hlen).
  destruct (reaches_groups _ _ _ Hn Hk Hreach) as (-> & _ & _ & Hsub & Hsize).
  exists (rep pairs). rewrite Hl, final_edges_crossing by done.
  split; [done|]. split.
  - intros x Hx. apply Hsub, elem_of_map. eauto.
  - rewrite Hlen in Hsize. split; [done|]. intros -> Hn2. lia.
Qed.

Lemma min_cut_returns_a_cut_witness :
  0 ∈ dom (heap (holding triangle)) ∧
  normalized (deref 0 (holding triangle)) ∧
  NoDup (ids (deref 0 (holding triangle))) ∧
  Forall kept (deref 0 (holding triangle)) ∧
  min_cut 0 3 (holding triangle)
  = Ok (returned (min_cut 0 3 (holding triangle)))
       (final (min_cut 0 3 (holding triangle))) ∧
  ∃ r : Z → Z,
    deref (returned (min_cut 0 3 (holding triangle)))
          (final (min_cut 0 3 (holding triangle)))
    = crossing r (deref 0 (holding triangle)) ∧
    (∀ x, x ∈ vertex_set (deref 0 (holding triangle)) →
          r x ∈ vertex_set (deref 0 (holding triangle))) ∧
    size (set_map r (vertex_set (deref 0 (holding triangle))) : gset Z)
    + Z.to_nat (3 - 2)
    = size (vertex_set (deref 0 (holding triangle))) ∧
    (3%Z = Z.of_nat (size (vertex_set (deref 0 (holding triangle)))) → (2 ≤ 3)%Z →
     size (set_map r (vertex_set (deref 0 (holding triangle))) : gset Z) = 2).
Proof.
  assert (Hp : 0 ∈ dom (heap (holding triangle)))
    by (apply elem_of_dom; by eexists).
  assert (Hn : normalized (deref 0 (holding triangle)))
    by (vm_compute; repeat constructor).
  assert (Hnd : NoDup (ids (deref 0 (holding triangle))))
    by (vm_compute; apply (NoDup_fmap_2 Z.of_nat (seq 0 3)), NoDup_seq).
  assert (Hk : Forall kept (deref 0 (holding triangle)))
    by (vm_compute; repeat constructor; discriminate).
  assert (Hrun : min_cut 0 3 (holding triangle)
                 = Ok (returned (min_cut 0 3 (holding triangle)))
                      (final (min_cut 0 3 (holding triangle)))) by by vm_compute.
  split; [exact Hp|]. split; [exact Hn|]. split; [exact Hnd|]. split; [exact Hk|].
  split; [exact Hrun|].
  exact (min_cut_returns_a_cut _ _ _ _ _ Hp Hn Hnd Hk Hrun).
Defined.

Example min_cut_triangle_cut :
  deref (returned (min_cut 0 3 (holding triangle)))
        (final (min_cut 0 3 (holding triangle)))
  = crossing (rep [(1, 2)%Z]) triangle.
Proof. by vm_compute. Qed.

Lemma final_edges_of_self l : final_edges_of l l = l.
Proof.
  unfold final_edges_of. cbv zeta. apply filter_all, Forall_forall.
  intros e He. apply elem_of_list_to_set. by apply (list_elem_of_fmap_2 u_id).
Qed.

(** X10. Called with [vertices_remaining <= 2], also 1, 0 or a negative
    number, [min_cut] contracts nothing and draws nothing: it returns a
    new list equal to the whole original list, whatever that list is. *)
Theorem min_cut_without_contraction p n w :
  p ∈ dom (heap w) → (n ≤ 2)%Z →
  ∃ p' w', min_cut p n w = Ok p' w' ∧ deref p' w' = deref p w ∧
           (p' ∉ dom (heap w)) ∧ drawn w' = drawn w ∧ stdout w' = stdout w.
Proof.
  intros Hp Hn. destruct (min_cut_spec p n w Hp) as (_ & Hs & Hres).
  replace (Z.to_nat (n - 2)) with 0 in Hres by lia. simpl in Hres.
  destruct Hres as (p' & w' & Hr & Hl & Hdr & Hnew).
  rewrite Hr in Hs. simpl in Hs.
  exists p', w'. rewrite Hl, final_edges_of_self.
  split; [done|]. split; [done|]. split; [done|]. split; [lia | done].
Qed.

Lemma min_cut_without_contraction_witness :
  0 ∈ dom (heap (holding looped)) ∧ (1 ≤ 2)%Z ∧
  ∃ p' w', min_cut 0 1 (holding looped) = Ok p' w' ∧
           deref p' w' = deref 0 (holding looped) ∧
           (p' ∉ dom (heap (holding looped))) ∧
           drawn w' = drawn (holding looped) ∧ stdout w' = stdout (holding looped).
Proof.
  assert (Hp : 0 ∈ dom (heap (holding looped)))
    by (apply elem_of_dom; by eexists).
  assert (Hn : (1 ≤ 2)%Z) by lia.
  split; [exact Hp|]. split; [exact Hn|].
  exact (min_cut_without_contraction 0 1 (holding looped) Hp Hn).
Defined.

(** ** The trial loop and the script *)

Lemma min_cut_returns_live p n w p' w' :
  min_cut p n w = Ok p' w' → p' ∈ dom (heap w').
Proof.
  unfold min_cut. rewrite bind_unfold.
  destruct (deepcopy p w) as [c w0|]; [|done]. rewrite bind_unfold.
  destruct (contract_loop _ _ _ _) as [e w1|]; [|done].
  rewrite !bind_unfold. simpl. unfold alloc. intros Heq.
  injection Heq as <- <-. simpl. rewrite dom_insert_L. set_solver.
Qed.

(** One iteration of the trial loop that returns. *)
Lemma trial_returns p n runs best k w best' w' :
  p ∈ dom (heap w) →
  trial p n runs best k w = Ok best' w' →
  ∃ cur l',
    contract_n (rng w) (drawn w) (Z.to_nat (n - 2)) (deref p w) = Some l' ∧
    deref cur w' = final_edges_of (deref p w) l' ∧
    cur ∈ dom (heap w') ∧
    best' = (if num_lt (Z.of_nat (length (deref cur w'))) best.1
             then (Num (Z.of_nat (length (deref cur w'))), cur) else best) ∧
    preserves w w' ∧
    stdout w' = stdout w ++ [Progress k runs best'.1].
Proof.
  intros Hp. unfold trial. destruct best as [smaller edges_of_min_cut].
  rewrite bind_unfold.
  destruct (min_cut p n w) as [cur wm|] eqn:Hm; [|done].
  pose proof (min_cut_returns_live _ _ _ _ _ Hm) as Hlive.
  destruct (min_cut_spec p n w Hp) as (Hpres & Hs & Hres).
  rewrite Hm in Hpres, Hs. simpl in Hpres, Hs.
  destruct (contract_n _ _ _ _) as [l'|];
    [|destruct Hres as (w'' & Heq & _); by rewrite Hm in Heq].
  destruct Hres as (p'' & w'' & Heq & Hl & _). rewrite Hm in Heq.
  injection Heq as <- <-.
  rewrite !bind_unfold. simpl. intros Heq. injection Heq as <- <-.
  exists cur, l'. split; [done|]. split; [done|]. split; [done|].
  split; [done|]. split; [|by simpl; rewrite Hs].
  destruct Hpres as (Hr & Hd & Hf). by repeat split.
Qed.

Lemma num_lt_le a b : num_le (if num_lt a b then Num a else b) b.
Proof.
  destruct b as [|y]; simpl; [done|].
  destruct (Z.ltb_spec a y); simpl; lia.
Qed.

Lemma descending_cons s0 s1 l :
  num_le s1 s0 → descending (s1 :: l) → descending (s0 :: s1 :: l).
Proof.
  intros Hle Hd [|i] x y; simpl.
  - intros [= <-] [= <-]. done.
  - apply Hd.
Qed.

(** A trial loop that returns: what it printed, and what its best pair
    holds, when every result of a trial on the list [l0] satisfies [Q]. *)
Lemma trials_report (Q : list edge → Prop) p n runs l0 ks :
  (∀ rnd d l', contract_n rnd d (Z.to_nat (n - 2)) l0 = Some l' →
               Q (final_edges_of l0 l')) →
  ∀ best w best' w',
    p ∈ dom (heap w) → deref p w = l0 →
    best.1 = Inf ∨ best_is Q w best →
    trials p n runs best ks w = Ok best' w' →
    preserves w w' ∧
    (ks ≠ [] ∨ best_is Q w best → best_is Q w' best') ∧
    ∃ sizes, stdout w' = stdout w ++ progress_lines runs ks sizes ∧
             length sizes = length ks ∧
             descending (best.1 :: sizes) ∧
             last (best.1 :: sizes) = Some best'.1.
Proof.
  intros HQ. induction ks as [|k ks IH]; intros best w best' w' Hp Hl0 Hbest; simpl.
  - intros Heq. injection Heq as <- <-. split; [apply preserves_refl|].
    split; [by intros [?|?]|].
    exists []. rewrite app_nil_r. split; [done|]. split; [done|].
    split; [|done]. intros [|i] s1 s2 ? Hnone; simpl in Hnone; done.
  - rewrite bind_unfold.
    destruct (trial p n runs best k w) as [best1 w1|] eqn:Ht; [|done].
    apply trial_returns in Ht
      as (cur & l' & Hcn & Hcut & Hlive & Hb1 & Hpres1 & Hout1); [|done].
    assert (Hp1 : p ∈ dom (heap w1)) by (destruct Hpres1 as (_ & Hd & _); set_solver).
    assert (Hl1 : deref p w1 = l0) by (rewrite <- Hl0; by apply preserves_deref).
    assert (Hgood : best_is Q w1 best1).
    { rewrite Hl0 in Hcn, Hcut. rewrite Hb1. destruct (num_lt _ _) eqn:Hlt.
      - split; [done|]. split; [done|]. simpl. rewrite Hcut. by eapply HQ.
      - destruct Hbest as [Hinf | (Hsz & Hlv & HQb)].
        + rewrite Hinf in Hlt. done.
        + split; [|split]; simpl.
          * by rewrite (preserves_deref w w1 _ Hpres1 Hlv).
          * destruct Hpres1 as (_ & Hd & _). set_solver.
          * by rewrite (preserves_deref w w1 _ Hpres1 Hlv). }
    intros Hks. apply IH in Hks as (Hpres & Hbest' & sizes & Hout & Hlen & Hdesc & Hlast);
      [|done|done|by right].
    split; [by eapply preserves_trans|].
    split; [intros _; apply Hbest'; by right|].
    exists (best1.1 :: sizes). split; [|split; [|split]].
    + rewrite Hout, Hout1, <- app_assoc. done.
    + simpl. by rewrite Hlen.
    + apply descending_cons; [|done]. rewrite Hb1.
      destruct (num_lt _ _) eqn:Hlt; simpl.
      * pose proof (num_lt_le (Z.of_nat (length (deref cur w1))) best.1) as Hle.
        by rewrite Hlt in Hle.
      * destruct best.1; simpl; [done | lia].
    + done.
Qed.

Lemma descending_tail s l : descending (s :: l) → descending l.
Proof. intros Hd i s1 s2 H1 H2. by apply (Hd (S i)). Qed.

Lemma last_cons_nonempty {A} (x : A) (l : list A) :
  l ≠ [] → last (x :: l) = last l.
Proof. by destruct l. Qed.

(** A run of the script that returns, in full: what was loaded, what was
    printed, and what is returned, when every result of a trial on the
    loaded list satisfies [Q]. *)
Lemma script_report (Q : list edge → Prop) file w r w' :
  script file w = Ok r w' →
  ∃ po w1 n runs sizes,
    create_edges_list file w = Ok po w1 ∧
    n = Z.of_nat (size (vertex_set (deref po w1))) ∧ (1 ≤ n)%Z ∧
    number_of_runs_of n w = Ok runs w ∧
    stdout w' = stdout w ++ progress_lines runs (range1 n) sizes
                ++ [Summary runs r.1 ((λ e, (v1_of e, v2_of e)) <$> r.2)] ∧
    length sizes = Z.to_nat n ∧ descending sizes ∧ last sizes = Some r.1 ∧
    r.1 = Num (Z.of_nat (length r.2)) ∧
    ((∀ rnd d l', contract_n rnd d (Z.to_nat (n - 2)) (deref po w1) = Some l' →
                  Q (final_edges_of (deref po w1) l')) →
     Q r.2).
Proof.
  unfold script. rewrite bind_unfold.
  destruct (create_edges_list file w) as [po w1|] eqn:Hload; [|done].
  pose proof (create_edges_list_float_log _ _ _ _ Hload) as Hlog.
  pose proof (create_edges_list_ok _ _ _ _ Hload) as (Hpo & Hh1 & _ & Hd1 & Hs1 & _).
  destruct (alloc_spec [] w1) as (pe & Hpe & Hfresh).
  rewrite (bind_ok _ _ _ _ _ Hpe).
  set (w2 := set_heap (<[pe := []]> (heap w1)) w1).
  assert (Hpo1 : po ∈ dom (heap w1)) by (rewrite Hh1, dom_insert_L; set_solver).
  assert (Hpo2 : po ∈ dom (heap w2)) by (simpl; rewrite dom_insert_L; set_solver).
  assert (Horig : deref po w2 = deref po w1).
  { unfold w2. apply deref_set_heap_ne. intros ->. done. }
  rewrite (bind_ok _ _ _ _ _ (count_vertices_eq po w2)), Horig.
  set (l0 := deref po w1) in *.
  set (n := Z.of_nat (size (vertex_set l0))).
  rewrite bind_unfold, number_of_runs_of_unfold.
  destruct (n <=? 0)%Z eqn:Hn; [done|].
  change (float_log w2) with (float_log w1). rewrite Hlog.
  set (runs := int_of_float _).
  assert (Hruns : number_of_runs_of n w = Ok runs w)
    by (by rewrite number_of_runs_of_unfold, Hn).
  apply Z.leb_gt in Hn.
  rewrite bind_unfold.
  destruct (trials po n runs (Inf, pe) (range1 n) w2) as [best w3|] eqn:Htr; [|done].
  apply (trials_report
           (λ l, (∀ rnd d l', contract_n rnd d (Z.to_nat (n - 2)) l0 = Some l' →
                              Q (final_edges_of l0 l')) → Q l)
           po n runs l0) in Htr
    as (_ & Hbest & sizes & Hout & Hlen & Hdesc & Hlast);
    [|by intros rnd d l' Hc Hall; apply (Hall rnd d) | done | done | by left].
  assert (Hne : range1 n ≠ []).
  { intros E. apply (f_equal length) in E. rewrite length_range1 in E. simpl in E. lia. }
  destruct (Hbest (or_introl Hne)) as (Hsz & _ & HQb).
  rewrite !bind_unfold. simpl. intros Hr. injection Hr as <- <-. simpl.
  exists po, w1, n, runs, sizes.
  rewrite length_range1 in Hlen.
  split; [done|]. split; [done|]. split; [lia|]. split; [done|].
  split; [by rewrite Hout, <- app_assoc; simpl; rewrite Hs1|].
  split; [done|]. split; [by eapply descending_tail|].
  split; [|split; [done | done]].
  rewrite <- Hlast. symmetry. apply last_cons_nonempty.
  intros E. rewrite E in Hlen. simpl in Hlen. lia.
Qed.

(** X12. In a run of the script that returns, with [n] the number
    [count_vertices] finds in the loaded list and [runs] the number
    computed from [n]: the progress lines are numbered [1 .. n], one per
    vertex, all announce [runs], the sizes they show never increase from
    one line to the next, and the summary shows the last of them, which
    is the number of edges in the cut the script returns. *)
Theorem script_progress_report file w r w' :
  script file w = Ok r w' →
  ∃ po w1 n runs sizes,
    create_edges_list file w = Ok po w1 ∧
    count_vertices po w1 = Ok n w1 ∧
    n = Z.of_nat (size (vertex_set (deref po w1))) ∧ (1 ≤ n)%Z ∧
    number_of_runs_of n w = Ok runs w ∧
    stdout w' = stdout w ++ progress_lines runs (range1 n) sizes
                ++ [Summary runs r.1 ((λ e, (v1_of e, v2_of e)) <$> r.2)] ∧
    length sizes = Z.to_nat n ∧ descending sizes ∧ last sizes = Some r.1 ∧
    r.1 = Num (Z.of_nat (length r.2)).
Proof.
  intros Hrun.
  apply (script_report (λ _, True)) in Hrun
    as (po & w1 & n & runs & sizes & Hload & Hn & Hn1 & Hruns & Hout & Hlen & Hd
        & Hl & Hsz & _).
  exists po, w1, n, runs, sizes.
  split; [done|]. split; [by rewrite count_vertices_eq, Hn|]. auto 10.
Qed.

Lemma script_progress_report_witness :
  script triangle_file (initial (λ _, 0))
  = Ok (Num 2, [(1, 3, 1); (2, 3, 2)]%Z) (final run_script) ∧
  ∃ po w1 n runs sizes,
    create_edges_list triangle_file (initial (λ _, 0)) = Ok po w1 ∧
    count_vertices po w1 = Ok n w1 ∧
    n = Z.of_nat (size (vertex_set (deref po w1))) ∧ (1 ≤ n)%Z ∧
    number_of_runs_of n (initial (λ _, 0)) = Ok runs (initial (λ _, 0)) ∧
    stdout (final run_script)
    = stdout (initial (λ _, 0)) ++ progress_lines runs (range1 n) sizes
      ++ [Summary runs (Num 2) [(1, 3); (2, 3)]%Z] ∧
    length sizes = Z.to_nat n ∧ descending sizes ∧ last sizes = Some (Num 2) ∧
    Num 2 = Num (Z.of_nat (length [(1, 3, 1); (2, 3, 2)]%Z)).
Proof.
  assert (Hrun : script triangle_file (initial (λ _, 0))
                 = Ok (Num 2, [(1, 3, 1); (2, 3, 2)]%Z) (final run_script))
    by (by vm_compute).
  split; [exact Hrun|].
  exact (script_progress_report _ _ _ _ Hrun).
Defined.

(** X13. The cut a returning run of the script reports consists of
    edges of the loaded list, with their original endpoints and
    identities, in the order of the loaded list. *)
Theorem script_reports_original_edges file w r w' :
  script file w = Ok r w' →
  ∃ po w1, create_edges_list file w = Ok po w1 ∧ r.2 `sublist_of` deref po w1.
Proof.
  intros Hrun.
  destruct (create_edges_list file w) as [po w1|] eqn:Hload.
  - destruct (script_report (λ l, l `sublist_of` deref po w1) _ _ _ _ Hrun)
      as (po' & w1' & n & runs & sizes & Hload' & _ & _ & _ & _ & _ & _ & _ & _ & HQ).
    rewrite Hload in Hload'. injection Hload' as <- <-.
    exists po, w1. split; [done|]. apply HQ.
    intros rnd d l' _. apply sublist_filter.
  - unfold script in Hrun. by rewrite bind_unfold, Hload in Hrun.
Qed.

Lemma script_reports_original_edges_witness :
  script triangle_file (initial (λ _, 0))
  = Ok (Num 2, [(1, 3, 1); (2, 3, 2)]%Z) (final run_script) ∧
  ∃ po w1, create_edges_list triangle_file (initial (λ _, 0)) = Ok po w1 ∧
           [(1, 3, 1); (2, 3, 2)]%Z `sublist_of` deref po w1.
Proof.
  assert (Hrun : script triangle_file (initial (λ _, 0))
                 = Ok (Num 2, [(1, 3, 1); (2, 3, 2)]%Z) (final run_script))
    by (by vm_compute).
  split; [exact Hrun|].
  exact (script_reports_original_edges _ _ _ _ Hrun).
Defined.

Lemma normalized_two_labels l :
  normalized l → l ≠ [] → 2 ≤ size (vertex_set l).
Proof.
  intros Hn Hne. destruct l as [|e l]; [done|].
  assert (Hlt : (v1_of e < v2_of e)%Z) by by apply Forall_cons in Hn as [? _].
  assert (Hsub : ({[v1_of e; v2_of e]} : gset Z) ⊆ vertex_set (e :: l)).
  { intros x Hx. apply elem_of_vertex_set. exists e. split; [by left|].
    apply elem_of_union in Hx as [Hx|Hx]; apply elem_of_singleton in Hx; auto. }
  apply subseteq_size in Hsub.
  assert (Hne' : v1_of e ≠ v2_of e) by lia.
  rewrite size_union, !size_singleton in Hsub by set_solver. done.
Qed.

(** Every result of a trial on a list of the data model, called with the
    number of its vertices, is a cut. *)
Lemma trial_result_is_cut l0 rnd d l' :
  normalized l0 → NoDup (ids l0) → Forall kept l0 → l0 ≠ [] →
  contract_n rnd d (Z.to_nat (Z.of_nat (size (vertex_set l0)) - 2)) l0 = Some l' →
  ∃ g : Z → Z,
    final_edges_of l0 l' = crossing g l0 ∧
    (∀ x, x ∈ vertex_set l0 → g x ∈ vertex_set l0) ∧
    size (set_map g (vertex_set l0) : gset Z) = 2.
Proof.
  intros Hn Hnd Hk Hne Hcn.
  pose proof (normalized_two_labels l0 Hn Hne) as H2.
  apply contract_n_reaches in Hcn as (pairs & Hreach & Hlen).
  destruct (reaches_groups _ _ _ Hn Hk Hreach) as (-> & _ & _ & Hsub & Hsize).
  exists (rep pairs). rewrite final_edges_crossing by done.
  split; [done|]. split; [|lia].
  intros x Hx. apply Hsub, elem_of_map. eauto.
Qed.

(** X14. When no row of the file lists its own vertex as a neighbour
    (every loaded edge has [v1 < v2]), what a returning run of the script
    reports is a cut of the loaded graph: the vertices fall into exactly
    two groups, the reported edges are exactly the loaded edges with one
    endpoint in each group, and the reported size is their number. *)
Theorem script_reports_a_cut file w po w1 r w' :
  create_edges_list file w = Ok po w1 →
  normalized (deref po w1) →
  script file w = Ok r w' →
  ∃ g : Z → Z,
    r.2 = crossing g (deref po w1) ∧
    r.1 = Num (Z.of_nat (length (crossing g (deref po w1)))) ∧
    (∀ x, x ∈ vertex_set (deref po w1) → g x ∈ vertex_set (deref po w1)) ∧
    size (set_map g (vertex_set (deref po w1)) : gset Z) = 2.
Proof.
  intros Hload Hn Hrun.
  destruct (script_report
           (λ l, ∃ g : Z → Z,
              l = crossing g (deref po w1) ∧
              (∀ x, x ∈ vertex_set (deref po w1) → g x ∈ vertex_set (deref po w1)) ∧
              size (set_map g (vertex_set (deref po w1)) : gset Z) = 2)
           _ _ _ _ Hrun)
    as (po' & w1' & n & runs & sizes & Hload' & Hn' & Hn1 & _ & _ & _ & _ & _ & Hsz & HQ).
  rewrite Hload in Hload'. injection Hload' as <- <-.
  destruct (loaded_inv _ _ _ _ Hload) as (st & Hst & Hedges & _).
  pose proof (loaded_ids _ _ Hst) as Hids. rewrite <- Hedges in Hids.
  assert (Hnd : NoDup (ids (deref po w1))) by (rewrite Hids; apply seq_ids_NoDup).
  assert (Hk : Forall kept (deref po w1)).
  { eapply Forall_impl; [apply (ids_kept _ (length (deref po w1))); by rewrite Hids|].
    unfold kept. intros e He. simpl in He. lia. }
  assert (Hne : deref po w1 ≠ []).
  { intros E. rewrite E in Hn'. rewrite vertex_set_nil in Hn'. simpl in Hn'. lia. }
  destruct HQ as (g & Hcut & Hin & Hsize).
  - intros rnd d l' Hcn. rewrite Hn' in Hcn.
    by eapply trial_result_is_cut.
  - exists g. rewrite Hsz, Hcut. done.
Qed.

Lemma script_reports_a_cut_witness :
  create_edges_list triangle_file (initial (λ _, 0))
  = Ok (returned run_loaded) (final run_loaded) ∧
  normalized (deref (returned run_loaded) (final run_loaded)) ∧
  script triangle_file (initial (λ _, 0))
  = Ok (Num 2, [(1, 3, 1); (2, 3, 2)]%Z) (final run_script) ∧
  ∃ g : Z → Z,
    [(1, 3, 1); (2, 3, 2)]%Z
    = crossing g (deref (returned run_loaded) (final run_loaded)) ∧
    Num 2 = Num (Z.of_nat (length (crossing g (deref (returned run_loaded)
                                                      (final run_loaded))))) ∧
    (∀ x, x ∈ vertex_set (deref (returned run_loaded) (final run_loaded)) →
          g x ∈ vertex_set (deref (returned run_loaded) (final run_loaded))) ∧
    size (set_map g (vertex_set (deref (returned run_loaded) (final run_loaded)))
          : gset Z) = 2.
Proof.
  assert (Hload : create_edges_list triangle_file (initial (λ _, 0))
                  = Ok (returned run_loaded) (final run_loaded)) by by vm_compute.
  assert (Hn : normalized (deref (returned run_loaded) (final run_loaded)))
    by (vm_compute; repeat constructor).
  assert (Hrun : script triangle_file (initial (λ _, 0))
                 = Ok (Num 2, [(1, 3, 1); (2, 3, 2)]%Z) (final run_script))
    by (by vm_compute).
  split; [exact Hload|]. split; [exact Hn|]. split; [exact Hrun|].
  exact (script_reports_a_cut _ _ _ _ _ _ Hload Hn Hrun).
Defined.

(** With three or more vertices and a logarithm of at least 1, the
    truncated product exceeds the number of vertices. *)
Lemma budget_exceeds_vertices n L :
  (3 ≤ n)%Z → (1 <= F2R L)%R →
  (n < int_of_float (float_mul (float_of_int (n * (n - 1))) L))%Z.
Proof.
  intros Hn HL. set (N := (n * (n - 1))%Z).
  assert (HN : (0 ≤ N)%Z) by (unfold N; nia).
  destruct (truncated_product_bounds N L 1 (F2R L) HN) as [Hlo _]; [lra | lra |].
  pose proof unit_roundoff_bounds as Hu. set (u := unit_roundoff) in *.
  assert (H3 : (4 * n + 4 ≤ 3 * N)%Z) by (unfold N; nia).
  apply IZR_le in H3. rewrite plus_IZR, !mult_IZR in H3.
  assert (HA : (0 <= IZR N)%R) by by apply (IZR_le 0).
  assert (Hsq : (3 / 4 <= (1 - u) ^ 2)%R) by nra.
  assert (Hm : (IZR N * (3 / 4) <= IZR N * (1 - u) ^ 2)%R)
    by by apply Rmult_le_compat_l.
  apply lt_IZR. lra.
Qed.

(** X15. The number of trials a returning run performs against the
    number of runs it announces, [n] being what [count_vertices] finds in
    the loaded list and [runs] what the formula gives for [n]: it prints
    one progress line per vertex.  With one vertex it announces 0 and
    runs 1 trial; with two it announces 2, when [math.log(2, 2)] is 1.0,
    and runs 2; with three or more, whenever [math.log(n, 2)] is at
    least 1, it runs strictly fewer trials than it announces. *)
Theorem script_trials_against_announced_runs file w r w' :
  script file w = Ok r w' →
  ∃ po w1 n runs sizes,
    create_edges_list file w = Ok po w1 ∧
    count_vertices po w1 = Ok n w1 ∧
    number_of_runs_of n w = Ok runs w ∧
    stdout w' = stdout w ++ progress_lines runs (range1 n) sizes
                ++ [Summary runs r.1 ((λ e, (v1_of e, v2_of e)) <$> r.2)] ∧
    length (progress_lines runs (range1 n) sizes) = Z.to_nat n ∧
    (1 ≤ n)%Z ∧
    (n = 1%Z → runs = 0%Z) ∧
    (n = 2%Z → F2R (float_log w 2 2) = 1%R → runs = 2%Z) ∧
    ((3 ≤ n)%Z → (1 <= F2R (float_log w n 2))%R → (n < runs)%Z).
Proof.
  intros Hrun.
  destruct (script_report (λ _, True) _ _ _ _ Hrun)
    as (po & w1 & n & runs & sizes & Hload & Hn & Hn1 & Hruns & Hout & Hlen & _).
  exists po, w1, n, runs, sizes. split; [done|].
  split; [by rewrite count_vertices_eq, Hn|]. split; [done|]. split; [done|].
  split; [unfold progress_lines; rewrite length_zip_with, length_range1; lia|].
  split; [done|].
  rewrite number_of_runs_of_unfold in Hruns.
  rewrite (proj2 (Z.leb_gt n 0)) in Hruns by lia. injection Hruns as Hruns.
  split; [|split].
  - intros E. rewrite E in Hruns.
    pose proof (number_of_runs_of_1 w) as H1.
    rewrite number_of_runs_of_unfold in H1. simpl in H1. injection H1 as H1.
    simpl in Hruns. congruence.
  - intros E HL. rewrite E in Hruns. rewrite <- Hruns.
    by apply truncated_double_of_one.
  - intros H3 HL. rewrite <- Hruns. by apply budget_exceeds_vertices.
Qed.

Lemma script_trials_against_announced_runs_witness :
  script triangle_file (initial (λ _, 0))
  = Ok (Num 2, [(1, 3, 1); (2, 3, 2)]%Z) (final run_script) ∧
  ∃ po w1 n runs sizes,
    create_edges_list triangle_file (initial (λ _, 0)) = Ok po w1 ∧
    count_vertices po w1 = Ok n w1 ∧
    number_of_runs_of n (initial (λ _, 0)) = Ok runs (initial (λ _, 0)) ∧
    stdout (final run_script)
    = stdout (initial (λ _, 0)) ++ progress_lines runs (range1 n) sizes
      ++ [Summary runs (Num 2) [(1, 3); (2, 3)]%Z] ∧
    length (progress_lines runs (range1 n) sizes) = Z.to_nat n ∧
    (1 ≤ n)%Z ∧
    (n = 1%Z → runs = 0%Z) ∧
    (n = 2%Z → F2R (float_log (initial (λ _, 0%nat)) 2 2) = 1%R → runs = 2%Z) ∧
    ((3 ≤ n)%Z → (1 <= F2R (float_log (initial (λ _, 0%nat)) n 2))%R → (n < runs)%Z).
Proof.
  assert (Hrun : script triangle_file (initial (λ _, 0))
                 = Ok (Num 2, [(1, 3, 1); (2, 3, 2)]%Z) (final run_script))
    by (by vm_compute).
  split; [exact Hrun|].
  exact (script_trials_against_announced_runs _ _ _ _ Hrun).
Defined.

Lemma read_lines_error f : ∀ st e,
  read_lines st f = inl e → e = IndexError ∧ Tokens [] ∈ f.
Proof.
  induction f as [|ln f IH]; intros st e; simpl; [done|].
  destruct (read_line st ln) as [e0|st1] eqn:Hln.
  - intros [= <-]. destruct ln as [|[|v1 rest]]; simpl in Hln; simplify_eq.
    split; [done | by left].
  - intros Hf. apply IH in Hf as [-> Hin]. split; [done | by right].
Qed.

Lemma trials_raises p n runs ks : ∀ best w e w',
  p ∈ dom (heap w) →
  trials p n runs best ks w = Raise e w' → e = IndexError.
Proof.
  induction ks as [|k ks IH]; intros best w e w' Hp; simpl; [done|].
  rewrite bind_unfold.
  destruct (trial_spec p n runs best k w Hp) as (Hpres & Hres).
  destruct (contract_n _ _ _ _) as [l'|].
  - destruct Hres as (p1 & w1 & Ho & _). cbv zeta in Ho.
    rewrite Ho in Hpres |- *. simpl in Hpres. apply IH.
    destruct Hpres as (_ & Hd & _). set_solver.
  - destruct Hres as (w1 & -> & _). by intros [= <- _].
Qed.

Lemma vertex_set_empty l : size (vertex_set l) = 0 → l = [].
Proof.
  intros Hsz. destruct l as [|e l]; [done|].
  apply size_empty_inv in Hsz.
  assert (Hin : v1_of e ∈ vertex_set (e :: l))
    by (apply elem_of_vertex_set; exists e; split; [by left | auto]).
  set_solver.
Qed.

Lemma loaded_nil_mentioned st f :
  read_lines (Loader 0 [] ∅) f = inr st → edges st = [] ↔ mentioned f = [].
Proof.
  intros Hst.
  destruct (read_lines_inv f _ _ loader_inv_init Hst) as [(Hset & _) Hadd].
  simpl in Hadd. rewrite Hset in Hadd. split.
  - intros E. rewrite E in Hadd. simpl in Hadd.
    destruct (mentioned f) as [|pr l]; [done|]. set_solver.
  - intros E. rewrite E in Hadd. simpl in Hadd.
    destruct (edges st) as [|e l]; [done|]. set_solver.
Qed.

(** X16. How the script can fail.  It raises only [IndexError] or
    [ValueError].  It raises [ValueError] exactly when the file has no
    line of blanks and mentions no pair at all (the loaded list is
    empty); it is then raised before anything is printed or drawn. *)
Theorem script_failures file w e w' :
  script file w = Raise e w' →
  (e = IndexError ∨ e = ValueError) ∧
  (e = ValueError ↔ (Tokens [] ∉ file) ∧ mentioned file = []) ∧
  (e = ValueError → stdout w' = stdout w ∧ drawn w' = drawn w).
Proof.
  unfold script. rewrite bind_unfold. unfold create_edges_list at 1.
  destruct (read_lines (Loader 0 [] ∅) file) as [e0|st] eqn:Hst.
  { intros [= <- <-]. apply read_lines_error in Hst as [-> Hin].
    split; [by left|]. split; [|done]. split; [done | tauto]. }
  assert (Hnb : Tokens [] ∉ file).
  { intros Hin. by rewrite (read_lines_blank file _ Hin) in Hst. }
  destruct (alloc_spec (edges st) w) as (po & Hpo & Hfresh).
  rewrite Hpo. cbv iota beta.
  set (w1 := set_heap (<[po := edges st]> (heap w)) w).
  destruct (alloc_spec [] w1) as (pe & Hpe & Hfresh1).
  rewrite (bind_ok _ _ _ _ _ Hpe).
  set (w2 := set_heap (<[pe := []]> (heap w1)) w1).
  assert (Hpo2 : po ∈ dom (heap w2)) by (simpl; rewrite !dom_insert_L; set_solver).
  assert (Horig : deref po w2 = edges st).
  { unfold w2. rewrite deref_set_heap_ne; [apply deref_set_heap_eq|].
    intros ->. apply Hfresh1. simpl. rewrite dom_insert_L. set_solver. }
  rewrite (bind_ok _ _ _ _ _ (count_vertices_eq po w2)), Horig.
  rewrite bind_unfold, number_of_runs_of_unfold.
  destruct (Z.of_nat (size (vertex_set (edges st))) <=? 0)%Z eqn:Hn.
  - apply Z.leb_le in Hn. intros [= <- <-].
    assert (Hnil : edges st = []) by (apply vertex_set_empty; lia).
    split; [by right|]. split; [|done]. split; [|done].
    intros _. split; [done|]. by apply (loaded_nil_mentioned st).
  - apply Z.leb_gt in Hn.
    set (runs := int_of_float _).
    rewrite bind_unfold.
    destruct (trials po _ _ _ _ w2) as [best w3|e1 w3] eqn:Htr.
    + rewrite !bind_unfold. simpl. done.
    + intros [= <- <-]. apply trials_raises in Htr as ->; [|done].
      split; [by left|]. split; [|done]. split; [done|].
      intros [_ Hm]. apply (loaded_nil_mentioned st) in Hm; [|done].
      rewrite Hm, vertex_set_nil in Hn. simpl in Hn. lia.
Qed.

Lemma script_failures_witness :
  script three_islands_file (initial (λ _, 0))
  = Raise IndexError (final (script three_islands_file (initial (λ _, 0)))) ∧
  (IndexError = IndexError ∨ IndexError = ValueError) ∧
  (IndexError = ValueError
   ↔ (Tokens [] ∉ three_islands_file) ∧ mentioned three_islands_file = []) ∧
  (IndexError = ValueError →
   stdout (final (script three_islands_file (initial (λ _, 0))))
   = stdout (initial (λ _, 0)) ∧
   drawn (final (script three_islands_file (initial (λ _, 0))))
   = drawn (initial (λ _, 0))).
Proof.
  assert (Hrun : script three_islands_file (initial (λ _, 0))
                 = Raise IndexError
                     (final (script three_islands_file (initial (λ _, 0)))))
    by (by vm_compute).
  split; [exact Hrun|].
  exact (script_failures _ _ _ _ Hrun).
Defined.

(** X17. One iteration of the trial loop that returns, [cur] being the
    list [min_cut] returned to it: this list replaces the best pair
    exactly when it has strictly fewer edges than the best size so far,
    so on a tie the earlier cut is kept, and the earlier cut is then
    still the list it was before the trial; the best size never
    increases, and the iteration adds to what [min_cut] left only the
    one progress line, which shows the best size after the update. *)
Theorem trial_keeps_earlier_cut_on_tie p n runs best k w best' w' :
  p ∈ dom (heap w) →
  best.2 ∈ dom (heap w) →
  trial p n runs best k w = Ok best' w' →
  ∃ cur wm,
    min_cut p n w = Ok cur wm ∧
    let size := Z.of_nat (length (deref cur wm)) in
    (num_lt size best.1 = true →
     best' = (Num size, cur) ∧ deref best'.2 w' = deref cur wm) ∧
    (num_lt size best.1 = false →
     best' = best ∧ deref best'.2 w' = deref best.2 w) ∧
    num_le best'.1 best.1 ∧
    heap w' = heap wm ∧ drawn w' = drawn wm ∧
    stdout w' = stdout wm ++ [Progress k runs best'.1] ∧
    stdout wm = stdout w.
Proof.
  intros Hp Hb Ht. unfold trial in Ht. destruct best as [smaller eb].
  rewrite bind_unfold in Ht.
  destruct (min_cut p n w) as [cur wm|] eqn:Hm; [|done].
  destruct (min_cut_spec p n w Hp) as (Hpres & Hs & _).
  rewrite Hm in Hpres, Hs. simpl in Hpres, Hs, Hb.
  rewrite !bind_unfold in Ht. simpl in Ht. injection Ht as <- <-.
  exists cur, wm. split; [done|]. cbv zeta.
  pose proof (num_lt_le (Z.of_nat (length (deref cur wm))) smaller) as Hle.
  simpl fst. simpl snd.
  destruct (num_lt (Z.of_nat (length (deref cur wm))) smaller) eqn:Hlt.
  - split; [done|]. split; [done|]. by repeat split.
  - split; [done|]. split.
    + intros _. split; [done|]. simpl.
      change (deref eb wm = deref eb w). by apply preserves_deref.
    + by repeat split.
Qed.

Lemma trial_keeps_earlier_cut_on_tie_witness :
  0 ∈ dom (heap (holding triangle)) ∧
  (Num 2, 0).2 ∈ dom (heap (holding triangle)) ∧
  trial 0 3 9 (Num 2, 0) 2 (holding triangle)
  = Ok (Num 2, 0) (final (trial 0 3 9 (Num 2, 0) 2 (holding triangle))) ∧
  ∃ cur wm,
    min_cut 0 3 (holding triangle) = Ok cur wm ∧
    let size := Z.of_nat (length (deref cur wm)) in
    (num_lt size (Num 2, 0).1 = true →
     (Num 2, 0) = (Num size, cur) ∧
     deref (Num 2, 0).2 (final (trial 0 3 9 (Num 2, 0) 2 (holding triangle)))
     = deref cur wm) ∧
    (num_lt size (Num 2, 0).1 = false →
     (Num 2, 0) = (Num 2, 0) ∧
     deref (Num 2, 0).2 (final (trial 0 3 9 (Num 2, 0) 2 (holding triangle)))
     = deref (Num 2, 0).2 (holding triangle)) ∧
    num_le (Num 2, 0).1 (Num 2, 0).1 ∧
    heap (final (trial 0 3 9 (Num 2, 0) 2 (holding triangle))) = heap wm ∧
    drawn (final (trial 0 3 9 (Num 2, 0) 2 (holding triangle))) = drawn wm ∧
    stdout (final (trial 0 3 9 (Num 2, 0) 2 (holding triangle)))
    = stdout wm ++ [Progress 2 9 (Num 2, 0).1] ∧
    stdout wm = stdout (holding triangle).
Proof.
  assert (Hp : 0 ∈ dom (heap (holding triangle)))
    by (apply elem_of_dom; by eexists).
  assert (Ht : trial 0 3 9 (Num 2, 0) 2 (holding triangle)
               = Ok (Num 2, 0) (final (trial 0 3 9 (Num 2, 0) 2 (holding triangle))))
    by (by vm_compute).
  split; [exact Hp|]. split; [exact Hp|]. split; [exact Ht|].
  exact (trial_keeps_earlier_cut_on_tie 0 3 9 (Num 2, 0) 2 (holding triangle) _ _
           Hp Hp Ht).
Defined.
